(** * pubsub-go: a shallow embedding of the Topic and the Hub

    The development follows the two Go files of the library: [topic.go]
    (the per-key delivery unit) and the file of [type hub struct] (the
    registry and router).

    Goroutines are modelled by interleaving.  A call of an exported method
    is one atomic step, taken from the state in which the call starts; a
    call that cannot go through is not taken.  The two goroutines that
    [NewTopic] starts, the broadcast loop [run] and the cancellation
    watcher, take steps of their own, and so do the subscribers that
    receive from their channels.  The broadcast of one message is not
    atomic: it is one send per subscriber, and it holds the read lock of
    the Topic in between.

    The theorems are therefore of two kinds: the result of one call as a
    function of the state in which it runs, and invariants of the states
    between the calls.  Three things that the code can do are outside this
    model, and no theorem speaks about them:
    - a call that is suspended after its check of [ctx.Done()] and resumes
      when the Topic has been cancelled in between -- the check is made
      before [t.mu] is taken, and [Pub] takes no lock: such a [Pub] sends
      on the closed [pubChan], such a [Sub] writes to the nil map that
      [unsubAll] leaves, such an [Unsub] closes the nil channel;
    - the lock [h.mu] of the Hub: [Sub], [Unsub], [PSub] and [PUnsub] hold
      it across [t.Sub()] or [t.Unsub(ch)], so a call that waits for the
      lock of a Topic makes every other call on the Hub wait, [Pub]
      included;
    - the time between [close(t.pubChan)] and [t.unsubAll()] in the
      watcher, see [run_watch].

    A step has one of three outcomes: it returns ([Ret]), the goroutine is
    suspended on a channel or on a lock and the step is not taken
    ([Block]), or the Go runtime panics ([Panic]). *)

From Stdlib Require Import ZArith Lia Ascii String.
From stdpp Require Import base option list gmap strings.

Set Warnings "-clear-no-such-hyp".

(** ** Outcomes of a call *)

Inductive outcome (A : Type) : Type :=
  | Ret (a : A)   (* the call returns [a] *)
  | Block         (* the calling goroutine is suspended *)
  | Panic.        (* the Go runtime panics *)
Arguments Ret {A} a.
Arguments Block {A}.
Arguments Panic {A}.

Definition obind {A B : Type} (f : A → outcome B) (o : outcome A) : outcome B :=
  match o with
  | Ret a => f a
  | Block => Block
  | Panic => Panic
  end.

#[global] Instance outcome_ret : MRet outcome := λ A a, Ret a.
#[global] Instance outcome_bind : MBind outcome := λ A B f o, obind f o.

(** [var ErrTopicAlreadyClosed = errors.New("topic is already closed")] *)
Inductive error : Type := ErrTopicAlreadyClosed.

#[global] Instance error_eq_dec : EqDecision error.
Proof. solve_decision. Defined.

(** The blank identifier of an assignment [_ = t.Pub(msg)]: the list of
    the (non-nil) errors a call has thrown away. *)
Definition blank (e : option error) : list error :=
  match e with
  | Some err => [err]
  | None => []
  end.

(** ** The glob collaborator

    [github.com/gobwas/glob] is outside the repository.  The Hub uses the
    interface [glob.Glob] through [glob.MustCompile] ([None] is its panic on
    a malformed pattern) and the method [Match]. *)
Class GlobLib (Glob : Type) : Type := {
  MustCompile : string → option Glob;
  Match : Glob → string → bool;
}.

(** A matcher for the examples. *)

Module SimpleGlob.

Local Open Scope char_scope.

(** Modelled from the spec: the external glob collaborator
    [matches(pattern, topic)], for the wildcards [*] (any run of
    characters) and [?] (any one character) and literal characters. *)
Fixpoint glob_match (p s : list ascii) : bool :=
  match p with
  | [] => match s with [] => true | _ :: _ => false end
  | c :: p' =>
      if Ascii.eqb c "*" then
        (fix star (s : list ascii) : bool :=
           glob_match p' s ||
           match s with
           | [] => false
           | _ :: s' => star s'
           end) s
      else
        match s with
        | [] => false
        | d :: s' => (Ascii.eqb c "?" || Ascii.eqb c d) && glob_match p' s'
        end
  end.

(** Modelled from the spec: [glob.MustCompile]; the compiled matcher is the
    pattern itself.  This instance covers a fragment of the glob syntax,
    for the examples: a pattern with a bracket or a brace -- a character
    class or an alternative, which the library accepts when well formed --
    is outside the fragment and is refused here, and there is no escape
    character.  The general theorems do not depend on this instance. *)
Definition MustCompile (pattern : string) : option string :=
  if forallb (λ c, negb (Ascii.eqb c "[" || Ascii.eqb c "]" || Ascii.eqb c "{"
                         || Ascii.eqb c "}"))
             (list_ascii_of_string pattern)
  then Some pattern else None.

(** Modelled from the spec: the method [Match] of the compiled matcher. *)
Definition Match (g : string) (topic : string) : bool :=
  glob_match (list_ascii_of_string g) (list_ascii_of_string topic).

End SimpleGlob.

#[global] Instance simple_glob : GlobLib string :=
  {| MustCompile := SimpleGlob.MustCompile; Match := SimpleGlob.Match |}.

(** ** Channels

    A buffered Go channel [make(chan interface{}, n)].  Subscriber channels
    live in a heap and are named by their address; [None] is the nil
    channel.  A channel of capacity 0 is unbuffered in Go (a send waits for
    a receiver); the model has buffers only, and the properties below are
    about the positive queue sizes that the library is meant for. *)

Abbreviation chanid := nat.

Section Broker.

Context {Msg : Type}.

Record chan : Type := Chan {
  buf : list Msg;     (* buffered messages, oldest first *)
  cap : Z;            (* cap(c) *)
  closed : bool;
}.

(** [make(chan interface{}, size)]: a negative size panics. *)
Definition make_chan (size : Z) : outcome chan :=
  if (size <? 0)%Z then Panic else Ret (Chan [] size false).

(** [c <- m] *)
Definition chan_send (c : chan) (m : Msg) : outcome chan :=
  if closed c then Panic
  else if (Z.of_nat (length (buf c)) <? cap c)%Z
       then Ret (Chan (buf c ++ [m]) (cap c) (closed c))
       else Block.

(** [m, ok := <-c] where only a received message counts as a step: an
    empty open channel blocks, an empty closed one is the end of the
    stream. *)
Definition chan_recv (c : chan) : outcome (Msg * chan) :=
  match buf c with
  | m :: b => Ret (m, Chan b (cap c) (closed c))
  | [] => Block
  end.

(** [close(c)] *)
Definition chan_close (c : chan) : outcome chan :=
  if closed c then Panic else Ret (Chan (buf c) (cap c) true).

Abbreviation heap := (list chan).

(** The value of a channel after [close]. *)
Definition closed_chan (c : chan) : chan := Chan (buf c) (cap c) true.

(** [ch := make(chan interface{}, size)] for a channel that is shared by
    address: the fresh address is the next free cell. *)
Definition heap_make (σ : heap) (size : Z) : outcome (chanid * heap) :=
  c ← make_chan size; Ret (length σ, σ ++ [c]).

(** [ch <- m] through a reference; a send on the nil channel blocks
    forever. *)
Definition heap_send (σ : heap) (ch : chanid) (m : Msg) : outcome heap :=
  match σ !! ch with
  | Some c => c' ← chan_send c m; Ret (<[ch := c']> σ)
  | None => Block
  end.

(** [close(ch)] through a reference; [close] of the nil channel panics. *)
Definition heap_close (σ : heap) (ch : option chanid) : outcome heap :=
  match ch with
  | Some i =>
      match σ !! i with
      | Some c => c' ← chan_close c; Ret (<[i := c']> σ)
      | None => Panic
      end
  | None => Panic
  end.

(** ** Topic (topic.go)

    [pubChan] is private to the Topic and is kept by value.  [subChans] is
    the Go map [map[<-chan interface{}]chan interface{}]; [None] is the nil
    map that [unsubAll] leaves behind.  [done] is the state of [ctx.Done()]:
    Go cancels a derived context eagerly when its parent is cancelled, and a
    context derived from a cancelled parent is born cancelled.  [bcast] is
    the state of the goroutine [run]: [Some (msg, rest)] while it is inside
    [pub(msg)] with the subscribers [rest] still to be served -- exactly the
    states in which it holds the read lock of [mu].  (The field [count] of
    the Go struct is never read or written.) *)
Record topic : Type := Topic {
  pubChan : chan;
  subChans : option (gmap chanid chanid);
  done : bool;
  bcast : option (Msg * list chanid);
}.

Definition set_pubChan (t : topic) (c : chan) : topic :=
  Topic c (subChans t) (done t) (bcast t).
Definition set_subChans (t : topic) (m : option (gmap chanid chanid)) : topic :=
  Topic (pubChan t) m (done t) (bcast t).
Definition set_done (t : topic) (b : bool) : topic :=
  Topic (pubChan t) (subChans t) b (bcast t).
Definition set_bcast (t : topic) (b : option (Msg * list chanid)) : topic :=
  Topic (pubChan t) (subChans t) (done t) b.

(** [func NewTopic(ctx context.Context, queueSize int) Topic];
    [parent_done] is the state of the parent context at the call. *)
Definition NewTopic (parent_done : bool) (queueSize : Z) : outcome topic :=
  c ← make_chan queueSize; Ret (Topic c (Some ∅) parent_done None).

(** [func (t *topic) Pub(msg interface{}) error] *)
Definition Topic_Pub (t : topic) (msg : Msg) : outcome (topic * option error) :=
  if done t then Ret (t, Some ErrTopicAlreadyClosed)
  else c ← chan_send (pubChan t) msg; Ret (set_pubChan t c, None).

(** [func (t *topic) Sub() (<-chan interface{}, error)] *)
Definition Topic_Sub (σ : heap) (t : topic)
  : outcome (heap * topic * option chanid * option error) :=
  if done t then Ret (σ, t, None, Some ErrTopicAlreadyClosed)
  else
    match bcast t with
    | Some _ => Block                                (* t.mu.Lock() *)
    | None =>
        '(ch, σ') ← heap_make σ (cap (pubChan t));
        match subChans t with
        | Some m => Ret (σ', set_subChans t (Some (<[ch := ch]> m)), Some ch, None)
        | None => Panic                              (* entry in nil map *)
        end
    end.

(** [t.subChans[ch]]: a missing key and the nil map both yield nil. *)
Definition sub_lookup (t : topic) (ch : option chanid) : option chanid :=
  m ← subChans t; k ← ch; m !! k.

(** [delete(t.subChans, ch)]: a no-op on a missing key and on the nil map. *)
Definition sub_delete (t : topic) (ch : option chanid) : topic :=
  match ch with
  | Some k => set_subChans t (delete k <$> subChans t)
  | None => t
  end.

(** [func (t *topic) unsub(ch <-chan interface{})] *)
Definition Topic_unsub (σ : heap) (t : topic) (ch : option chanid)
  : outcome (heap * topic) :=
  σ' ← heap_close σ (sub_lookup t ch); Ret (σ', sub_delete t ch).

(** [func (t *topic) Unsub(ch <-chan interface{}) error] *)
Definition Topic_Unsub (σ : heap) (t : topic) (ch : option chanid)
  : outcome (heap * topic * option error) :=
  if done t then Ret (σ, t, Some ErrTopicAlreadyClosed)
  else
    match bcast t with
    | Some _ => Block                                (* t.mu.Lock() *)
    | None => '(σ', t') ← Topic_unsub σ t ch; Ret (σ', t', None)
    end.

(** [for ch := range t.subChans { t.unsub(ch) }] over the keys [ks]. *)
Fixpoint unsub_range (ks : list chanid) (σ : heap) (t : topic)
  : outcome (heap * topic) :=
  match ks with
  | [] => Ret (σ, t)
  | k :: ks' => '(σ', t') ← Topic_unsub σ t (Some k); unsub_range ks' σ' t'
  end.

Definition sub_keys (t : topic) : list chanid :=
  match subChans t with
  | Some m => (map_to_list m).*1
  | None => []
  end.

(** [func (t *topic) unsubAll()] *)
Definition Topic_unsubAll (σ : heap) (t : topic) : outcome (heap * topic) :=
  match bcast t with
  | Some _ => Block                                  (* t.mu.Lock() *)
  | None =>
      '(σ', t') ← unsub_range (sub_keys t) σ t;
      Ret (σ', set_subChans t' None)
  end.

(** [func (t *topic) SubLen() int] *)
Definition Topic_SubLen (t : topic) : nat :=
  match subChans t with
  | Some m => size m
  | None => 0
  end.

(** [func (t *topic) Close()] *)
Definition Topic_Close (t : topic) : topic := set_done t true.

(** *** The goroutines of a Topic *)

Definition sub_dom (t : topic) : gset chanid :=
  match subChans t with
  | Some m => dom m
  | None => ∅
  end.

(** Go leaves the iteration order of [range t.subChans] unspecified: the
    order is an argument of the step, any enumeration [ks] of the keys
    without repetition. *)
Definition range_order (t : topic) (ks : list chanid) : bool :=
  bool_decide (NoDup ks) && bool_decide (list_to_set ks = sub_dom t).

(** The values [subChan] that [for _, subChan := range t.subChans] visits. *)
Definition range_values (t : topic) (ks : list chanid) : list chanid :=
  omap (λ k, sub_lookup t (Some k)) ks.

Definition pending (msg : Msg) (rest : list chanid) : option (Msg * list chanid) :=
  match rest with
  | [] => None                                  (* RUnlock *)
  | _ :: _ => Some (msg, rest)
  end.

(** One iteration of [for msg := range t.pubChan] up to the entry of
    [t.pub(msg)]: the message is taken from the intake queue and the range
    over the subscribers starts under the read lock. *)
Definition run_recv (t : topic) (ks : list chanid) : outcome topic :=
  match bcast t with
  | Some _ => Block
  | None =>
      if range_order t ks then
        '(msg, c) ← chan_recv (pubChan t);
        Ret (set_bcast (set_pubChan t c) (pending msg (range_values t ks)))
      else Block
  end.

(** One [subChan <- msg] of [func (t *topic) pub(msg interface{})]. *)
Definition run_deliver (σ : heap) (t : topic) : outcome (heap * topic) :=
  match bcast t with
  | Some (msg, ch :: rest) =>
      σ' ← heap_send σ ch msg; Ret (σ', set_bcast t (pending msg rest))
  | _ => Block
  end.

(** The watcher goroutine of [run]:
    [<-t.ctx.Done(); close(t.pubChan); t.unsubAll()].  It runs once; the
    closed intake queue records that it has run.  In the code
    [close(t.pubChan)] is executed at once on cancellation and only
    [unsubAll] waits for the lock that [pub] holds; here the two are one
    step, taken when the lock is free.  A call of [Pub] that starts on a
    cancelled Topic returns at its check and never reaches [pubChan], and
    the broadcast loop receives from a closed queue as from an open one, so
    for calls taken as one step the difference is not visible; a [Pub] that
    has passed its check before the cancellation, and then sends on the
    closed queue, is outside the model. *)
Definition run_watch (σ : heap) (t : topic) : outcome (heap * topic) :=
  if done t then
    if closed (pubChan t) then Block
    else
      match bcast t with
      | Some _ => Block
      | None =>
          c ← chan_close (pubChan t);
          Topic_unsubAll σ (set_pubChan t c)
      end
  else Block.

(** A subscriber takes the next message from its stream: [msg := <-ch]. *)
Definition consume (σ : heap) (ch : chanid) : outcome (Msg * heap) :=
  match σ !! ch with
  | Some c => '(m, c') ← chan_recv c; Ret (m, <[ch := c']> σ)
  | None => Block
  end.

(** ** Hub *)

Context `{GlobLib Glob}.

(** A Topic is referenced by exactly one registry entry, so the registries
    hold the Topics by value.  [hdone] is [h.ctx.Done()]. *)
Record hub : Type := Hub {
  queueSize : Z;
  topics : gmap string topic;
  ptopics : gmap string topic;
  regexps : gmap string Glob;
  hdone : bool;
}.

Definition set_topics (h : hub) (m : gmap string topic) : hub :=
  Hub (queueSize h) m (ptopics h) (regexps h) (hdone h).
Definition set_ptopics (h : hub) (m : gmap string topic) : hub :=
  Hub (queueSize h) (topics h) m (regexps h) (hdone h).
Definition set_regexps (h : hub) (m : gmap string Glob) : hub :=
  Hub (queueSize h) (topics h) (ptopics h) m (hdone h).

(** [func NewHub(queueSize int) Hub] *)
Definition NewHub (queueSize : Z) : hub := Hub queueSize ∅ ∅ ∅ false.

(** [for pattern, t := range h.ptopics { if h.regexps[pattern].Match(topic)
    { _ = t.Pub(msg) } }] over the keys [ps]; [t] is a pointer, so the loop
    sees the current state of the Topic of [pattern].  A missing matcher is
    a nil interface, whose method call panics. *)
Fixpoint Pub_range (ps : list string) (topic : string) (msg : Msg) (h : hub)
  : outcome (hub * list error) :=
  match ps with
  | [] => Ret (h, [])
  | pattern :: ps' =>
      match ptopics h !! pattern with
      | Some t =>
          match regexps h !! pattern with
          | Some g =>
              if Match g topic then
                '(t', e) ← Topic_Pub t msg;
                '(h', es) ← Pub_range ps' topic msg
                              (set_ptopics h (<[pattern := t']> (ptopics h)));
                Ret (h', blank e ++ es)
              else Pub_range ps' topic msg h
          | None => Panic
          end
      | None => Pub_range ps' topic msg h
      end
  end.

(** [func (h *hub) Pub(topic string, msg interface{})]; the second
    component collects what the call assigns to the blank identifier.  The
    patterns are visited in the order of the keys of the map (Go leaves the
    order open; every [t.Pub] goes to a Topic of its own).  A call that
    finds an intake queue full is suspended as a whole: see [LPubPart]
    below for the sends it has made before.  The read lock [h.mu.RLock()]
    that the call holds is not modelled: the function is the call from the
    point where it has the lock. *)
Definition Hub_Pub (h : hub) (topic : string) (msg : Msg)
  : outcome (hub * list error) :=
  match topics h !! topic with
  | None => Ret (h, [])
  | Some t =>
      '(t', e) ← Topic_Pub t msg;
      '(h', es) ← Pub_range (map_to_list (ptopics h)).*1 topic msg
                    (set_topics h (<[topic := t']> (topics h)));
      Ret (h', blank e ++ es)
  end.

(** [func (h *hub) Sub(topic string) <-chan interface{}] *)
Definition Hub_Sub (σ : heap) (h : hub) (topic : string)
  : outcome (heap * hub * option chanid * list error) :=
  t ← match topics h !! topic with
      | Some t => Ret t
      | None => NewTopic (hdone h) (queueSize h)
      end;
  '(σ', t', ch, e) ← Topic_Sub σ t;
  Ret (σ', set_topics h (<[topic := t']> (topics h)), ch, blank e).

(** [func (h *hub) Unsub(topic string, ch <-chan interface{})]; the Topic
    that is closed and deleted leaves the model: it has no subscriber. *)
Definition Hub_Unsub (σ : heap) (h : hub) (topic : string) (ch : option chanid)
  : outcome (heap * hub * list error) :=
  match topics h !! topic with
  | None => Ret (σ, h, [])
  | Some t =>
      '(σ', t', e) ← Topic_Unsub σ t ch;
      if decide (Topic_SubLen t' = 0)
      then Ret (σ', set_topics h (delete topic (topics h)), blank e)
      else Ret (σ', set_topics h (<[topic := t']> (topics h)), blank e)
  end.

(** [func (h *hub) PSub(pattern string) <-chan interface{}] *)
Definition Hub_PSub (σ : heap) (h : hub) (pattern : string)
  : outcome (heap * hub * option chanid * list error) :=
  '(t, h1) ← match ptopics h !! pattern with
             | Some t => Ret (t, h)
             | None =>
                 t ← NewTopic (hdone h) (queueSize h);
                 match MustCompile pattern with
                 | Some g => Ret (t, set_regexps h (<[pattern := g]> (regexps h)))
                 | None => Panic
                 end
             end;
  '(σ', t', ch, e) ← Topic_Sub σ t;
  Ret (σ', set_ptopics h1 (<[pattern := t']> (ptopics h1)), ch, blank e).

(** [func (h *hub) PUnsub(pattern string, ch <-chan interface{})] *)
Definition Hub_PUnsub (σ : heap) (h : hub) (pattern : string) (ch : option chanid)
  : outcome (heap * hub * list error) :=
  match ptopics h !! pattern with
  | None => Ret (σ, h, [])
  | Some t =>
      '(σ', t', e) ← Topic_Unsub σ t ch;
      if decide (Topic_SubLen t' = 0)
      then Ret (σ', set_ptopics h (delete pattern (ptopics h)), blank e)
      else Ret (σ', set_ptopics h (<[pattern := t']> (ptopics h)), blank e)
  end.

(** [func (h *hub) Close()]: [h.cancel()] cancels the context of the Hub
    and, with it, the context of every Topic derived from it. *)
Definition Hub_Close (h : hub) : hub :=
  Hub (queueSize h) (Topic_Close <$> topics h) (Topic_Close <$> ptopics h)
      (regexps h) true.

(** ** The transition system of a Hub

    A state is the heap of subscriber channels and the Hub.  The labels are
    the calls of the [Hub] interface and the steps of the goroutines of the
    registered Topics and of the subscribers. *)

Inductive tkey : Type :=
  | Exact (topic : string)       (* h.topics[topic] *)
  | Pattern (pattern : string).  (* h.ptopics[pattern] *)

#[global] Instance tkey_eq_dec : EqDecision tkey.
Proof. solve_decision. Defined.

Definition get_topic (h : hub) (k : tkey) : option topic :=
  match k with
  | Exact s => topics h !! s
  | Pattern p => ptopics h !! p
  end.

Definition put_topic (h : hub) (k : tkey) (t : topic) : hub :=
  match k with
  | Exact s => set_topics h (<[s := t]> (topics h))
  | Pattern p => set_ptopics h (<[p := t]> (ptopics h))
  end.

Definition del_topic (h : hub) (k : tkey) : hub :=
  match k with
  | Exact s => set_topics h (delete s (topics h))
  | Pattern p => set_ptopics h (delete p (ptopics h))
  end.

Inductive label : Type :=
  | LPub (topic : string) (msg : Msg)
  | LSub (topic : string)
  | LUnsub (topic : string) (ch : option chanid)
  | LPSub (pattern : string)
  | LPUnsub (pattern : string) (ch : option chanid)
  | LClose
  | LPubPart (k : tkey) (msg : Msg)
  | LRecv (k : tkey) (ks : list chanid)
  | LDeliver (k : tkey)
  | LWatch (k : tkey)
  | LConsume (ch : chanid).

(** [LPub] is a call of [Hub.Pub] that returns.  A call that is suspended
    on a full intake queue has performed some of its [t.Pub(msg)] before:
    [LPubPart k msg] is one such [t.Pub(msg)] on a registered Topic.  Any
    other call that would be suspended is not taken, and when it is taken
    later it starts from its first statement: a call that resumes in the
    middle, after a cancellation, is outside the model. *)
Definition hstep (l : label) (s : heap * hub) : outcome (heap * hub) :=
  let '(σ, h) := s in
  match l with
  | LPub topic msg => '(h', _) ← Hub_Pub h topic msg; Ret (σ, h')
  | LSub topic => '(σ', h', _, _) ← Hub_Sub σ h topic; Ret (σ', h')
  | LUnsub topic ch => '(σ', h', _) ← Hub_Unsub σ h topic ch; Ret (σ', h')
  | LPSub pattern => '(σ', h', _, _) ← Hub_PSub σ h pattern; Ret (σ', h')
  | LPUnsub pattern ch => '(σ', h', _) ← Hub_PUnsub σ h pattern ch; Ret (σ', h')
  | LClose => Ret (σ, Hub_Close h)
  | LPubPart k msg =>
      match get_topic h k with
      | Some t => '(t', _) ← Topic_Pub t msg; Ret (σ, put_topic h k t')
      | None => Block
      end
  | LRecv k ks =>
      match get_topic h k with
      | Some t => t' ← run_recv t ks; Ret (σ, put_topic h k t')
      | None => Block
      end
  | LDeliver k =>
      match get_topic h k with
      | Some t => '(σ', t') ← run_deliver σ t; Ret (σ', put_topic h k t')
      | None => Block
      end
  | LWatch k =>
      match get_topic h k with
      | Some t => '(σ', t') ← run_watch σ t; Ret (σ', put_topic h k t')
      | None => Block
      end
  | LConsume ch => '(_, σ') ← consume σ ch; Ret (σ', h)
  end.

Fixpoint hrun (ls : list label) (s : heap * hub) : outcome (heap * hub) :=
  match ls with
  | [] => Ret s
  | l :: ls' => s' ← hstep l s; hrun ls' s'
  end.

(** The steps of the goroutines and of the subscribers. *)
Definition internal (l : label) : bool :=
  match l with
  | LRecv _ _ | LDeliver _ | LWatch _ | LConsume _ => true
  | _ => false
  end.

(** [NewHub(queueSize)] with a positive queue size, followed by any
    interleaving of calls and goroutine steps. *)
Inductive reachable : heap * hub → Prop :=
  | reachable_new (q : Z) : (0 < q)%Z → reachable ([], NewHub q)
  | reachable_step (l : label) (s s' : heap * hub) :
      reachable s → hstep l s = Ret s' → reachable s'.

(** ** The transition system of one Topic

    A Topic on its own, as a caller of [NewTopic] sees it, with the log of
    what its clients do and see. *)

Inductive event : Type :=
  | Published (msg : Msg)                 (* a Pub that returned nil *)
  | Subscribed (ch : chanid)              (* a Sub that returned ch *)
  | Unsubscribed (ch : chanid)            (* an Unsub(ch) that returned nil *)
  | Observed (ch : chanid) (msg : Msg).   (* msg received from ch *)

Inductive taction : Type :=
  | TPub (msg : Msg)
  | TSub
  | TUnsub (ch : option chanid)
  | TClose
  | TRecv (ks : list chanid)
  | TDeliver
  | TWatch
  | TConsume (ch : chanid).

Definition tstep (a : taction) (s : heap * topic)
  : outcome (heap * topic * list event) :=
  let '(σ, t) := s in
  match a with
  | TPub msg =>
      '(t', e) ← Topic_Pub t msg;
      Ret (σ, t', match e with None => [Published msg] | Some _ => [] end)
  | TSub =>
      '(σ', t', ch, _) ← Topic_Sub σ t;
      Ret (σ', t', match ch with Some c => [Subscribed c] | None => [] end)
  | TUnsub ch =>
      '(σ', t', e) ← Topic_Unsub σ t ch;
      Ret (σ', t', match e, ch with None, Some c => [Unsubscribed c] | _, _ => [] end)
  | TClose => Ret (σ, Topic_Close t, [])
  | TRecv ks => t' ← run_recv t ks; Ret (σ, t', [])
  | TDeliver => '(σ', t') ← run_deliver σ t; Ret (σ', t', [])
  | TWatch => '(σ', t') ← run_watch σ t; Ret (σ', t', [])
  | TConsume ch => '(m, σ') ← consume σ ch; Ret (σ', t, [Observed ch m])
  end.

(** [trun as s log]: the run of [as] from [s], appending to [log]. *)
Fixpoint trun (acts : list taction) (s : heap * topic) (log : list event)
  : outcome (heap * topic * list event) :=
  match acts with
  | [] => Ret (s, log)
  | a :: acts' => '(s', es) ← tstep a s; trun acts' s' (log ++ es)
  end.

Definition published (log : list event) : list Msg :=
  omap (λ e, match e with Published m => Some m | _ => None end) log.

Definition observed (ch : chanid) (log : list event) : list Msg :=
  omap (λ e, match e with
             | Observed c m => if decide (c = ch) then Some m else None
             | _ => None
             end) log.

(** ** Invariants of the reachable states *)

(** What holds of a Topic created with queue size [q], in a heap [σ]. *)
Record topic_inv (q : Z) (σ : heap) (t : topic) : Prop := TopicInv {
  ti_q : (0 ≤ q)%Z;
  ti_cap : cap (pubChan t) = q;
  (* the intake queue is closed by the watcher only, after cancellation *)
  ti_done : done t = false → closed (pubChan t) = false;
  (* the watcher closes the intake queue and leaves the nil map *)
  ti_watch : closed (pubChan t) = true ↔ subChans t = None;
  (* a subscriber channel is registered under its own identity and open *)
  ti_subs : ∀ m k v, subChans t = Some m → m !! k = Some v →
      v = k ∧ ∃ c, σ !! k = Some c ∧ closed c = false ∧ cap c = q;
  (* the range of [pub] runs over registered subscribers *)
  ti_bcast : ∀ msg rest, bcast t = Some (msg, rest) →
      rest ≠ [] ∧ NoDup rest ∧ ∀ k, k ∈ rest → k ∈ sub_dom t;
}.

(** How a step on the Topic [t] in the heap [σ] may change the heap: the
    channels of other Topics are untouched, no foreign channel is acquired,
    and a channel that [t] gives up is closed. *)
Record tframe (σ : heap) (t : topic) (σ' : heap) (t' : topic) : Prop := TFrame {
  tf_other : ∀ ch c, σ !! ch = Some c → ch ∉ sub_dom t → σ' !! ch = Some c;
  tf_fresh : ∀ ch, ch ∈ sub_dom t' → ch ∈ sub_dom t ∨ σ !! ch = None;
  tf_live : ∀ ch c', σ' !! ch = Some c' → closed c' = false →
      ch ∈ sub_dom t' ∨ ((ch ∉ sub_dom t) ∧ σ !! ch = Some c');
}.

Inductive treachable (q : Z) : heap * topic → Prop :=
  | treachable_new (parent_done : bool) (t : topic) :
      (0 < q)%Z → NewTopic parent_done q = Ret t → treachable q ([], t)
  | treachable_step (a : taction) (s s' : heap * topic) (es : list event) :
      treachable q s → tstep a s = Ret (s', es) → treachable q s'.

Record hub_inv (σ : heap) (h : hub) : Prop := HubInv {
  hi_q : (0 < queueSize h)%Z;
  hi_topic : ∀ k t, get_topic h k = Some t → topic_inv (queueSize h) σ t;
  (* a subscriber channel belongs to one Topic *)
  hi_disj : ∀ k1 k2 t1 t2 ch,
      get_topic h k1 = Some t1 → get_topic h k2 = Some t2 →
      ch ∈ sub_dom t1 → ch ∈ sub_dom t2 → k1 = k2;
  (* an open subscriber channel belongs to a registered Topic *)
  hi_live : ∀ ch c, σ !! ch = Some c → closed c = false →
      ∃ k t, get_topic h k = Some t ∧ ch ∈ sub_dom t;
  hi_done : hdone h = true → ∀ k t, get_topic h k = Some t → done t = true;
  hi_open : hdone h = false → ∀ k t, get_topic h k = Some t →
      done t = false ∧ Topic_SubLen t ≠ 0;
  hi_regexps : ∀ p, is_Some (ptopics h !! p) → is_Some (regexps h !! p);
}.

(** The place of a Topic in the registry: registered under [k], or fresh
    from [NewTopic] and about to be registered under [k]. *)
Definition slot (h : hub) (k : tkey) (t : topic) : Prop :=
  get_topic h k = Some t ∨
  (get_topic h k = None ∧ sub_dom t = ∅ ∧ done t = hdone h ∧
   ∀ p, k = Pattern p → is_Some (regexps h !! p)).

(** A Topic in use: created by [NewTopic] with queue size [q] and driven
    directly, or registered in a Hub with that queue size. *)
Definition live_topic (q : Z) (σ : heap) (t : topic) : Prop :=
  treachable q (σ, t) ∨
  ∃ h k, reachable (σ, h) ∧ get_topic h k = Some t ∧ queueSize h = q.

(** ** The work left to the goroutines

    A measure that every step of a goroutine or of a subscriber decreases:
    a queued message is still to be taken from the intake queue and sent to
    every subscriber, a send in flight is still to be made and its message
    received, the watcher is still to run, and a buffered message is still
    to be received. *)

Definition topic_work (t : topic) : nat :=
  length (buf (pubChan t)) * (2 * Topic_SubLen t + 1)
  + 2 * length (from_option snd [] (bcast t))
  + (if closed (pubChan t) then 0 else 1).

Definition registry_work (m : gmap string topic) : nat :=
  sum_list_with (λ kt, topic_work kt.2) (map_to_list m).

Definition heap_work (σ : heap) : nat :=
  sum_list_with (λ c, length (buf c)) σ.

Definition work (s : heap * hub) : nat :=
  heap_work s.1 + registry_work (topics s.2) + registry_work (ptopics s.2).

(** The Topic that [NewTopic] returns under a cancelled context. *)
Definition dead_topic (q : Z) : topic :=
  Topic (Chan [] q false) (Some ∅) true None.

(** ** What a subscriber observes

    [window ch active log]: the messages published while [ch] was
    subscribed, that is after [Subscribed ch] and before
    [Unsubscribed ch]. *)
Fixpoint window (ch : chanid) (active : bool) (log : list event) : list Msg :=
  match log with
  | [] => []
  | Subscribed c :: log' =>
      window ch (if decide (c = ch) then true else active) log'
  | Unsubscribed c :: log' =>
      window ch (if decide (c = ch) then false else active) log'
  | Published m :: log' =>
      if active then m :: window ch active log' else window ch active log'
  | Observed _ _ :: log' => window ch active log'
  end.

(** The message that [pub] still has to send to [ch]. *)
Definition in_flight (t : topic) (ch : chanid) : list Msg :=
  match bcast t with
  | Some (msg, rest) => if decide (ch ∈ rest) then [msg] else []
  | None => []
  end.

(** What the subscriber has received from [ch], followed by what is still
    buffered in [ch]: what the subscriber gets if it keeps receiving and
    nothing more is sent. *)
Definition stream (ch : chanid) (σ : heap) (log : list event) : list Msg :=
  observed ch log ++ from_option buf [] (σ !! ch).

(** [stream], followed by the message that [pub] is about to send to [ch]
    and by the intake queue of the Topic: everything that has reached the
    subscriber of [ch] or is on its way to it. *)
Definition pipeline (ch : chanid) (σ : heap) (t : topic) (log : list event)
  : list Msg :=
  stream ch σ log ++ in_flight t ch ++ buf (pubChan t).

(** The stream of [ch] has been closed. *)
Definition ended (ch : chanid) (σ : heap) : Prop :=
  ∃ c, σ !! ch = Some c ∧ closed c = true.

(** The steps of the goroutines of a Topic and of its subscribers. *)
Definition tinternal (a : taction) : bool :=
  match a with
  | TRecv _ | TDeliver | TWatch | TConsume _ => true
  | _ => false
  end.

(** The work left to the goroutines of one Topic and to the subscribers. *)
Definition twork (s : heap * topic) : nat := heap_work s.1 + topic_work s.2.

(** The subscription of [ch] against the state of its Topic; [B] is the
    intake queue at the time of the subscription and [log] the events
    since. *)
Record sub_inv (q : Z) (ch : chanid) (B : list Msg)
    (σ : heap) (t : topic) (log : list event) : Prop := SubInv {
  si_topic : topic_inv q σ t;
  si_alloc : ch < length σ;
  si_in : ch ∈ sub_dom t → pipeline ch σ t log = B ++ published log;
  si_out : ch ∉ sub_dom t →
      ended ch σ ∧ stream ch σ log `prefix_of` B ++ published log;
}.

(** ** Vocabulary for the further properties *)

(** A channel after a send of [msg] that went through. *)
Definition pushed (msg : Msg) (c : chan) : chan :=
  Chan (buf c ++ [msg]) (cap c) false.

(** Only [Observed] is a reception. *)
Definition is_observation (e : event) : bool :=
  match e with
  | Observed _ _ => true
  | _ => false
  end.

(** What a step may do to a channel: it keeps its capacity; once closed it
    stays closed and only loses messages from the front. *)
Definition chan_evolves (c c' : chan) : Prop :=
  cap c' = cap c ∧
  (closed c = true → closed c' = true ∧ buf c' `suffix_of` buf c).

(** Every channel of [σ] is still in [σ'], at its address. *)
Definition heap_evolves (σ σ' : heap) : Prop :=
  ∀ ch c, σ !! ch = Some c → ∃ c', σ' !! ch = Some c' ∧ chan_evolves c c'.

(** The Topic after [t.Pub(msg)] has returned: unchanged when cancelled,
    with [msg] at the end of the intake queue otherwise. *)
Definition enqueue (msg : Msg) (t : topic) : topic :=
  if done t then t else set_pubChan t (pushed msg (pubChan t)).

(** [h.regexps[pattern].Match(topic)], false without a matcher. *)
Definition accepts (h : hub) (pattern topic : string) : bool :=
  match regexps h !! pattern with
  | Some g => Match g topic
  | None => false
  end.

(** The intake queue of a Topic that is not cancelled has room. *)
Definition has_room (t : topic) : Prop :=
  done t = false → (Z.of_nat (length (buf (pubChan t))) < cap (pubChan t))%Z.

(** The Topics that [Pub(topic, msg)] sends to -- the Topic of [topic] and
    the Topic of every pattern whose matcher accepts [topic] -- are
    cancelled or have room in their intake queue. *)
Definition routed_have_room (h : hub) (topic : string) : Prop :=
  (∀ t, topics h !! topic = Some t → has_room t) ∧
  (∀ p t, ptopics h !! p = Some t → accepts h p topic = true → has_room t).

(** The Topic that [NewTopic] returns under a live context. *)
Definition fresh_topic (q : Z) : topic :=
  Topic (Chan [] q false) (Some ∅) false None.

(** The Topic after a [Sub()] that registered the channel [n]. *)
Definition subscribed (n : chanid) (t : topic) : topic :=
  set_subChans t (Some (<[n := n]> (default ∅ (subChans t)))).

(** The registry after [Unsub] of a channel of the Topic [t] under [k]:
    the Topic goes with its last subscriber. *)
Definition unsubscribed (h : hub) (k : tkey) (t : topic) (ch : chanid) : hub :=
  if decide (Topic_SubLen t = 1) then del_topic h k
  else put_topic h k (set_subChans t (delete ch <$> subChans t)).

(** A queue holds no more than its capacity. *)
Definition within_cap (c : chan) : Prop :=
  (Z.of_nat (length (buf c)) ≤ cap c)%Z.

(** Every subscriber queue has capacity [q] and is within it. *)
Definition heap_within (q : Z) (σ : heap) : Prop :=
  ∀ ch c, σ !! ch = Some c → within_cap c ∧ cap c = q.

(** Every intake queue of the registry is within its capacity. *)
Definition topics_within (h : hub) : Prop :=
  ∀ k t, get_topic h k = Some t → within_cap (pubChan t).

(** * Properties *)

Implicit Types (σ : list chan) (t : topic) (h : hub).

Lemma obind_Ret {A B : Type} (f : A → outcome B) (o : outcome A) (b : B) :
  (o ≫= f) = Ret b ↔ ∃ a, o = Ret a ∧ f a = Ret b.
Proof.
  destruct o as [a| |]; simpl; split.
  - intros Hf. exists a. by split.
  - by intros (a' & [= <-] & Hf).
  - intros [=].
  - by intros (a' & [=] & _).
  - intros [=].
  - by intros (a' & [=] & _).
Qed.

Ltac inv_ret :=
  repeat match goal with
  | H : (_ ≫= _) = Ret _ |- _ =>
      apply obind_Ret in H; destruct H as (? & ? & H)
  | H : (let '(_, _) := ?x in _) = Ret _ |- _ => destruct x
  | H : Ret _ = Ret _ |- _ => injection H as H; try subst
  | H : Block = Ret _ |- _ => discriminate H
  | H : Panic = Ret _ |- _ => discriminate H
  | H : mret _ = Ret _ |- _ => injection H as H; try subst
  end.

(** ** Channels and the heap *)

Lemma make_chan_Ret q c :
  make_chan q = Ret c ↔ (0 ≤ q)%Z ∧ c = Chan [] q false.
Proof.
  unfold make_chan. destruct (Z.ltb_spec q 0); split.
  - intros [=].
  - intros [? _]. lia.
  - intros [= <-]. by split.
  - by intros [_ ->].
Qed.

Lemma chan_send_Ret c m c' :
  chan_send c m = Ret c' ↔
  closed c = false ∧ (Z.of_nat (length (buf c)) < cap c)%Z ∧
  c' = Chan (buf c ++ [m]) (cap c) false.
Proof.
  unfold chan_send. destruct (closed c); [naive_solver|].
  destruct (Z.ltb_spec (Z.of_nat (length (buf c))) (cap c)); [naive_solver|].
  split; [done|]. intros (_ & ? & _). lia.
Qed.

Lemma chan_recv_Ret c m c' :
  chan_recv c = Ret (m, c') ↔
  buf c = m :: buf c' ∧ cap c' = cap c ∧ closed c' = closed c.
Proof.
  unfold chan_recv. destruct c as [b q cl], c' as [b' q' cl']; simpl.
  destruct b as [|m0 b]; split; try naive_solver.
Qed.

Lemma chan_close_Ret c c' :
  chan_close c = Ret c' ↔ closed c = false ∧ c' = Chan (buf c) (cap c) true.
Proof. unfold chan_close. destruct (closed c); naive_solver. Qed.

Lemma heap_make_Ret σ q ch σ' :
  heap_make σ q = Ret (ch, σ') ↔
  (0 ≤ q)%Z ∧ ch = length σ ∧ σ' = σ ++ [Chan [] q false].
Proof.
  unfold heap_make. rewrite obind_Ret. setoid_rewrite make_chan_Ret.
  split.
  - intros (c & [? ->] & [= <- <-]). done.
  - intros (? & -> & ->). eexists. done.
Qed.

Lemma heap_send_Ret σ ch m σ' :
  heap_send σ ch m = Ret σ' ↔
  ∃ c, σ !! ch = Some c ∧ closed c = false ∧
       (Z.of_nat (length (buf c)) < cap c)%Z ∧
       σ' = <[ch := Chan (buf c ++ [m]) (cap c) false]> σ.
Proof.
  unfold heap_send. destruct (σ !! ch) as [c|]; [|naive_solver].
  rewrite obind_Ret. setoid_rewrite chan_send_Ret. split.
  - intros (c' & (? & ? & ->) & [= <-]). by exists c.
  - intros (c0 & [= <-] & ? & ? & ->). eexists. done.
Qed.

Lemma heap_close_Ret σ ch σ' :
  heap_close σ ch = Ret σ' ↔
  ∃ i c, ch = Some i ∧ σ !! i = Some c ∧ closed c = false ∧
         σ' = <[i := Chan (buf c) (cap c) true]> σ.
Proof.
  unfold heap_close. destruct ch as [i|]; [|naive_solver].
  destruct (σ !! i) as [c|] eqn:Hi; [|naive_solver].
  rewrite obind_Ret. setoid_rewrite chan_close_Ret. split.
  - intros (c' & (? & ->) & [= <-]). by exists i, c.
  - intros (i0 & c0 & [= <-] & Hc & ? & ->).
    rewrite Hi in Hc. injection Hc as <-. eexists. done.
Qed.

Lemma consume_Ret σ ch m σ' :
  consume σ ch = Ret (m, σ') ↔
  ∃ c, σ !! ch = Some c ∧ buf c = m :: drop 1 (buf c) ∧
       σ' = <[ch := Chan (drop 1 (buf c)) (cap c) (closed c)]> σ.
Proof.
  unfold consume. destruct (σ !! ch) as [c|]; [|naive_solver].
  rewrite obind_Ret. split.
  - intros ([m' c'] & Hr & [= <- <-]).
    apply chan_recv_Ret in Hr as (Hb & Hq & Hc). exists c.
    rewrite Hb. simpl. rewrite drop_0. destruct c'; simpl in *. by subst.
  - intros (c0 & [= <-] & Hb & ->). eexists (m, _). split; [|done].
    apply chan_recv_Ret. done.
Qed.

(** ** The methods of a Topic *)

Lemma Topic_Pub_Ret t msg t' e :
  Topic_Pub t msg = Ret (t', e) ↔
  (done t = true ∧ t' = t ∧ e = Some ErrTopicAlreadyClosed) ∨
  (done t = false ∧ closed (pubChan t) = false ∧
   (Z.of_nat (length (buf (pubChan t))) < cap (pubChan t))%Z ∧
   t' = set_pubChan t (Chan (buf (pubChan t) ++ [msg]) (cap (pubChan t)) false) ∧
   e = None).
Proof.
  unfold Topic_Pub. destruct (done t); [naive_solver|].
  rewrite obind_Ret. setoid_rewrite chan_send_Ret. split.
  - intros (c & (? & ? & ->) & [= <- <-]). right. done.
  - intros [(? & _)|(_ & ? & ? & -> & ->)]; [done|]. eexists. done.
Qed.

Lemma Topic_Sub_Ret σ t σ' t' ch e :
  Topic_Sub σ t = Ret (σ', t', ch, e) ↔
  (done t = true ∧ σ' = σ ∧ t' = t ∧ ch = None ∧
   e = Some ErrTopicAlreadyClosed) ∨
  (done t = false ∧ bcast t = None ∧ (0 ≤ cap (pubChan t))%Z ∧
   ∃ m, subChans t = Some m ∧
        σ' = σ ++ [Chan [] (cap (pubChan t)) false] ∧
        t' = set_subChans t (Some (<[length σ := length σ]> m)) ∧
        ch = Some (length σ) ∧ e = None).
Proof.
  unfold Topic_Sub. destruct (done t); [naive_solver|].
  destruct (bcast t); [naive_solver|].
  rewrite obind_Ret. split.
  - intros ([c σ1] & Hm & Hr). apply heap_make_Ret in Hm as (? & -> & ->).
    destruct (subChans t) as [m|]; [|done].
    injection Hr as <- <- <- <-. right. repeat split; try done. by exists m.
  - intros [(? & _)|(_ & _ & ? & m & -> & -> & -> & -> & ->)]; [done|].
    exists (length σ, σ ++ [Chan [] (cap (pubChan t)) false]). split; [|done].
    by apply heap_make_Ret.
Qed.

Lemma Topic_unsub_Ret σ t ch σ' t' :
  Topic_unsub σ t ch = Ret (σ', t') ↔
  ∃ k v c m, ch = Some k ∧ subChans t = Some m ∧ m !! k = Some v ∧
             σ !! v = Some c ∧ closed c = false ∧
             σ' = <[v := Chan (buf c) (cap c) true]> σ ∧
             t' = set_subChans t (Some (delete k m)).
Proof.
  unfold Topic_unsub. rewrite obind_Ret. setoid_rewrite heap_close_Ret.
  unfold sub_lookup, sub_delete. split.
  - intros (σ1 & (v & c & Hl & Hv & Hc & ->) & [= <- <-]).
    destruct (subChans t) as [m|]; [|done]. destruct ch as [k|]; [|done].
    simpl in Hl. by exists k, v, c, m.
  - intros (k & v & c & m & -> & -> & Hk & Hv & Hc & -> & ->).
    eexists. split; [|done]. by exists v, c.
Qed.

Lemma Topic_Unsub_Ret σ t ch σ' t' e :
  Topic_Unsub σ t ch = Ret (σ', t', e) ↔
  (done t = true ∧ σ' = σ ∧ t' = t ∧ e = Some ErrTopicAlreadyClosed) ∨
  (done t = false ∧ bcast t = None ∧ e = None ∧
   Topic_unsub σ t ch = Ret (σ', t')).
Proof.
  unfold Topic_Unsub. destruct (done t); [naive_solver|].
  destruct (bcast t); [naive_solver|].
  rewrite obind_Ret. split.
  - intros ([σ1 t1] & ? & [= <- <- <-]). right. done.
  - intros [(? & _)|(_ & _ & -> & ?)]; [done|]. by exists (σ', t').
Qed.

Lemma elem_of_sub_dom t k :
  k ∈ sub_dom t ↔ ∃ m v, subChans t = Some m ∧ m !! k = Some v.
Proof.
  unfold sub_dom. destruct (subChans t) as [m|].
  - rewrite elem_of_dom. split.
    + intros [v ?]. by exists m, v.
    + intros (? & v & [= <-] & ?). by exists v.
  - split; [set_solver|]. by intros (? & ? & ? & _).
Qed.

Lemma topic_inv_lookup q σ t k :
  topic_inv q σ t → k ∈ sub_dom t →
  sub_lookup t (Some k) = Some k ∧
  ∃ c, σ !! k = Some c ∧ closed c = false ∧ cap c = q.
Proof.
  intros Hi (m & v & Hm & Hk)%elem_of_sub_dom.
  destruct (ti_subs _ _ _ Hi _ _ _ Hm Hk) as [-> Hc].
  split; [|done]. unfold sub_lookup. rewrite Hm. done.
Qed.

Lemma topic_inv_lt q σ t k :
  topic_inv q σ t → k ∈ sub_dom t → k < length σ.
Proof.
  intros Hi Hk. destruct (topic_inv_lookup _ _ _ _ Hi Hk) as (_ & c & Hc & _).
  by eapply lookup_lt_Some.
Qed.

(** A Topic does not look at the buffers of its subscriber channels, nor
    at the channels of other Topics. *)
Lemma topic_inv_heap q σ σ' t :
  topic_inv q σ t →
  (∀ k c, k ∈ sub_dom t → σ !! k = Some c →
     ∃ c', σ' !! k = Some c' ∧ closed c' = closed c ∧ cap c' = cap c) →
  topic_inv q σ' t.
Proof.
  intros [] Hσ. split; try done.
  intros m k v Hm Hk. destruct (ti_subs0 _ _ _ Hm Hk) as (-> & c & Hc & ? & ?).
  split; [done|]. destruct (Hσ k c) as (c' & ? & ? & ?); [|done|].
  - apply elem_of_sub_dom. eauto.
  - exists c'. repeat split; congruence.
Qed.

Lemma NewTopic_Ret parent_done q t :
  NewTopic parent_done q = Ret t ↔
  (0 ≤ q)%Z ∧ t = Topic (Chan [] q false) (Some ∅) parent_done None.
Proof.
  unfold NewTopic. rewrite obind_Ret. setoid_rewrite make_chan_Ret. split.
  - intros (c & [? ->] & [= <-]). done.
  - intros [? ->]. eexists. done.
Qed.

Lemma NewTopic_inv parent_done q σ t :
  NewTopic parent_done q = Ret t → topic_inv q σ t.
Proof.
  intros [? ->]%NewTopic_Ret. split; simpl; try done.
  intros m k v [= <-]. by rewrite lookup_empty.
Qed.

(** ** Every step of a Topic keeps its invariant *)

Lemma tframe_refl σ t t' :
  sub_dom t' = sub_dom t → tframe σ t σ t'.
Proof.
  intros Hd. split.
  - done.
  - intros ch. rewrite Hd. by left.
  - intros ch c' Hc _. rewrite Hd.
    destruct (decide (ch ∈ sub_dom t)); [by left|by right].
Qed.

Lemma Topic_Pub_inv q σ t msg t' e :
  topic_inv q σ t → Topic_Pub t msg = Ret (t', e) →
  topic_inv q σ t' ∧ subChans t' = subChans t ∧ done t' = done t ∧
  bcast t' = bcast t.
Proof.
  intros Hi [(_ & -> & _)|(Hd & Hc & _ & -> & _)]%Topic_Pub_Ret; [done|].
  split; [|done]. destruct Hi. split; simpl; try done.
  split; [done|]. intros Hn. apply ti_watch0 in Hn. congruence.
Qed.

Lemma Topic_Sub_inv q σ t σ' t' ch e :
  topic_inv q σ t → Topic_Sub σ t = Ret (σ', t', ch, e) →
  topic_inv q σ' t' ∧ tframe σ t σ' t' ∧ done t' = done t ∧
  (done t = false → Topic_SubLen t' ≠ 0).
Proof.
  intros Hi [(Hd & -> & -> & _)|(Hd & Hb & Hq & m & Hm & -> & -> & -> & ->)]%Topic_Sub_Ret.
  { split; [done|]. split; [by apply tframe_refl|]. split; [done|congruence]. }
  assert (Hfresh : m !! length σ = None).
  { destruct (m !! length σ) as [v|] eqn:Hv; [|done].
    assert (length σ ∈ sub_dom t) as Hin by (apply elem_of_sub_dom; eauto).
    apply (topic_inv_lt _ _ _ _ Hi) in Hin. lia. }
  split; [|split; [|split]].
  - destruct Hi. split; simpl; try done.
    + split; [|done]. intros Hc. apply ti_watch0 in Hc. congruence.
    + intros m' k v [= <-] Hk. apply lookup_insert_Some in Hk as [(<- & <-)|(Hne & Hk)].
      * split; [done|]. eexists. rewrite lookup_app_r, Nat.sub_diag by done.
        simpl. done.
      * destruct (ti_subs0 _ _ _ Hm Hk) as (-> & c & Hc & ? & ?).
        split; [done|]. exists c. rewrite lookup_app_l by (by eapply lookup_lt_Some).
        done.
    + intros msg rest Hr. rewrite Hb in Hr. done.
  - split.
    + intros ch c Hc _. rewrite lookup_app_l by (by eapply lookup_lt_Some). done.
    + intros ch. unfold sub_dom at 1. simpl. rewrite dom_insert_L.
      intros [->%elem_of_singleton|Hin]%elem_of_union.
      * right. by apply lookup_ge_None.
      * left. unfold sub_dom. by rewrite Hm.
    + intros ch c' Hc Ho. unfold sub_dom at 1. simpl. rewrite dom_insert_L.
      destruct (decide (ch < length σ)) as [Hlt|Hge].
      * rewrite lookup_app_l in Hc by done.
        destruct (decide (ch ∈ sub_dom t)) as [Hin|Hout]; [|by right].
        left. unfold sub_dom in Hin. rewrite Hm in Hin. set_solver.
      * assert (ch = length σ) as ->.
        { apply lookup_lt_Some in Hc. rewrite length_app in Hc. simpl in Hc. lia. }
        left. set_solver.
  - done.
  - intros _. unfold Topic_SubLen. simpl.
    rewrite map_size_insert_None by done. lia.
Qed.

Lemma Topic_unsub_inv q σ t ch σ' t' :
  topic_inv q σ t → Topic_unsub σ t ch = Ret (σ', t') →
  ∃ k c m, ch = Some k ∧ subChans t = Some m ∧ is_Some (m !! k) ∧
           σ !! k = Some c ∧ closed c = false ∧
           σ' = <[k := Chan (buf c) (cap c) true]> σ ∧
           t' = set_subChans t (Some (delete k m)).
Proof.
  intros Hi (k & v & c & m & -> & Hm & Hk & Hv & Hc & -> & ->)%Topic_unsub_Ret.
  destruct (ti_subs _ _ _ Hi _ _ _ Hm Hk) as [-> _].
  exists k, c, m. eauto 10.
Qed.

Lemma Topic_Unsub_inv q σ t ch σ' t' e :
  topic_inv q σ t → Topic_Unsub σ t ch = Ret (σ', t', e) →
  topic_inv q σ' t' ∧ tframe σ t σ' t' ∧ done t' = done t.
Proof.
  intros Hi [(Hd & -> & -> & _)|(Hd & Hb & _ & Hu)]%Topic_Unsub_Ret.
  { split; [done|]. split; [by apply tframe_refl|done]. }
  destruct (Topic_unsub_inv _ _ _ _ _ _ Hi Hu)
    as (k & c & m & -> & Hm & Hk & Hc & Ho & -> & ->).
  assert (Hlt : k < length σ) by (by eapply lookup_lt_Some).
  split; [|split; [|done]].
  - destruct Hi. split; simpl; try done.
    + split; [|done]. intros Hcl. apply ti_watch0 in Hcl. congruence.
    + intros m' k' v [= <-] [Hne Hk']%lookup_delete_Some.
      destruct (ti_subs0 _ _ _ Hm Hk') as (-> & c' & Hc' & ? & ?).
      split; [done|]. exists c'. by rewrite list_lookup_insert_ne.
    + intros msg rest Hr. rewrite Hb in Hr. done.
  - split.
    + intros ch c0 Hc0 Hout. rewrite list_lookup_insert_ne; [done|].
      intros <-. apply Hout. unfold sub_dom. rewrite Hm. by apply elem_of_dom.
    + intros ch. unfold sub_dom. simpl. rewrite Hm, dom_delete_L. set_solver.
    + intros ch c' Hc' Ho'. destruct (decide (ch = k)) as [->|Hne].
      { rewrite list_lookup_insert_eq in Hc' by done.
        injection Hc' as <-. done. }
      rewrite list_lookup_insert_ne in Hc' by done.
      unfold sub_dom. simpl. rewrite Hm, dom_delete_L.
      destruct (decide (ch ∈ dom m)); [left; set_solver|by right].
Qed.

Lemma Topic_Close_inv q σ t : topic_inv q σ t → topic_inv q σ (Topic_Close t).
Proof. intros []. split; simpl; done. Qed.

(** In a well-formed Topic the range visits the keys themselves. *)
Lemma range_values_keys q σ t ks :
  topic_inv q σ t → (∀ k, k ∈ ks → k ∈ sub_dom t) → range_values t ks = ks.
Proof.
  intros Hi. induction ks as [|k ks IH]; intros Hks; [done|].
  change (range_values t (k :: ks))
    with (match sub_lookup t (Some k) with
          | Some y => y :: range_values t ks
          | None => range_values t ks
          end).
  destruct (topic_inv_lookup q σ t k Hi) as [-> _]; [set_solver|].
  rewrite IH; [done|]. set_solver.
Qed.

Lemma range_order_spec t ks :
  range_order t ks = true ↔ NoDup ks ∧ list_to_set ks = sub_dom t.
Proof.
  unfold range_order. rewrite andb_true_iff, !bool_decide_eq_true. done.
Qed.

Lemma pending_Some msg rest m r :
  pending msg rest = Some (m, r) ↔ rest ≠ [] ∧ m = msg ∧ r = rest.
Proof. destruct rest; simpl; naive_solver. Qed.

Lemma run_recv_Ret t ks t' :
  run_recv t ks = Ret t' ↔
  ∃ msg, bcast t = None ∧ range_order t ks = true ∧
         buf (pubChan t) = msg :: drop 1 (buf (pubChan t)) ∧
         t' = set_bcast
                (set_pubChan t (Chan (drop 1 (buf (pubChan t)))
                                     (cap (pubChan t)) (closed (pubChan t))))
                (pending msg (range_values t ks)).
Proof.
  unfold run_recv. destruct (bcast t); [naive_solver|].
  destruct (range_order t ks); [|naive_solver].
  rewrite obind_Ret. split.
  - intros ([msg c] & Hr & [= <-]). exists msg.
    apply chan_recv_Ret in Hr as (Hb & Hq & Hc). rewrite Hb. simpl.
    rewrite drop_0. destruct c; simpl in *. by subst.
  - intros (msg & _ & _ & Hb & ->). eexists (msg, _). split; [|done].
    by apply chan_recv_Ret.
Qed.

Lemma run_recv_inv q σ t ks t' :
  topic_inv q σ t → run_recv t ks = Ret t' →
  topic_inv q σ t' ∧ subChans t' = subChans t ∧ done t' = done t.
Proof.
  intros Hi (msg & Hb & [Hnd Hks]%range_order_spec & Hbuf & ->)%run_recv_Ret.
  split; [|done]. rewrite (range_values_keys q σ) by (done || set_solver).
  destruct Hi. split; simpl; try done.
  intros m r (Hne & -> & ->)%pending_Some. split; [done|]. split; [done|].
  intros k Hk. change (k ∈ sub_dom t). set_solver.
Qed.

Lemma run_deliver_Ret σ t σ' t' :
  run_deliver σ t = Ret (σ', t') ↔
  ∃ msg ch rest c, bcast t = Some (msg, ch :: rest) ∧ σ !! ch = Some c ∧
    closed c = false ∧ (Z.of_nat (length (buf c)) < cap c)%Z ∧
    σ' = <[ch := Chan (buf c ++ [msg]) (cap c) false]> σ ∧
    t' = set_bcast t (pending msg rest).
Proof.
  unfold run_deliver. destruct (bcast t) as [[msg [|ch rest]]|]; try naive_solver.
  rewrite obind_Ret. setoid_rewrite heap_send_Ret. split.
  - intros (σ1 & (c & ? & ? & ? & ->) & [= <- <-]). by exists msg, ch, rest, c.
  - intros (? & ? & ? & c & [= <- <- <-] & ? & ? & ? & -> & ->).
    eexists. split; [|done]. by exists c.
Qed.

Lemma run_deliver_inv q σ t σ' t' :
  topic_inv q σ t → run_deliver σ t = Ret (σ', t') →
  topic_inv q σ' t' ∧ tframe σ t σ' t' ∧ subChans t' = subChans t ∧
  done t' = done t.
Proof.
  intros Hi (msg & ch & rest & c & Hb & Hc & Ho & Hroom & -> & ->)%run_deliver_Ret.
  destruct (ti_bcast _ _ _ Hi _ _ Hb) as (_ & Hnd & Hin).
  assert (Hlt : ch < length σ) by (by eapply lookup_lt_Some).
  split; [|split; [|done]].
  - apply (topic_inv_heap q σ).
    + destruct Hi. split; simpl; try done.
      intros m r (Hne & -> & ->)%pending_Some. split; [done|].
      apply NoDup_cons in Hnd as [_ Hnd]. split; [done|].
      intros k Hk. change (k ∈ sub_dom t). apply Hin. set_solver.
    + intros k c0 _ Hc0. destruct (decide (k = ch)) as [->|Hne].
      * rewrite list_lookup_insert_eq by done. eexists. split; [done|].
        simpl. split; congruence.
      * rewrite list_lookup_insert_ne by done. by exists c0.
  - split.
    + intros k c0 Hc0 Hout. rewrite list_lookup_insert_ne; [done|].
      intros <-. apply Hout, Hin. set_solver.
    + intros k Hk. by left.
    + intros k c' Hc' Ho'. change (k ∈ sub_dom t ∨ (k ∉ sub_dom t) ∧ σ !! k = Some c').
      destruct (decide (k ∈ sub_dom t)) as [|Hout]; [by left|right].
      split; [done|]. rewrite list_lookup_insert_ne in Hc'; [done|].
      intros <-. apply Hout, Hin. set_solver.
Qed.

(** The heap after the range of [unsubAll] over the keys [ks]. *)
Lemma unsub_range_Ret ks σ t σ' t' :
  NoDup ks → (∀ k, k ∈ ks → sub_lookup t (Some k) = Some k) →
  unsub_range ks σ t = Ret (σ', t') →
  length σ' = length σ ∧
  (∀ i, i ∉ ks → σ' !! i = σ !! i) ∧
  (∀ i, i ∈ ks → σ' !! i = closed_chan <$> σ !! i) ∧
  pubChan t' = pubChan t ∧ done t' = done t ∧ bcast t' = bcast t.
Proof.
  revert σ t. induction ks as [|k ks IH]; intros σ t Hnd Hks Hr; simpl in Hr.
  { injection Hr as <- <-. split; [done|]. split; [done|]. split; [|done]. set_solver. }
  apply NoDup_cons in Hnd as [Hk Hnd].
  apply obind_Ret in Hr as ([σ1 t1] & Hu & Hr).
  apply Topic_unsub_Ret in Hu as (k0 & v & c & m & [= <-] & Hm & Hv & Hc & Ho & -> & ->).
  assert (v = k) as ->.
  { specialize (Hks k). unfold sub_lookup in Hks. rewrite Hm in Hks. simpl in Hks.
    rewrite Hv in Hks. by injection Hks; [|set_solver]. }
  assert (Hlt : k < length σ) by (by eapply lookup_lt_Some).
  apply IH in Hr as (Hlen & Hout & Hin & Hrest); [|done|].
  - rewrite length_insert in Hlen. split; [done|]. split; [|split; [|done]].
    + intros i Hi. rewrite Hout by set_solver.
      rewrite list_lookup_insert_ne; [done|set_solver].
    + intros i [->|Hi]%elem_of_cons.
      * rewrite Hout by done. rewrite list_lookup_insert_eq by done. by rewrite Hc.
      * rewrite Hin by done. rewrite list_lookup_insert_ne; [done|set_solver].
  - intros k' Hk'. specialize (Hks k'). unfold sub_lookup in *. simpl.
    rewrite Hm in Hks. simpl in *. rewrite lookup_delete_ne by set_solver.
    apply Hks. set_solver.
Qed.

(** The range of [unsubAll] does not panic when every channel is open. *)
Lemma unsub_range_total ks σ t :
  NoDup ks → (∀ k, k ∈ ks → sub_lookup t (Some k) = Some k) →
  (∀ k, k ∈ ks → ∃ c, σ !! k = Some c ∧ closed c = false) →
  ∃ s', unsub_range ks σ t = Ret s'.
Proof.
  revert σ t. induction ks as [|k ks IH]; intros σ t Hnd Hks Hopen; simpl.
  { by eexists. }
  apply NoDup_cons in Hnd as [Hk Hnd].
  destruct (Hopen k) as (c & Hc & Ho); [set_solver|].
  assert (Hlk := Hks k ltac:(set_solver)).
  assert (∃ m, subChans t = Some m ∧ m !! k = Some k) as (m & Hm & Hmk).
  { unfold sub_lookup in Hlk. destruct (subChans t) as [m|]; [|done]. by exists m. }
  assert (Hu : Topic_unsub σ t (Some k)
               = Ret (<[k := Chan (buf c) (cap c) true]> σ,
                      set_subChans t (Some (delete k m)))).
  { apply Topic_unsub_Ret. by exists k, k, c, m. }
  rewrite Hu. simpl. apply IH; [done| |].
  - intros k' Hk'. unfold sub_lookup. simpl. rewrite lookup_delete_ne by set_solver.
    specialize (Hks k' ltac:(set_solver)). unfold sub_lookup in Hks.
    by rewrite Hm in Hks.
  - intros k' Hk'. destruct (Hopen k') as (c' & Hc' & Ho'); [set_solver|].
    exists c'. rewrite list_lookup_insert_ne by set_solver. done.
Qed.

Lemma sub_keys_spec t : NoDup (sub_keys t) ∧ ∀ k, k ∈ sub_keys t ↔ k ∈ sub_dom t.
Proof.
  unfold sub_keys, sub_dom. destruct (subChans t) as [m|].
  - split; [apply NoDup_fst_map_to_list|].
    intros k. rewrite elem_of_dom. rewrite list_elem_of_fmap. split.
    + intros ([k' v] & -> & Hkv). apply elem_of_map_to_list in Hkv. by exists v.
    + intros [v Hv]. exists (k, v). split; [done|]. by apply elem_of_map_to_list.
  - split; [constructor|]. set_solver.
Qed.

Lemma run_watch_Ret q σ t σ' t' :
  topic_inv q σ t → run_watch σ t = Ret (σ', t') →
  done t = true ∧ closed (pubChan t) = false ∧ bcast t = None ∧
  t' = set_subChans (set_pubChan t (closed_chan (pubChan t))) None ∧
  length σ' = length σ ∧
  (∀ i, i ∉ sub_dom t → σ' !! i = σ !! i) ∧
  (∀ i, i ∈ sub_dom t → σ' !! i = closed_chan <$> σ !! i).
Proof.
  intros Hi. unfold run_watch. destruct (done t); [|done].
  destruct (closed (pubChan t)) eqn:Hcl; [done|].
  destruct (bcast t) eqn:Hb; [done|].
  rewrite obind_Ret. intros (c & (_ & ->)%chan_close_Ret & Hu).
  unfold Topic_unsubAll in Hu. simpl in Hu. rewrite Hb in Hu.
  apply obind_Ret in Hu as ([σ1 t1] & Hr & [= <- <-]).
  destruct (sub_keys_spec t) as [Hnd Hkeys].
  apply unsub_range_Ret in Hr as (Hlen & Hout & Hin & Hp & Hd & Hb').
  - repeat split; try done.
    + destruct t1; simpl in *. by subst.
    + intros i Hi'. apply Hout. by rewrite Hkeys.
    + intros i Hi'. apply Hin. by apply Hkeys.
  - done.
  - intros k Hk. apply Hkeys in Hk.
    by destruct (topic_inv_lookup q σ t k Hi Hk) as [? _].
Qed.

Lemma run_watch_inv q σ t σ' t' :
  topic_inv q σ t → run_watch σ t = Ret (σ', t') →
  topic_inv q σ' t' ∧ tframe σ t σ' t' ∧ done t' = true ∧ subChans t' = None.
Proof.
  intros Hi Hw.
  destruct (run_watch_Ret _ _ _ _ _ Hi Hw) as (Hd & Hc & Hb & -> & Hlen & Hout & Hin).
  split; [|split; [|done]].
  - destruct Hi. split; simpl; try done.
    + intros Hd'. congruence.
    + intros msg rest Hr. rewrite Hb in Hr. done.
  - split.
    + intros ch c Hch Hnin. by rewrite Hout.
    + intros ch. unfold sub_dom at 1. simpl. set_solver.
    + intros ch c' Hch Ho. right.
      destruct (decide (ch ∈ sub_dom t)) as [Hin'|Hnin].
      * rewrite Hin in Hch by done. by apply fmap_Some in Hch as (c0 & _ & ->).
      * by rewrite Hout in Hch.
Qed.

Lemma consume_inv q σ t ch m σ' :
  topic_inv q σ t → consume σ ch = Ret (m, σ') →
  topic_inv q σ' t ∧
  (∀ k c', σ' !! k = Some c' →
     ∃ c, σ !! k = Some c ∧ closed c' = closed c ∧ cap c' = cap c).
Proof.
  intros Hi (c & Hc & Hb & ->)%consume_Ret.
  assert (Hlt : ch < length σ) by (by eapply lookup_lt_Some).
  split.
  - apply (topic_inv_heap q σ); [done|]. intros k c0 _ Hk.
    destruct (decide (k = ch)) as [->|Hne].
    + rewrite list_lookup_insert_eq by done. eexists. split; [done|].
      simpl. split; congruence.
    + rewrite list_lookup_insert_ne by done. by exists c0.
  - intros k c' Hk. destruct (decide (k = ch)) as [->|Hne].
    + rewrite list_lookup_insert_eq in Hk by done. injection Hk as <-.
      by exists c.
    + rewrite list_lookup_insert_ne in Hk by done. by exists c'.
Qed.

Lemma tstep_inv q a σ t σ' t' es :
  topic_inv q σ t → tstep a (σ, t) = Ret (σ', t', es) → topic_inv q σ' t'.
Proof.
  intros Hi Hs. destruct a; simpl in Hs; inv_ret.
  - by eapply Topic_Pub_inv.
  - by eapply Topic_Sub_inv.
  - by eapply Topic_Unsub_inv.
  - by apply Topic_Close_inv.
  - by eapply run_recv_inv.
  - by eapply run_deliver_inv.
  - by eapply run_watch_inv.
  - by eapply consume_inv.
Qed.

Lemma treachable_inv q σ t : treachable q (σ, t) → topic_inv q σ t.
Proof.
  intros Hr. remember (σ, t) as s eqn:Hs. revert σ t Hs.
  induction Hr as [pd t0 _ Hn|a [σ0 t0] [σ1 t1] es Hr IH Hstep]; intros σ t [= <- <-].
  - by eapply NewTopic_inv.
  - eapply tstep_inv; [|done]. by apply IH.
Qed.

(** ** Every step of a Hub keeps its invariant *)

Lemma get_put_topic h k t k' :
  get_topic (put_topic h k t) k' =
  if decide (k = k') then Some t else get_topic h k'.
Proof.
  case_decide as Hk.
  - subst k'. destruct k; simpl; apply lookup_insert_eq.
  - destruct k as [s|p], k' as [s'|p']; simpl; try done;
      apply lookup_insert_ne; congruence.
Qed.

Lemma get_del_topic h k k' :
  get_topic (del_topic h k) k' =
  if decide (k = k') then None else get_topic h k'.
Proof.
  case_decide as Hk.
  - subst k'. destruct k; simpl; apply lookup_delete_eq.
  - destruct k as [s|p], k' as [s'|p']; simpl; try done;
      apply lookup_delete_ne; congruence.
Qed.

Lemma hub_inv_put σ h k t σ' t' :
  hub_inv σ h → slot h k t →
  topic_inv (queueSize h) σ' t' → tframe σ t σ' t' →
  done t' = done t → (hdone h = false → Topic_SubLen t' ≠ 0) →
  hub_inv σ' (put_topic h k t').
Proof.
  intros Hi Hslot Ht' Hf Hd Hlen.
  assert (Hother : ∀ k0 t0 ch, get_topic h k0 = Some t0 → k0 ≠ k →
                     ch ∈ sub_dom t0 → ch ∉ sub_dom t).
  { intros k0 t0 ch Hk0 Hne Hch Hin. destruct Hslot as [Hk|(_ & He & _)].
    - apply Hne. by eapply (hi_disj _ _ Hi k0 k).
    - set_solver. }
  assert (Hdone : done t = true ↔ hdone h = true).
  { destruct Hslot as [Hk|(_ & _ & -> & _)]; [|done]. split.
    - intros Ht. destruct (hdone h) eqn:Hh; [done|].
      destruct (hi_open _ _ Hi Hh _ _ Hk). congruence.
    - intros Hh. by eapply hi_done. }
  split.
  - destruct k; apply Hi.
  - intros k0 t0. rewrite get_put_topic. case_decide as Hk; [intros [= <-]|intros Hk0].
    + by destruct k.
    + replace (queueSize (put_topic h k t')) with (queueSize h) by (by destruct k).
      eapply topic_inv_heap; [by eapply hi_topic|].
      intros ch c Hch Hc. exists c. split; [|done].
      eapply tf_other; [done|done|]. eapply Hother; eauto.
  - intros k1 k2 t1 t2 ch. rewrite !get_put_topic.
    case_decide as H1; case_decide as H2; try congruence.
    + intros [= <-] Hk2 Hch1 Hch2.
      destruct (tf_fresh _ _ _ _ Hf _ Hch1) as [Hin|Hnone].
      * exfalso. eapply Hother; eauto.
      * apply (topic_inv_lt _ _ _ _ (hi_topic _ _ Hi _ _ Hk2)) in Hch2.
        apply lookup_ge_None in Hnone. lia.
    + intros Hk1 [= <-] Hch1 Hch2.
      destruct (tf_fresh _ _ _ _ Hf _ Hch2) as [Hin|Hnone].
      * exfalso. eapply Hother; eauto.
      * apply (topic_inv_lt _ _ _ _ (hi_topic _ _ Hi _ _ Hk1)) in Hch1.
        apply lookup_ge_None in Hnone. lia.
    + by apply (hi_disj _ _ Hi).
  - intros ch c' Hc' Ho.
    destruct (tf_live _ _ _ _ Hf _ _ Hc' Ho) as [Hin|[Hout Hc]].
    + exists k, t'. rewrite get_put_topic. by rewrite decide_True.
    + destruct (hi_live _ _ Hi _ _ Hc Ho) as (k0 & t0 & Hk0 & Hch).
      exists k0, t0. rewrite get_put_topic. split; [|done].
      rewrite decide_False; [done|]. intros <-.
      destruct Hslot as [Hk|(Hk & _)]; congruence.
  - replace (hdone (put_topic h k t')) with (hdone h) by (by destruct k).
    intros Hh k0 t0. rewrite get_put_topic.
    case_decide; [intros [= <-]|by apply (hi_done _ _ Hi)].
    rewrite Hd. by apply Hdone.
  - replace (hdone (put_topic h k t')) with (hdone h) by (by destruct k).
    intros Hh k0 t0. rewrite get_put_topic.
    case_decide; [intros [= <-]|by apply (hi_open _ _ Hi)].
    split; [|by apply Hlen]. rewrite Hd. apply not_true_is_false.
    intros Ht. apply Hdone in Ht. congruence.
  - intros p. replace (regexps (put_topic h k t')) with (regexps h) by (by destruct k).
    intros Hp. destruct (decide (k = Pattern p)) as [->|Hne].
    + destruct Hslot as [Hk|(_ & _ & _ & Hre)]; [|by apply Hre].
      apply (hi_regexps _ _ Hi). simpl in Hk. by rewrite Hk.
    + apply (hi_regexps _ _ Hi).
      change (is_Some (get_topic (put_topic h k t') (Pattern p))) in Hp.
      rewrite get_put_topic, decide_False in Hp by done. done.
Qed.

Lemma SubLen_0 t : Topic_SubLen t = 0 ↔ sub_dom t = ∅.
Proof.
  unfold Topic_SubLen, sub_dom. destruct (subChans t) as [m|]; [|done].
  rewrite map_size_empty_iff. by rewrite dom_empty_iff_L.
Qed.

Lemma hub_inv_del σ h k t σ' t' :
  hub_inv σ h → get_topic h k = Some t → tframe σ t σ' t' →
  sub_dom t' = ∅ → hub_inv σ' (del_topic h k).
Proof.
  intros Hi Hk Hf He. split.
  - destruct k; apply Hi.
  - intros k0 t0. rewrite get_del_topic. case_decide as Hne; [done|]. intros Hk0.
    replace (queueSize (del_topic h k)) with (queueSize h) by (by destruct k).
    eapply topic_inv_heap; [by eapply hi_topic|].
    intros ch c Hch Hc. exists c. split; [|done].
    eapply tf_other; [done|done|]. intros Hin. apply Hne.
    by eapply (hi_disj _ _ Hi k k0).
  - intros k1 k2 t1 t2 ch. rewrite !get_del_topic.
    repeat case_decide; try done. by apply (hi_disj _ _ Hi).
  - intros ch c' Hc' Ho.
    destruct (tf_live _ _ _ _ Hf _ _ Hc' Ho) as [Hin|[Hout Hc]]; [set_solver|].
    destruct (hi_live _ _ Hi _ _ Hc Ho) as (k0 & t0 & Hk0 & Hch).
    exists k0, t0. rewrite get_del_topic. split; [|done].
    rewrite decide_False; [done|]. intros <-. congruence.
  - replace (hdone (del_topic h k)) with (hdone h) by (by destruct k).
    intros Hh k0 t0. rewrite get_del_topic.
    case_decide; [done|by apply (hi_done _ _ Hi)].
  - replace (hdone (del_topic h k)) with (hdone h) by (by destruct k).
    intros Hh k0 t0. rewrite get_del_topic.
    case_decide; [done|by apply (hi_open _ _ Hi)].
  - intros p. replace (regexps (del_topic h k)) with (regexps h) by (by destruct k).
    intros Hp. apply (hi_regexps _ _ Hi).
    change (is_Some (get_topic (del_topic h k) (Pattern p))) in Hp.
    rewrite get_del_topic in Hp. case_decide; [by destruct Hp|done].
Qed.

Lemma hub_inv_heap σ σ' h :
  hub_inv σ h →
  (∀ k c, σ !! k = Some c →
     ∃ c', σ' !! k = Some c' ∧ closed c' = closed c ∧ cap c' = cap c) →
  (∀ k c', σ' !! k = Some c' →
     ∃ c, σ !! k = Some c ∧ closed c' = closed c ∧ cap c' = cap c) →
  hub_inv σ' h.
Proof.
  intros [] Hto Hfrom. split; try done.
  - intros k t Hk. eapply topic_inv_heap; [by eapply hi_topic0|].
    intros ch c _ Hc. by apply Hto.
  - intros ch c' Hc' Ho. destruct (Hfrom _ _ Hc') as (c & Hc & Hcl & _).
    apply (hi_live0 ch c); congruence.
Qed.

Lemma hub_inv_regexps σ h p g :
  hub_inv σ h → hub_inv σ (set_regexps h (<[p := g]> (regexps h))).
Proof.
  intros []. split; try done. simpl. intros p' Hp'.
  destruct (decide (p = p')) as [->|Hne].
  - rewrite lookup_insert_eq. by eexists.
  - rewrite lookup_insert_ne by done. by apply hi_regexps0.
Qed.

Lemma get_topic_Close h k :
  get_topic (Hub_Close h) k = Topic_Close <$> get_topic h k.
Proof. destruct k; simpl; apply lookup_fmap. Qed.

Lemma Hub_Close_inv σ h : hub_inv σ h → hub_inv σ (Hub_Close h).
Proof.
  intros Hi. split.
  - apply Hi.
  - intros k t. rewrite get_topic_Close. intros (t0 & Hk & ->)%fmap_Some.
    apply Topic_Close_inv. by eapply (hi_topic _ _ Hi).
  - intros k1 k2 t1 t2 ch. rewrite !get_topic_Close.
    intros (t1' & Hk1 & ->)%fmap_Some (t2' & Hk2 & ->)%fmap_Some Hc1 Hc2.
    exact (hi_disj _ _ Hi _ _ _ _ _ Hk1 Hk2 Hc1 Hc2).
  - intros ch c Hc Ho. destruct (hi_live _ _ Hi _ _ Hc Ho) as (k & t & Hk & Hch).
    exists k, (Topic_Close t). rewrite get_topic_Close, Hk. done.
  - intros _ k t. rewrite get_topic_Close. by intros (t0 & Hk & ->)%fmap_Some.
  - done.
  - intros p. simpl. rewrite lookup_fmap. intros Hp%fmap_is_Some.
    by apply (hi_regexps _ _ Hi).
Qed.

Lemma NewHub_inv q : (0 < q)%Z → hub_inv [] (NewHub q).
Proof.
  intros Hq.
  assert (Hnone : ∀ k, get_topic (NewHub q) k = None).
  { intros [s|p]; simpl; apply lookup_empty. }
  split.
  - done.
  - intros k t Hk. by rewrite Hnone in Hk.
  - intros k1 k2 t1 t2 ch Hk. by rewrite Hnone in Hk.
  - intros ch c Hc. by rewrite lookup_nil in Hc.
  - intros _ k t Hk. by rewrite Hnone in Hk.
  - intros _ k t Hk. by rewrite Hnone in Hk.
  - intros p. simpl. rewrite lookup_empty. by intros [? ?].
Qed.

(** *** The methods of a Hub, in terms of the Topic they delegate to *)

Lemma Hub_Sub_Ret σ h topic σ' h' ch es :
  Hub_Sub σ h topic = Ret (σ', h', ch, es) →
  ∃ t t' e, (topics h !! topic = Some t ∨
             (topics h !! topic = None ∧
              NewTopic (hdone h) (queueSize h) = Ret t)) ∧
            Topic_Sub σ t = Ret (σ', t', ch, e) ∧
            h' = put_topic h (Exact topic) t' ∧ es = blank e.
Proof.
  unfold Hub_Sub. intros (t & Ht & Hs)%obind_Ret.
  apply obind_Ret in Hs as ([[[σ1 t1] ch1] e] & Hs & [= <- <- <- <-]).
  exists t, t1, e. split; [|done].
  destruct (topics h !! topic); [left; by injection Ht as ->|by right].
Qed.

Lemma Hub_PSub_Ret σ h pattern σ' h' ch es :
  Hub_PSub σ h pattern = Ret (σ', h', ch, es) →
  ∃ t t' e h1,
    ((ptopics h !! pattern = Some t ∧ h1 = h) ∨
     (ptopics h !! pattern = None ∧
      NewTopic (hdone h) (queueSize h) = Ret t ∧
      ∃ g, MustCompile pattern = Some g ∧
           h1 = set_regexps h (<[pattern := g]> (regexps h)))) ∧
    Topic_Sub σ t = Ret (σ', t', ch, e) ∧
    h' = put_topic h1 (Pattern pattern) t' ∧ es = blank e.
Proof.
  unfold Hub_PSub. intros ([t h1] & Ht & Hs)%obind_Ret.
  apply obind_Ret in Hs as ([[[σ1 t1] ch1] e] & Hs & [= <- <- <- <-]).
  exists t, t1, e, h1. split; [|done].
  destruct (ptopics h !! pattern).
  - left. by injection Ht as -> ->.
  - right. split; [done|]. apply obind_Ret in Ht as (t0 & Hn & Hc).
    destruct (MustCompile pattern) as [g|]; [|done].
    injection Hc as -> <-. split; [done|]. by exists g.
Qed.

Lemma Hub_Unsub_Ret σ h topic ch σ' h' es :
  Hub_Unsub σ h topic ch = Ret (σ', h', es) →
  (topics h !! topic = None ∧ σ' = σ ∧ h' = h ∧ es = []) ∨
  ∃ t t' e, topics h !! topic = Some t ∧
            Topic_Unsub σ t ch = Ret (σ', t', e) ∧ es = blank e ∧
            ((Topic_SubLen t' = 0 ∧ h' = del_topic h (Exact topic)) ∨
             (Topic_SubLen t' ≠ 0 ∧ h' = put_topic h (Exact topic) t')).
Proof.
  unfold Hub_Unsub. destruct (topics h !! topic) as [t|]; [|left; naive_solver].
  intros ([[σ1 t1] e] & Hu & Hr)%obind_Ret. right. exists t, t1, e.
  case_decide; injection Hr as <- <- <-; naive_solver.
Qed.

Lemma Hub_PUnsub_Ret σ h pattern ch σ' h' es :
  Hub_PUnsub σ h pattern ch = Ret (σ', h', es) →
  (ptopics h !! pattern = None ∧ σ' = σ ∧ h' = h ∧ es = []) ∨
  ∃ t t' e, ptopics h !! pattern = Some t ∧
            Topic_Unsub σ t ch = Ret (σ', t', e) ∧ es = blank e ∧
            ((Topic_SubLen t' = 0 ∧ h' = del_topic h (Pattern pattern)) ∨
             (Topic_SubLen t' ≠ 0 ∧ h' = put_topic h (Pattern pattern) t')).
Proof.
  unfold Hub_PUnsub. destruct (ptopics h !! pattern) as [t|]; [|left; naive_solver].
  intros ([[σ1 t1] e] & Hu & Hr)%obind_Ret. right. exists t, t1, e.
  case_decide; injection Hr as <- <- <-; naive_solver.
Qed.

Lemma hub_inv_put_same σ h k t t' :
  hub_inv σ h → get_topic h k = Some t →
  topic_inv (queueSize h) σ t' → subChans t' = subChans t → done t' = done t →
  hub_inv σ (put_topic h k t').
Proof.
  intros Hi Hk Ht' Hs Hd.
  assert (Hdom : sub_dom t' = sub_dom t) by (unfold sub_dom; by rewrite Hs).
  eapply hub_inv_put; try done.
  - by left.
  - by apply tframe_refl.
  - intros Hh. unfold Topic_SubLen. rewrite Hs.
    by destruct (hi_open _ _ Hi Hh _ _ Hk).
Qed.

Lemma Pub_range_inv σ ps topic msg h h' es :
  hub_inv σ h → Pub_range ps topic msg h = Ret (h', es) → hub_inv σ h'.
Proof.
  revert h es. induction ps as [|p ps IH]; intros h es Hi Hr; simpl in Hr.
  { by injection Hr as <- _. }
  destruct (ptopics h !! p) as [t|] eqn:Hp; [|by eapply IH].
  destruct (regexps h !! p) as [g|]; [|done].
  destruct (Match g topic); [|by eapply IH].
  apply obind_Ret in Hr as ([t' e] & Hpub & Hr).
  apply obind_Ret in Hr as ([h1 es1] & Hr & [= <- _]).
  eapply IH; [|done].
  destruct (Topic_Pub_inv _ _ _ _ _ _ (hi_topic _ _ Hi (Pattern p) _ Hp) Hpub)
    as (? & ? & ? & _).
  by apply (hub_inv_put_same σ h (Pattern p) t).
Qed.

Lemma Hub_Pub_inv σ h topic msg h' es :
  hub_inv σ h → Hub_Pub h topic msg = Ret (h', es) → hub_inv σ h'.
Proof.
  intros Hi. unfold Hub_Pub. destruct (topics h !! topic) as [t|] eqn:Ht.
  - intros ([t' e] & Hpub & Hr)%obind_Ret.
    apply obind_Ret in Hr as ([h1 es1] & Hr & [= <- _]).
    eapply Pub_range_inv; [|done].
    destruct (Topic_Pub_inv _ _ _ _ _ _ (hi_topic _ _ Hi (Exact topic) _ Ht) Hpub)
      as (? & ? & ? & _).
    by apply (hub_inv_put_same σ h (Exact topic) t).
  - by intros [= <- _].
Qed.

Lemma NewTopic_slot σ h k t :
  hub_inv σ h → get_topic h k = None →
  NewTopic (hdone h) (queueSize h) = Ret t →
  (∀ p, k = Pattern p → is_Some (regexps h !! p)) →
  slot h k t ∧ topic_inv (queueSize h) σ t.
Proof.
  intros Hi Hk Hn Hre. split; [|by eapply NewTopic_inv].
  apply NewTopic_Ret in Hn as [_ ->]. right. by repeat split.
Qed.

Lemma Hub_Sub_inv σ h topic σ' h' ch es :
  hub_inv σ h → Hub_Sub σ h topic = Ret (σ', h', ch, es) → hub_inv σ' h'.
Proof.
  intros Hi (t & t' & e & Ht & Hs & -> & _)%Hub_Sub_Ret.
  assert (slot h (Exact topic) t ∧ topic_inv (queueSize h) σ t) as [Hslot Hti].
  { destruct Ht as [Ht|[Ht Hn]].
    - split; [by left|]. by apply (hi_topic _ _ Hi (Exact topic)).
    - by apply NewTopic_slot. }
  destruct (Topic_Sub_inv _ _ _ _ _ _ _ Hti Hs) as (? & ? & Hd & Hlen).
  eapply hub_inv_put; try done.
  intros Hh. apply Hlen. destruct Hslot as [Hk|(_ & _ & -> & _)]; [|done].
  by destruct (hi_open _ _ Hi Hh _ _ Hk).
Qed.

Lemma Hub_PSub_inv σ h pattern σ' h' ch es :
  hub_inv σ h → Hub_PSub σ h pattern = Ret (σ', h', ch, es) → hub_inv σ' h'.
Proof.
  intros Hi (t & t' & e & h1 & Ht & Hs & -> & _)%Hub_PSub_Ret.
  assert (hub_inv σ h1 ∧ slot h1 (Pattern pattern) t ∧
          topic_inv (queueSize h1) σ t) as (Hi1 & Hslot & Hti).
  { destruct Ht as [[Ht ->]|(Ht & Hn & g & _ & ->)].
    - split; [done|]. split; [by left|]. by apply (hi_topic _ _ Hi (Pattern pattern)).
    - split; [by apply hub_inv_regexps|].
      apply NewTopic_slot; try done.
      + by apply hub_inv_regexps.
      + intros p [= <-]. simpl. rewrite lookup_insert_eq. by eexists. }
  destruct (Topic_Sub_inv _ _ _ _ _ _ _ Hti Hs) as (? & ? & Hd & Hlen).
  eapply hub_inv_put; try done.
  intros Hh. apply Hlen. destruct Hslot as [Hk|(_ & _ & -> & _)]; [|done].
  by destruct (hi_open _ _ Hi1 Hh _ _ Hk).
Qed.

Lemma Unsub_step_inv σ h k t ch σ' t' e h' :
  hub_inv σ h → get_topic h k = Some t →
  Topic_Unsub σ t ch = Ret (σ', t', e) →
  (Topic_SubLen t' = 0 ∧ h' = del_topic h k) ∨
  (Topic_SubLen t' ≠ 0 ∧ h' = put_topic h k t') →
  hub_inv σ' h'.
Proof.
  intros Hi Hk Hu Hh'.
  destruct (Topic_Unsub_inv _ _ _ _ _ _ _ (hi_topic _ _ Hi _ _ Hk) Hu) as (? & ? & ?).
  destruct Hh' as [[Hz ->]|[Hnz ->]].
  - eapply hub_inv_del; try done. by apply SubLen_0.
  - eapply hub_inv_put; try done. by left.
Qed.

Lemma hstep_inv l σ h σ' h' :
  hub_inv σ h → hstep l (σ, h) = Ret (σ', h') → hub_inv σ' h'.
Proof.
  intros Hi Hs. destruct l as [topic msg|topic|topic ch|p|p ch| |k msg|k ks|k|k|ch];
    simpl in Hs.
  - apply obind_Ret in Hs as ([h1 es] & Hp & [= <- <-]). by eapply Hub_Pub_inv.
  - apply obind_Ret in Hs as ([[[σ1 h1] c] es] & Hp & [= <- <-]).
    by eapply Hub_Sub_inv.
  - apply obind_Ret in Hs as ([[σ1 h1] es] & Hp & [= <- <-]).
    apply Hub_Unsub_Ret in Hp as [(_ & -> & -> & _)|(t & t' & e & Ht & Hu & _ & Hh')];
      [done|].
    by eapply (Unsub_step_inv σ h (Exact topic)).
  - apply obind_Ret in Hs as ([[[σ1 h1] c] es] & Hp & [= <- <-]).
    by eapply Hub_PSub_inv.
  - apply obind_Ret in Hs as ([[σ1 h1] es] & Hp & [= <- <-]).
    apply Hub_PUnsub_Ret in Hp as [(_ & -> & -> & _)|(t & t' & e & Ht & Hu & _ & Hh')];
      [done|].
    by eapply (Unsub_step_inv σ h (Pattern p)).
  - injection Hs as <- <-. by apply Hub_Close_inv.
  - destruct (get_topic h k) as [t|] eqn:Hk; [|done].
    apply obind_Ret in Hs as ([t' e] & Hp & [= <- <-]).
    destruct (Topic_Pub_inv _ _ _ _ _ _ (hi_topic _ _ Hi _ _ Hk) Hp) as (? & ? & ? & _).
    by apply (hub_inv_put_same σ h k t).
  - destruct (get_topic h k) as [t|] eqn:Hk; [|done].
    apply obind_Ret in Hs as (t' & Hp & [= <- <-]).
    destruct (run_recv_inv _ _ _ _ _ (hi_topic _ _ Hi _ _ Hk) Hp) as (? & ? & ?).
    by apply (hub_inv_put_same σ h k t).
  - destruct (get_topic h k) as [t|] eqn:Hk; [|done].
    apply obind_Ret in Hs as ([σ1 t'] & Hp & [= <- <-]).
    destruct (run_deliver_inv _ _ _ _ _ (hi_topic _ _ Hi _ _ Hk) Hp)
      as (? & ? & Hsub & ?).
    eapply hub_inv_put; try done; [by left|].
    intros Hh. unfold Topic_SubLen. rewrite Hsub.
    by destruct (hi_open _ _ Hi Hh _ _ Hk).
  - destruct (get_topic h k) as [t|] eqn:Hk; [|done].
    apply obind_Ret in Hs as ([σ1 t'] & Hp & [= <- <-]).
    pose proof (hi_topic _ _ Hi _ _ Hk) as Hti.
    destruct (run_watch_Ret _ _ _ _ _ Hti Hp) as (Hd & _).
    destruct (run_watch_inv _ _ _ _ _ Hti Hp) as (? & ? & Hd' & _).
    apply (hub_inv_put σ h k t σ1 t'); [done|by left|done|done|congruence|].
    intros Hh. destruct (hi_open _ _ Hi Hh _ _ Hk). congruence.
  - apply obind_Ret in Hs as ([m σ1] & Hc & [= <- <-]).
    apply consume_Ret in Hc as (c & Hc & Hb & ->).
    assert (Hlt : ch < length σ) by (by eapply lookup_lt_Some).
    eapply hub_inv_heap; [done| |].
    + intros k c0 Hk. destruct (decide (k = ch)) as [->|Hne].
      * rewrite list_lookup_insert_eq by done. eexists. split; [done|].
        simplify_eq. done.
      * rewrite list_lookup_insert_ne by done. by exists c0.
    + intros k c' Hk. destruct (decide (k = ch)) as [->|Hne].
      * rewrite list_lookup_insert_eq in Hk by done. injection Hk as <-.
        by exists c.
      * rewrite list_lookup_insert_ne in Hk by done. by exists c'.
Qed.

Lemma reachable_inv σ h : reachable (σ, h) → hub_inv σ h.
Proof.
  intros Hr. remember (σ, h) as s eqn:Hs. revert σ h Hs.
  induction Hr as [q Hq|l [σ0 h0] [σ1 h1] Hr IH Hstep]; intros σ h [= <- <-].
  - by apply NewHub_inv.
  - eapply hstep_inv; [|done]. by apply IH.
Qed.

Lemma live_topic_inv q σ t : live_topic q σ t → topic_inv q σ t.
Proof.
  intros [Hr|(h & k & Hr & Hk & <-)].
  - by apply treachable_inv.
  - apply reachable_inv in Hr. by eapply hi_topic.
Qed.

(** ** Topic.Pub *)

(** C6.  On every Topic in use, [Pub(msg)] returns [ErrTopicAlreadyClosed]
    exactly when the context of the Topic is cancelled at the call, and then
    leaves the Topic (its intake queue included) as it was; otherwise it
    appends [msg] to the intake queue and returns nil, or blocks when the
    queue is full.  It never panics. *)
Theorem Topic_Pub_closed_iff_cancelled q σ t msg :
  live_topic q σ t →
  Topic_Pub t msg =
    (if done t then Ret (t, Some ErrTopicAlreadyClosed)
     else if (Z.of_nat (length (buf (pubChan t))) <? q)%Z
          then Ret (set_pubChan t (Chan (buf (pubChan t) ++ [msg]) q false), None)
          else Block)
  ∧ (∀ t' e, Topic_Pub t msg = Ret (t', e) →
       (e = Some ErrTopicAlreadyClosed ↔ done t = true) ∧
       (e = Some ErrTopicAlreadyClosed → t' = t) ∧
       (e = None → buf (pubChan t') = buf (pubChan t) ++ [msg])).
Proof.
  intros Hi%live_topic_inv. split.
  - unfold Topic_Pub, chan_send. destruct (done t) eqn:Hd; [done|].
    rewrite (ti_done _ _ _ Hi Hd), (ti_cap _ _ _ Hi).
    by destruct (Z.of_nat (length (buf (pubChan t))) <? q)%Z.
  - intros t' e [(Hd & -> & ->)|(Hd & _ & _ & -> & ->)]%Topic_Pub_Ret.
    + by rewrite Hd.
    + rewrite Hd. split; [done|]. split; done.
Qed.

(** ** Topic.Sub *)

(** C8.  On every Topic in use created with queue size [q] whose context is
    not cancelled, [Sub()] (once it holds the lock) allocates a fresh open
    channel of capacity [q] -- the capacity of the intake queue --,
    registers it under its own address and returns it; on a cancelled Topic
    it returns [ErrTopicAlreadyClosed] and changes nothing. *)
Theorem Topic_Sub_allocates_queue q σ t :
  live_topic q σ t →
  cap (pubChan t) = q ∧
  Topic_Sub σ t =
    (if done t then Ret (σ, t, None, Some ErrTopicAlreadyClosed)
     else match bcast t with
          | Some _ => Block
          | None =>
              Ret (σ ++ [Chan [] q false],
                   set_subChans t
                     (Some (<[length σ := length σ]> (default ∅ (subChans t)))),
                   Some (length σ), None)
          end)
  ∧ (done t = false → is_Some (subChans t) ∧ length σ ∉ sub_dom t).
Proof.
  intros Hi%live_topic_inv. split; [by apply (ti_cap _ _ _ Hi)|].
  assert (Hsome : done t = false → is_Some (subChans t) ∧ length σ ∉ sub_dom t).
  { intros Hd. split.
    - destruct (subChans t) eqn:Hs; [by eexists|].
      apply (ti_watch _ _ _ Hi) in Hs. rewrite (ti_done _ _ _ Hi Hd) in Hs. done.
    - intros Hin%(topic_inv_lt _ _ _ _ Hi). lia. }
  split; [|done].
  unfold Topic_Sub. destruct (done t) eqn:Hd; [done|].
  destruct (bcast t); [done|].
  destruct (Hsome eq_refl) as [[m Hm] _]. rewrite Hm. simpl.
  pose proof (ti_q _ _ _ Hi) as Hq.
  unfold heap_make, make_chan. rewrite (ti_cap _ _ _ Hi).
  destruct (Z.ltb_spec q 0); [lia|]. done.
Qed.

(** ** Topic.Unsub *)

Lemma Topic_Unsub_absent_panics σ t ch :
  done t = false → bcast t = None → sub_lookup t ch = None →
  Topic_Unsub σ t ch = Panic.
Proof.
  intros Hd Hb Hl. unfold Topic_Unsub, Topic_unsub. by rewrite Hd, Hb, Hl.
Qed.

(** ** Hub.Pub *)

Lemma Hub_Pub_unregistered h topic msg :
  topics h !! topic = None → Hub_Pub h topic msg = Ret (h, []).
Proof. intros Ht. unfold Hub_Pub. by rewrite Ht. Qed.

(** ** Hub.Sub and Hub.PSub on a closed Hub *)

(** C10.  Once the context of the Hub is cancelled, [Sub] (resp. [PSub]) on
    an unregistered key returns the nil channel, the
    [ErrTopicAlreadyClosed] of [Topic.Sub] going to the blank identifier,
    allocates no channel, and the registry it leaves has one key more: under
    the key there is a new Topic that is born cancelled, with an empty open
    intake queue of the size of the Hub and the empty subscriber map (its
    [SubLen] is 0).  Every other entry of the registries is as before;
    [PSub] also stores the compiled matcher under the pattern. *)
Theorem Sub_on_closed_Hub_registers_dead_Topic σ h topic pattern g :
  hdone h = true → (0 ≤ queueSize h)%Z →
  topics h !! topic = None →
  ptopics h !! pattern = None → MustCompile pattern = Some g →
  let dead := Topic (Chan [] (queueSize h) false) (Some ∅) true None in
  (done dead = true ∧ sub_dom dead = ∅ ∧ Topic_SubLen dead = 0) ∧
  (∃ h', Hub_Sub σ h topic = Ret (σ, h', None, [ErrTopicAlreadyClosed]) ∧
         topics h' !! topic = Some dead ∧
         dom (topics h') = {[topic]} ∪ dom (topics h) ∧
         (∀ s, s ≠ topic → topics h' !! s = topics h !! s) ∧
         ptopics h' = ptopics h ∧ regexps h' = regexps h ∧
         hdone h' = true ∧ queueSize h' = queueSize h) ∧
  (∃ h', Hub_PSub σ h pattern = Ret (σ, h', None, [ErrTopicAlreadyClosed]) ∧
         ptopics h' !! pattern = Some dead ∧
         regexps h' !! pattern = Some g ∧
         dom (ptopics h') = {[pattern]} ∪ dom (ptopics h) ∧
         (∀ p, p ≠ pattern → ptopics h' !! p = ptopics h !! p ∧
                              regexps h' !! p = regexps h !! p) ∧
         topics h' = topics h ∧
         hdone h' = true ∧ queueSize h' = queueSize h).
Proof.
  intros Hd Hq Ht Hp Hg dead.
  assert (Hn : NewTopic (hdone h) (queueSize h) = Ret dead).
  { apply NewTopic_Ret. split; [done|]. unfold dead. by rewrite Hd. }
  assert (Hs : Topic_Sub σ dead = Ret (σ, dead, None, Some ErrTopicAlreadyClosed)).
  { apply Topic_Sub_Ret. by left. }
  split; [done|]. clearbody dead. split.
  - exists (Hub (queueSize h) (<[topic := dead]> (topics h)) (ptopics h)
                (regexps h) (hdone h)).
    split; [|split_and!; simpl; try done].
    + unfold Hub_Sub. rewrite Ht, Hn. simpl. rewrite Hs. done.
    + apply lookup_insert_eq.
    + apply dom_insert_L.
    + intros s Hne. by apply lookup_insert_ne.
  - exists (Hub (queueSize h) (topics h) (<[pattern := dead]> (ptopics h))
                (<[pattern := g]> (regexps h)) (hdone h)).
    split; [|split_and!; simpl; try done].
    + unfold Hub_PSub. rewrite Hp, Hn. simpl. rewrite Hg. simpl. rewrite Hs. done.
    + apply lookup_insert_eq.
    + apply lookup_insert_eq.
    + apply dom_insert_L.
    + intros p Hne. split; by apply lookup_insert_ne.
Qed.

(** ** The registry and the subscribers *)


(** ** Errors of the Topic inside the Hub *)

Lemma blank_nil e : blank e = [] ↔ e = None.
Proof. destruct e; naive_solver. Qed.

Lemma Pub_range_blank σ ps topic msg h h' es :
  hub_inv σ h → hdone h = false →
  Pub_range ps topic msg h = Ret (h', es) → es = [].
Proof.
  revert h es. induction ps as [|p ps IH]; intros h es Hi Hd Hr; simpl in Hr.
  { by injection Hr as _ <-. }
  destruct (ptopics h !! p) as [t|] eqn:Hp; [|by eapply IH].
  destruct (regexps h !! p) as [g|]; [|done].
  destruct (Match g topic); [|by eapply IH].
  apply obind_Ret in Hr as ([t' e] & Hpub & Hr).
  apply obind_Ret in Hr as ([h1 es1] & Hr & [= <- <-]).
  pose proof (hi_topic _ _ Hi (Pattern p) _ Hp) as Hti.
  destruct (Topic_Pub_inv _ _ _ _ _ _ Hti Hpub) as (? & ? & ? & _).
  apply IH in Hr as ->; [| |done].
  - destruct (hi_open _ _ Hi Hd (Pattern p) _ Hp) as [Hnd _].
    apply Topic_Pub_Ret in Hpub as [(? & _)|(_ & _ & _ & _ & ->)]; [congruence|done].
  - by apply (hub_inv_put_same σ h (Pattern p) t).
Qed.

Lemma Hub_Pub_blank σ h topic msg h' es :
  hub_inv σ h → hdone h = false →
  Hub_Pub h topic msg = Ret (h', es) → es = [].
Proof.
  intros Hi Hd. unfold Hub_Pub. destruct (topics h !! topic) as [t|] eqn:Ht.
  - intros ([t' e] & Hpub & Hr)%obind_Ret.
    apply obind_Ret in Hr as ([h1 es1] & Hr & [= <- <-]).
    pose proof (hi_topic _ _ Hi (Exact topic) _ Ht) as Hti.
    destruct (Topic_Pub_inv _ _ _ _ _ _ Hti Hpub) as (? & ? & ? & _).
    eapply (Pub_range_blank σ) in Hr as ->; [| |done].
    + destruct (hi_open _ _ Hi Hd (Exact topic) _ Ht) as [Hnd _].
      apply Topic_Pub_Ret in Hpub as [(? & _)|(_ & _ & _ & _ & ->)]; [congruence|done].
    + by apply (hub_inv_put_same σ h (Exact topic) t).
  - by intros [= _ <-].
Qed.

Lemma Topic_Sub_blank σ t σ' t' ch e :
  Topic_Sub σ t = Ret (σ', t', ch, e) →
  (ch = None ↔ blank e ≠ []) ∧ (blank e ≠ [] → done t = true).
Proof.
  intros [(Hd & _ & _ & -> & ->)|(Hd & _ & _ & m & _ & _ & _ & -> & ->)]%Topic_Sub_Ret;
    simpl; naive_solver.
Qed.

Lemma Topic_Unsub_blank σ t c σ' t' e :
  Topic_Unsub σ t c = Ret (σ', t', e) → blank e ≠ [] → done t = true.
Proof.
  intros [(Hd & _)|(_ & _ & -> & _)]%Topic_Unsub_Ret; [done|]. by simpl.
Qed.

(** C5 (as amended).  No method of the Hub returns an error.  An
    [ErrTopicAlreadyClosed] of the Topic it delegates to is assigned to the
    blank identifier; this happens only once the Hub has been closed, and
    the caller can tell only from the nil channel that [Sub] and [PSub]
    return exactly in that case. *)
Theorem Hub_discards_Topic_errors σ h :
  reachable (σ, h) →
  (∀ topic σ' h' ch es, Hub_Sub σ h topic = Ret (σ', h', ch, es) →
     (ch = None ↔ es ≠ []) ∧ (es ≠ [] → hdone h = true)) ∧
  (∀ pattern σ' h' ch es, Hub_PSub σ h pattern = Ret (σ', h', ch, es) →
     (ch = None ↔ es ≠ []) ∧ (es ≠ [] → hdone h = true)) ∧
  (∀ topic c σ' h' es, Hub_Unsub σ h topic c = Ret (σ', h', es) →
     es ≠ [] → hdone h = true) ∧
  (∀ pattern c σ' h' es, Hub_PUnsub σ h pattern c = Ret (σ', h', es) →
     es ≠ [] → hdone h = true) ∧
  (∀ topic msg h' es, Hub_Pub h topic msg = Ret (h', es) →
     es ≠ [] → hdone h = true).
Proof.
  intros Hi%reachable_inv.
  assert (Hreg : ∀ k t, get_topic h k = Some t → done t = true → hdone h = true).
  { intros k t Hk Hd. destruct (hdone h) eqn:Hh; [done|].
    destruct (hi_open _ _ Hi Hh _ _ Hk). congruence. }
  split; [|split; [|split; [|split]]].
  - intros topic σ' h' ch es (t & t' & e & Ht & Hs & _ & ->)%Hub_Sub_Ret.
    destruct (Topic_Sub_blank _ _ _ _ _ _ Hs) as [Hnil Hd]. split; [done|].
    intros Hd'%Hd. destruct Ht as [Ht|[_ [_ ->]%NewTopic_Ret]]; [|done].
    by apply (Hreg (Exact topic) t).
  - intros p σ' h' ch es (t & t' & e & h1 & Ht & Hs & _ & ->)%Hub_PSub_Ret.
    destruct (Topic_Sub_blank _ _ _ _ _ _ Hs) as [Hnil Hd]. split; [done|].
    intros Hd'%Hd. destruct Ht as [[Ht _]|(_ & [_ ->]%NewTopic_Ret & _)]; [|done].
    by apply (Hreg (Pattern p) t).
  - intros topic c σ' h' es
      [(_ & _ & _ & ->)|(t & t' & e & Ht & Hu & -> & _)]%Hub_Unsub_Ret; [done|].
    intros Hd%(Topic_Unsub_blank _ _ _ _ _ _ Hu). by apply (Hreg (Exact topic) t).
  - intros p c σ' h' es
      [(_ & _ & _ & ->)|(t & t' & e & Ht & Hu & -> & _)]%Hub_PUnsub_Ret; [done|].
    intros Hd%(Topic_Unsub_blank _ _ _ _ _ _ Hu). by apply (Hreg (Pattern p) t).
  - intros topic msg h' es Hp Hes. destruct (hdone h) eqn:Hh; [done|].
    by apply (Hub_Pub_blank σ) in Hp.
Qed.

(** ** After Hub.Close *)

Lemma registry_work_insert (m : gmap string topic) k t t' :
  m !! k = Some t →
  registry_work (<[k := t']> m) + topic_work t = registry_work m + topic_work t'.
Proof.
  intros Hk. unfold registry_work.
  rewrite <-(map_to_list_delete m k t Hk), <-insert_delete_eq.
  rewrite map_to_list_insert by apply lookup_delete_eq. simpl. lia.
Qed.

Lemma heap_work_insert σ i c c' :
  σ !! i = Some c →
  heap_work (<[i := c']> σ) + length (buf c) = heap_work σ + length (buf c').
Proof.
  unfold heap_work. revert i. induction σ as [|c0 σ IH]; intros [|i] Hi; simplify_eq/=.
  - lia.
  - specialize (IH _ Hi). lia.
Qed.

Lemma heap_work_ext σ σ' :
  length σ' = length σ → (∀ i, buf <$> σ' !! i = buf <$> σ !! i) →
  heap_work σ' = heap_work σ.
Proof.
  unfold heap_work. revert σ'. induction σ as [|c σ IH]; intros [|c' σ'] Hl Hb;
    simplify_eq/=; [done|].
  pose proof (Hb 0) as H0. simpl in H0. injection H0 as ->.
  f_equal. apply IH; [done|]. intros i. apply (Hb (S i)).
Qed.

Lemma work_put σ h k t σ' t' :
  get_topic h k = Some t →
  work (σ', put_topic h k t') + topic_work t + heap_work σ =
  work (σ, h) + topic_work t' + heap_work σ'.
Proof.
  intros Hk. unfold work. destruct k as [s|p]; simpl in *.
  - pose proof (registry_work_insert _ _ _ t' Hk). lia.
  - pose proof (registry_work_insert _ _ _ t' Hk). lia.
Qed.

Lemma range_order_length t ks :
  range_order t ks = true → length ks = Topic_SubLen t.
Proof.
  intros [Hnd Hks]%range_order_spec.
  rewrite <-(size_list_to_set (C:=gset nat)) by done. rewrite Hks.
  unfold sub_dom, Topic_SubLen. destruct (subChans t); [apply size_dom|done].
Qed.

Lemma pending_length (msg : Msg) rest :
  length (from_option snd [] (pending msg rest)) = length rest.
Proof. by destruct rest. Qed.

(** Every step of a goroutine or of a subscriber uses up work. *)
Lemma internal_step_work l σ h σ' h' :
  hub_inv σ h → internal l = true → hstep l (σ, h) = Ret (σ', h') →
  work (σ', h') < work (σ, h).
Proof.
  intros Hi Hl Hs. destruct l as [| | | | | | |k ks|k|k|ch]; try done; simpl in Hs.
  - destruct (get_topic h k) as [t|] eqn:Hk; [|done].
    apply obind_Ret in Hs as (t' & Hp & [= <- <-]).
    pose proof (hi_topic _ _ Hi _ _ Hk) as Hti.
    pose proof (work_put σ h k t σ t' Hk) as Hw.
    apply run_recv_Ret in Hp as (msg & Hb & Ho & Hbuf & ->).
    enough (topic_work
              (set_bcast (set_pubChan t (Chan (drop 1 (buf (pubChan t)))
                 (cap (pubChan t)) (closed (pubChan t))))
                 (pending msg (range_values t ks))) < topic_work t) by lia.
    rewrite (range_values_keys _ σ) by
      (done || apply range_order_spec in Ho as [_ Hks]; set_solver).
    assert (Hlen : length (buf (pubChan t))
                   = S (length (drop 1 (buf (pubChan t)))))
      by (by rewrite Hbuf at 1).
    unfold topic_work. simpl. rewrite pending_length, Hb, Hlen.
    rewrite (range_order_length _ _ Ho).
    change (Topic_SubLen (set_bcast _ _)) with (Topic_SubLen t). simpl. lia.
  - destruct (get_topic h k) as [t|] eqn:Hk; [|done].
    apply obind_Ret in Hs as ([σ1 t'] & Hp & [= <- <-]).
    pose proof (work_put σ h k t σ1 t' Hk) as Hw.
    apply run_deliver_Ret in Hp as (msg & c0 & rest & c & Hb & Hc & Ho & Hroom & -> & ->).
    pose proof (heap_work_insert σ c0 c (Chan (buf c ++ [msg]) (cap c) false) Hc) as Hh.
    simpl in Hh. rewrite length_app in Hh. simpl in Hh.
    assert (topic_work (set_bcast t (pending msg rest)) + 2 = topic_work t).
    { unfold topic_work. simpl. rewrite pending_length, Hb.
      change (Topic_SubLen (set_bcast _ _)) with (Topic_SubLen t). simpl. lia. }
    lia.
  - destruct (get_topic h k) as [t|] eqn:Hk; [|done].
    apply obind_Ret in Hs as ([σ1 t'] & Hp & [= <- <-]).
    pose proof (hi_topic _ _ Hi _ _ Hk) as Hti.
    pose proof (work_put σ h k t σ1 t' Hk) as Hw.
    destruct (run_watch_Ret _ _ _ _ _ Hti Hp) as (Hd & Hc & Hb & -> & Hlen & Hout & Hin).
    assert (heap_work σ1 = heap_work σ) as Hh.
    { apply heap_work_ext; [done|]. intros i.
      destruct (decide (i ∈ sub_dom t)) as [Hi'|Hi'].
      - rewrite Hin by done. by destruct (σ !! i).
      - by rewrite Hout. }
    assert (topic_work (set_subChans (set_pubChan t (closed_chan (pubChan t))) None)
            < topic_work t).
    { unfold topic_work, Topic_SubLen. simpl. rewrite Hb, Hc. simpl.
      destruct (subChans t); lia. }
    lia.
  - apply obind_Ret in Hs as ([m σ1] & Hc & [= <- <-]).
    apply consume_Ret in Hc as (c & Hc & Hb & ->). unfold work. simpl.
    pose proof (heap_work_insert σ ch c
                  (Chan (drop 1 (buf c)) (cap c) (closed c)) Hc) as Hh.
    simpl in Hh.
    assert (length (buf c) = S (length (drop 1 (buf c)))) by (by rewrite Hb at 1).
    lia.
Qed.

Lemma hrun_inv ls σ h σ' h' :
  hub_inv σ h → hrun ls (σ, h) = Ret (σ', h') → hub_inv σ' h'.
Proof.
  revert σ h. induction ls as [|l ls IH]; intros σ h Hi Hr; simpl in Hr.
  { by injection Hr as <- <-. }
  apply obind_Ret in Hr as ([σ1 h1] & Hs & Hr).
  eapply IH; [|done]. by eapply hstep_inv.
Qed.

Lemma hrun_reachable ls s s' :
  reachable s → hrun ls s = Ret s' → reachable s'.
Proof.
  revert s. induction ls as [|l ls IH]; intros s Hs Hr; simpl in Hr.
  { by injection Hr as <-. }
  apply obind_Ret in Hr as (s1 & Hstep & Hr).
  eapply IH; [|done]. by eapply reachable_step.
Qed.

Lemma internal_step_hdone l σ h σ' h' :
  internal l = true → hstep l (σ, h) = Ret (σ', h') → hdone h' = hdone h.
Proof.
  intros Hl Hs. destruct l as [| | | | | | |k ks|k|k|ch]; try done; simpl in Hs;
    try (destruct (get_topic h k) as [t|]; [|done]);
    apply obind_Ret in Hs as (x & _ & Hs);
    try destruct x; injection Hs as <- <-; try done; by destruct k.
Qed.

(** A run of the goroutines and subscribers is no longer than the work. *)
Lemma internal_run_work ls σ h σ' h' :
  hub_inv σ h → Forall (λ l, internal l = true) ls →
  hrun ls (σ, h) = Ret (σ', h') →
  work (σ', h') + length ls ≤ work (σ, h) ∧ hdone h' = hdone h.
Proof.
  revert σ h. induction ls as [|l ls IH]; intros σ h Hi Hls Hr; simpl in Hr.
  { injection Hr as <- <-. simpl. split; [lia|done]. }
  apply Forall_cons in Hls as [Hl Hls].
  apply obind_Ret in Hr as ([σ1 h1] & Hs & Hr).
  pose proof (internal_step_work _ _ _ _ _ Hi Hl Hs).
  pose proof (internal_step_hdone _ _ _ _ _ Hl Hs) as Hd.
  apply IH in Hr as [Hw Hd']; [|by eapply hstep_inv|done].
  simpl. split; [lia|congruence].
Qed.

(** On a closed Hub, as long as a subscriber channel is open, a goroutine
    or a subscriber can take a step. *)
Lemma closed_hub_progress σ h ch c :
  hub_inv σ h → hdone h = true → σ !! ch = Some c → closed c = false →
  ∃ l s', internal l = true ∧ hstep l (σ, h) = Ret s'.
Proof.
  intros Hi Hd Hc Ho.
  destruct (hi_live _ _ Hi _ _ Hc Ho) as (k & t & Hk & Hch).
  pose proof (hi_topic _ _ Hi _ _ Hk) as Hti.
  pose proof (hi_done _ _ Hi Hd _ _ Hk) as Htd.
  assert (Hpo : closed (pubChan t) = false).
  { destruct (closed (pubChan t)) eqn:Hcl; [|done].
    apply (ti_watch _ _ _ Hti) in Hcl. unfold sub_dom in Hch.
    rewrite Hcl in Hch. set_solver. }
  destruct (bcast t) as [[msg rest]|] eqn:Hb.
  - destruct (ti_bcast _ _ _ Hti _ _ Hb) as (Hne & _ & Hin).
    destruct rest as [|c0 rest]; [done|].
    destruct (topic_inv_lookup _ _ _ c0 Hti) as (_ & cc & Hcc & Hco & Hcq);
      [apply Hin; set_solver|].
    destruct (decide (Z.of_nat (length (buf cc)) < cap cc)%Z) as [Hroom|Hfull].
    + exists (LDeliver k). eexists. split; [done|]. simpl. rewrite Hk.
      assert (Hrd : run_deliver σ t
                    = Ret (<[c0 := Chan (buf cc ++ [msg]) (cap cc) false]> σ,
                           set_bcast t (pending msg rest))).
      { apply run_deliver_Ret. by exists msg, c0, rest, cc. }
      rewrite Hrd. done.
    + exists (LConsume c0). pose proof (hi_q _ _ Hi) as Hq.
      destruct (buf cc) as [|m b] eqn:Hbuf; [simpl in Hfull; lia|].
      eexists. split; [done|]. simpl.
      assert (Hcs : consume σ c0
                    = Ret (m, <[c0 := Chan (drop 1 (buf cc)) (cap cc) (closed cc)]> σ)).
      { apply consume_Ret. exists cc. by rewrite Hbuf. }
      rewrite Hcs. done.
  - exists (LWatch k).
    destruct (sub_keys_spec t) as [Hnd Hkeys].
    destruct (unsub_range_total (sub_keys t) σ
                (set_pubChan t (closed_chan (pubChan t)))) as [[σ1 t1] Hu].
    + done.
    + intros k0 Hk0%Hkeys. by destruct (topic_inv_lookup _ _ _ k0 Hti Hk0).
    + intros k0 Hk0%Hkeys.
      destruct (topic_inv_lookup _ _ _ k0 Hti Hk0) as (_ & c0 & ? & ? & _).
      by exists c0.
    + eexists. split; [done|]. simpl. rewrite Hk.
      unfold run_watch, Topic_unsubAll, chan_close. rewrite Htd, Hpo, Hb. simpl.
      rewrite Hb. change (sub_keys (set_pubChan t _)) with (sub_keys t).
      unfold closed_chan in Hu. rewrite Hu. done.
Qed.

Lemma set_ptopics_id h : set_ptopics h (ptopics h) = h.
Proof. by destruct h. Qed.

Lemma set_topics_id h : set_topics h (topics h) = h.
Proof. by destruct h. Qed.

Lemma Pub_range_closed σ ps topic msg h :
  hub_inv σ h → hdone h = true →
  ∃ es, Pub_range ps topic msg h = Ret (h, es).
Proof.
  intros Hi Hd. induction ps as [|p ps [es IH]]; simpl; [by eexists|].
  destruct (ptopics h !! p) as [t|] eqn:Hp; [|by exists es].
  destruct (hi_regexps _ _ Hi p) as [g Hg]; [by rewrite Hp|]. rewrite Hg.
  destruct (Match g topic); [|by exists es].
  unfold Topic_Pub. rewrite (hi_done _ _ Hi Hd (Pattern p) t Hp). simpl.
  rewrite insert_id, set_ptopics_id, IH by done. simpl. by eexists.
Qed.

Lemma Hub_Pub_closed σ h topic msg :
  hub_inv σ h → hdone h = true →
  ∃ es, Hub_Pub h topic msg = Ret (h, es).
Proof.
  intros Hi Hd. unfold Hub_Pub.
  destruct (topics h !! topic) as [t|] eqn:Ht; [|by eexists].
  unfold Topic_Pub. rewrite (hi_done _ _ Hi Hd (Exact topic) t Ht). simpl.
  rewrite insert_id, set_topics_id by done.
  destruct (Pub_range_closed σ (map_to_list (ptopics h)).*1 topic msg h Hi Hd)
    as [es ->].
  simpl. by eexists.
Qed.

Lemma NewTopic_closed h :
  (0 < queueSize h)%Z → hdone h = true →
  NewTopic (hdone h) (queueSize h) = Ret (dead_topic (queueSize h)).
Proof.
  intros Hq ->. apply NewTopic_Ret. split; [lia|done].
Qed.


(** ** Delivery to a subscriber *)

Lemma published_app log es : published (log ++ es) = published log ++ published es.
Proof. apply omap_app. Qed.

Lemma observed_app ch log es :
  observed ch (log ++ es) = observed ch log ++ observed ch es.
Proof. apply omap_app. Qed.

Lemma in_flight_None t ch : bcast t = None → in_flight t ch = [].
Proof. unfold in_flight. by intros ->. Qed.

Lemma in_flight_pending t msg rest ch :
  in_flight (set_bcast t (pending msg rest)) ch
  = if decide (ch ∈ rest) then [msg] else [].
Proof.
  unfold in_flight. destruct rest as [|c0 rest]; simpl; [|done].
  first [done | case_decide; [set_solver|done]].
Qed.

Lemma stream_log ch σ log es :
  observed ch es = [] → stream ch σ (log ++ es) = stream ch σ log.
Proof. intros He. unfold stream. by rewrite observed_app, He, app_nil_r. Qed.

Lemma stream_heap ch σ σ' log :
  buf <$> σ' !! ch = buf <$> σ !! ch → stream ch σ' log = stream ch σ log.
Proof.
  intros Hb. unfold stream. f_equal.
  destruct (σ' !! ch), (σ !! ch); simpl in *; congruence.
Qed.

Lemma ended_heap ch σ σ' :
  closed <$> σ' !! ch = closed <$> σ !! ch → ended ch σ → ended ch σ'.
Proof.
  intros Hc (c & Hch & Hcl). rewrite Hch in Hc. simpl in Hc.
  destruct (σ' !! ch) as [c'|] eqn:Hch'; simpl in Hc; [|done].
  exists c'. split; [done|]. congruence.
Qed.

Lemma stream_insert_ne ch x c' σ log :
  x ≠ ch → stream ch (<[x := c']> σ) log = stream ch σ log.
Proof. intros Hne. apply stream_heap. by rewrite list_lookup_insert_ne. Qed.

Lemma ended_insert_ne ch x c' σ :
  x ≠ ch → ended ch σ → ended ch (<[x := c']> σ).
Proof. intros Hne. apply ended_heap. by rewrite list_lookup_insert_ne. Qed.

(** One step of a Topic, seen from the subscriber of [ch]: while [ch] is
    registered, what the step publishes enters the pipeline at its end and
    nothing else changes in it; the step that takes [ch] out of the Topic
    closes its stream and keeps what it holds; after that the stream only
    passes to the subscriber what it holds. *)
Lemma stream_step q ch a σ t log σ' t' es :
  topic_inv q σ t → ch < length σ →
  tstep a (σ, t) = Ret (σ', t', es) →
  ch < length σ' ∧
  (ch ∈ sub_dom t →
     (ch ∈ sub_dom t' ∧
      pipeline ch σ' t' (log ++ es) = pipeline ch σ t log ++ published es) ∨
     ((ch ∉ sub_dom t') ∧ ended ch σ' ∧
      stream ch σ' (log ++ es) = stream ch σ log ∧
      in_flight t ch = [] ∧ published es = [])) ∧
  (ch ∉ sub_dom t →
     (ch ∉ sub_dom t') ∧ stream ch σ' (log ++ es) = stream ch σ log ∧
     (ended ch σ → ended ch σ')).
Proof.
  intros Hti Hlt Hs.
  destruct a as [msg| |x| |ks| | |x]; simpl in Hs.
  - (* Pub *)
    apply obind_Ret in Hs as ([t1 e] & Hp & [= <- <- <-]).
    apply Topic_Pub_Ret in Hp as [(_ & -> & ->)|(_ & _ & _ & -> & ->)].
    + rewrite app_nil_r. split; [done|]. split.
      * intros Hin. left. split; [done|]. simpl. by rewrite app_nil_r.
      * intros Hout. done.
    + split; [done|]. split.
      * intros Hin. left. split; [done|]. unfold pipeline. simpl.
        rewrite stream_log by done.
        change (in_flight (set_pubChan t _) ch) with (in_flight t ch).
        by rewrite <-!app_assoc.
      * intros Hout. split; [done|]. by rewrite stream_log.
  - (* Sub *)
    apply obind_Ret in Hs as ([[[σ1 t1] c1] e] & Hp & [= <- <- <-]).
    apply Topic_Sub_Ret in Hp
      as [(_ & -> & -> & -> & _)|(_ & Hb & _ & m & Hm & -> & -> & -> & _)].
    + rewrite app_nil_r. split; [done|]. split.
      * intros Hin. left. split; [done|]. simpl. by rewrite app_nil_r.
      * intros Hout. done.
    + assert (Hdom : ch ∈ sub_dom (set_subChans t (Some (<[length σ := length σ]> m)))
                     ↔ ch ∈ sub_dom t).
      { unfold sub_dom. simpl. rewrite Hm, dom_insert.
        split; [|set_solver]. intros [Heq%elem_of_singleton|?]%elem_of_union;
          [lia|done]. }
      assert (Hst : stream ch (σ ++ [Chan [] (cap (pubChan t)) false])
                      (log ++ [Subscribed (length σ)]) = stream ch σ log).
      { rewrite stream_log by done. apply stream_heap.
        by rewrite lookup_app_l. }
      split; [rewrite length_app; simpl; lia|]. split.
      * intros Hin. left. split; [by apply Hdom|]. unfold pipeline.
        rewrite Hst. simpl. rewrite app_nil_r.
        by change (in_flight (set_subChans t _) ch) with (in_flight t ch).
      * intros Hout. split; [by rewrite Hdom|]. split; [done|].
        apply ended_heap. by rewrite lookup_app_l.
  - (* Unsub *)
    apply obind_Ret in Hs as ([[σ1 t1] e] & Hp & [= <- <- <-]).
    apply Topic_Unsub_Ret in Hp as [(_ & -> & -> & ->)|(_ & Hb & -> & Hu)].
    + rewrite app_nil_r. split; [done|]. split.
      * intros Hin. left. split; [done|]. simpl. by rewrite app_nil_r.
      * intros Hout. done.
    + apply Topic_unsub_Ret in Hu as (k & v & c & m & -> & Hm & Hk & Hv & Ho & -> & ->).
      destruct (ti_subs _ _ _ Hti _ _ _ Hm Hk) as [-> _].
      assert (Hdom : ∀ i, i ∈ sub_dom (set_subChans t (Some (delete k m)))
                          ↔ i ∈ sub_dom t ∧ i ≠ k).
      { intros i. unfold sub_dom. simpl. rewrite Hm, dom_delete. set_solver. }
      split; [by rewrite length_insert|].
      destruct (decide (ch = k)) as [->|Hne].
      * split.
        -- intros Hin. right. split; [rewrite Hdom; tauto|]. split.
           { exists (Chan (buf c) (cap c) true). split; [|done].
             by apply list_lookup_insert_eq. }
           split; [|split; [by apply in_flight_None|done]].
           rewrite stream_log by done. apply stream_heap.
           rewrite list_lookup_insert_eq by done. by rewrite Hv.
        -- intros Hout. exfalso. apply Hout. apply elem_of_sub_dom. by exists m, k.
      * assert (Hst : stream ch (<[k := Chan (buf c) (cap c) true]> σ)
                        (log ++ [Unsubscribed k]) = stream ch σ log).
        { rewrite stream_log by done. apply stream_heap.
          by rewrite list_lookup_insert_ne. }
        split.
        -- intros Hin. left. split; [by apply Hdom|]. unfold pipeline.
           rewrite Hst. simpl. rewrite app_nil_r.
           by change (in_flight (set_subChans t _) ch) with (in_flight t ch).
        -- intros Hout. split; [rewrite Hdom; tauto|]. split; [done|].
           apply ended_heap. by rewrite list_lookup_insert_ne.
  - (* Close *)
    injection Hs as <- <- <-. rewrite app_nil_r. split; [done|]. split.
    + intros Hin. left. split; [done|]. simpl. by rewrite app_nil_r.
    + intros Hout. done.
  - (* the loop takes a message *)
    apply obind_Ret in Hs as (t1 & Hp & [= <- <- <-]).
    apply run_recv_Ret in Hp as (msg & Hb & Ho & Hbuf & ->).
    apply range_order_spec in Ho as [Hnd Hks].
    rewrite (range_values_keys q σ) by (done || set_solver).
    rewrite app_nil_r. split; [done|]. split.
    + intros Hin. left. split; [done|]. unfold pipeline.
      rewrite in_flight_pending, decide_True by set_solver.
      rewrite (in_flight_None t) by done. simpl. rewrite app_nil_r.
      by rewrite Hbuf at 2.
    + intros Hout. done.
  - (* one send of pub *)
    apply obind_Ret in Hs as ([σ1 t1] & Hp & [= <- <- <-]).
    apply run_deliver_Ret in Hp
      as (msg & c0 & rest & c & Hb & Hc & Ho & Hroom & -> & ->).
    destruct (ti_bcast _ _ _ Hti _ _ Hb) as (_ & Hnd & Hin0).
    apply NoDup_cons in Hnd as [Hc0 Hnd].
    rewrite app_nil_r. split; [by rewrite length_insert|]. split.
    + intros Hin. left. split; [done|]. unfold pipeline.
      rewrite in_flight_pending. unfold in_flight. rewrite Hb.
      simpl. rewrite app_nil_r.
      change (buf (pubChan (set_bcast t _))) with (buf (pubChan t)).
      destruct (decide (ch = c0)) as [->|Hne].
      * rewrite decide_False by done. rewrite decide_True by set_solver.
        unfold stream. rewrite list_lookup_insert_eq by (by eapply lookup_lt_Some).
        rewrite Hc. simpl. by rewrite <-!app_assoc.
      * rewrite stream_insert_ne by done.
        repeat case_decide; try done; set_solver.
    + intros Hout. assert (ch ≠ c0) by (intros ->; apply Hout, Hin0; set_solver).
      split; [done|]. split.
      * by apply stream_insert_ne.
      * by apply ended_insert_ne.
  - (* the watcher *)
    apply obind_Ret in Hs as ([σ1 t1] & Hp & [= <- <- <-]).
    destruct (run_watch_Ret _ _ _ _ _ Hti Hp)
      as (Hd & Hc & Hb & -> & Hlen & Hout' & Hin').
    rewrite app_nil_r. split; [lia|]. split.
    + intros Hin. right. split; [set_solver|].
      destruct (topic_inv_lookup _ _ _ _ Hti Hin) as (_ & c & Hch & _).
      split; [|split; [|split; [by apply in_flight_None|done]]].
      * exists (closed_chan c). by rewrite (Hin' _ Hin), Hch.
      * apply stream_heap. rewrite (Hin' _ Hin), Hch. done.
    + intros Hout. split; [set_solver|]. split.
      * apply stream_heap. by rewrite (Hout' _ Hout).
      * apply ended_heap. by rewrite (Hout' _ Hout).
  - (* a subscriber receives *)
    apply obind_Ret in Hs as ([m σ1] & Hp & [= <- <- <-]).
    apply consume_Ret in Hp as (c & Hc & Hbuf & ->).
    assert (Hst : stream ch (<[x := Chan (drop 1 (buf c)) (cap c) (closed c)]> σ)
                    (log ++ [Observed x m]) = stream ch σ log).
    { unfold stream. rewrite observed_app. simpl.
      destruct (decide (x = ch)) as [->|Hne].
      - rewrite list_lookup_insert_eq by (by eapply lookup_lt_Some).
        rewrite Hc. simpl. rewrite <-app_assoc. simpl. by rewrite <-Hbuf.
      - rewrite list_lookup_insert_ne by done. by rewrite app_nil_r. }
    assert (Hen : ended ch σ →
                  ended ch (<[x := Chan (drop 1 (buf c)) (cap c) (closed c)]> σ)).
    { destruct (decide (x = ch)) as [->|Hne].
      - intros (c1 & Hc1 & Hcl). rewrite Hc in Hc1. injection Hc1 as <-.
        eexists. split; [apply list_lookup_insert_eq; by eapply lookup_lt_Some|done].
      - apply ended_heap. by rewrite list_lookup_insert_ne. }
    split; [by rewrite length_insert|]. split.
    + intros Hin. left. split; [done|]. unfold pipeline. rewrite Hst. simpl.
      by rewrite app_nil_r.
    + intros Hout. done.
Qed.

Lemma sub_inv_step q ch B a σ t log σ' t' es :
  sub_inv q ch B σ t log → tstep a (σ, t) = Ret (σ', t', es) →
  sub_inv q ch B σ' t' (log ++ es).
Proof.
  intros [Hti Hlt Hin Hout] Hs.
  destruct (stream_step q ch a σ t log σ' t' es Hti Hlt Hs) as (Hlt' & Hin' & Hout').
  split.
  - by eapply tstep_inv.
  - done.
  - intros Hch'. rewrite published_app, app_assoc.
    destruct (decide (ch ∈ sub_dom t)) as [Hch|Hch].
    + destruct (Hin' Hch) as [[_ ->]|[? _]]; [|done]. by rewrite Hin.
    + by destruct (Hout' Hch).
  - intros Hch'. rewrite published_app, app_assoc.
    destruct (decide (ch ∈ sub_dom t)) as [Hch|Hch].
    + destruct (Hin' Hch) as [[? _]|(_ & Hen & -> & Hfl & ->)]; [done|].
      split; [done|]. rewrite app_nil_r, <-(Hin Hch). unfold pipeline.
      by apply prefix_app_r.
    + destruct (Hout' Hch) as (_ & -> & Hen).
      destruct (Hout Hch) as [Hen0 Hpre]. split; [by apply Hen|].
      by apply prefix_app_r.
Qed.

Lemma sub_inv_run q ch B acts σ t log σ' t' log' :
  sub_inv q ch B σ t log → trun acts (σ, t) log = Ret (σ', t', log') →
  sub_inv q ch B σ' t' log'.
Proof.
  revert σ t log. induction acts as [|a acts IH]; intros σ t log Hi Hr;
    simpl in Hr.
  { by injection Hr as <- <- <-. }
  apply obind_Ret in Hr as ([[σ1 t1] es] & Hs & Hr).
  eapply IH; [|done]. by eapply sub_inv_step.
Qed.

Lemma trun_log acts s log σ' t' log' :
  trun acts s log = Ret (σ', t', log') → log `prefix_of` log'.
Proof.
  revert s log. induction acts as [|a acts IH]; intros s log Hr; simpl in Hr.
  { by injection Hr as _ <-. }
  apply obind_Ret in Hr as ([s1 es] & Hs & Hr). apply IH in Hr.
  etrans; [|done]. by apply prefix_app_r.
Qed.

(** Once [ch] has left the Topic nothing is sent to it any more. *)
Lemma stream_frozen q ch acts σ t log σ' t' log' :
  topic_inv q σ t → ch < length σ → ch ∉ sub_dom t → ended ch σ →
  trun acts (σ, t) log = Ret (σ', t', log') →
  ended ch σ' ∧ stream ch σ' log' = stream ch σ log.
Proof.
  revert σ t log. induction acts as [|a acts IH]; intros σ t log Hti Hlt Hch Hen Hr;
    simpl in Hr.
  { by injection Hr as <- <- <-. }
  apply obind_Ret in Hr as ([[σ1 t1] es] & Hs & Hr).
  destruct (stream_step q ch a σ t log σ1 t1 es Hti Hlt Hs) as (Hlt' & _ & Hout').
  destruct (Hout' Hch) as (Hch' & <- & Hen').
  eapply IH; [by eapply tstep_inv|done|done|by apply Hen'|done].
Qed.

(** Every step of a goroutine or of a subscriber of a Topic uses up work. *)
Lemma tinternal_step_work q a σ t σ' t' es :
  topic_inv q σ t → tinternal a = true → tstep a (σ, t) = Ret (σ', t', es) →
  twork (σ', t') < twork (σ, t) ∧ published es = [].
Proof.
  intros Hti Ha Hs. unfold twork. simpl.
  destruct a as [| | | |ks| | |x]; try done; simpl in Hs.
  - apply obind_Ret in Hs as (t1 & Hp & [= <- <- <-]). split; [|done].
    apply run_recv_Ret in Hp as (msg & Hb & Ho & Hbuf & ->).
    rewrite (range_values_keys _ σ) by
      (done || apply range_order_spec in Ho as [_ Hks]; set_solver).
    assert (Hlen : length (buf (pubChan t))
                   = S (length (drop 1 (buf (pubChan t)))))
      by (by rewrite Hbuf at 1).
    unfold topic_work. simpl. rewrite pending_length, Hb, Hlen.
    rewrite (range_order_length _ _ Ho).
    change (Topic_SubLen (set_bcast _ _)) with (Topic_SubLen t). simpl. lia.
  - apply obind_Ret in Hs as ([σ1 t1] & Hp & [= <- <- <-]). split; [|done].
    apply run_deliver_Ret in Hp as (msg & c0 & rest & c & Hb & Hc & Ho & Hroom & -> & ->).
    pose proof (heap_work_insert σ c0 c (Chan (buf c ++ [msg]) (cap c) false) Hc) as Hh.
    simpl in Hh. rewrite length_app in Hh. simpl in Hh.
    assert (topic_work (set_bcast t (pending msg rest)) + 2 = topic_work t).
    { unfold topic_work. simpl. rewrite pending_length, Hb.
      change (Topic_SubLen (set_bcast _ _)) with (Topic_SubLen t). simpl. lia. }
    lia.
  - apply obind_Ret in Hs as ([σ1 t1] & Hp & [= <- <- <-]). split; [|done].
    destruct (run_watch_Ret _ _ _ _ _ Hti Hp) as (Hd & Hc & Hb & -> & Hlen & Hout & Hin).
    assert (heap_work σ1 = heap_work σ) as Hh.
    { apply heap_work_ext; [done|]. intros i.
      destruct (decide (i ∈ sub_dom t)) as [Hi'|Hi'].
      - rewrite Hin by done. by destruct (σ !! i).
      - by rewrite Hout. }
    assert (topic_work (set_subChans (set_pubChan t (closed_chan (pubChan t))) None)
            < topic_work t).
    { unfold topic_work, Topic_SubLen. simpl. rewrite Hb, Hc. simpl.
      destruct (subChans t); lia. }
    lia.
  - apply obind_Ret in Hs as ([m σ1] & Hc & [= <- <- <-]). split; [|done].
    apply consume_Ret in Hc as (c & Hc & Hb & ->).
    pose proof (heap_work_insert σ x c
                  (Chan (drop 1 (buf c)) (cap c) (closed c)) Hc) as Hh.
    simpl in Hh.
    assert (length (buf c) = S (length (drop 1 (buf c)))) by (by rewrite Hb at 1).
    lia.
Qed.

Lemma tinternal_run_work q acts σ t log σ' t' log' :
  topic_inv q σ t → Forall (λ a, tinternal a = true) acts →
  trun acts (σ, t) log = Ret (σ', t', log') →
  twork (σ', t') + length acts ≤ twork (σ, t) ∧ published log' = published log.
Proof.
  revert σ t log. induction acts as [|a acts IH]; intros σ t log Hti Hacts Hr;
    simpl in Hr.
  { injection Hr as <- <- <-. simpl. split; [lia|done]. }
  apply Forall_cons in Hacts as [Ha Hacts].
  apply obind_Ret in Hr as ([[σ1 t1] es] & Hs & Hr).
  destruct (tinternal_step_work _ _ _ _ _ _ _ Hti Ha Hs) as [Hw Hp].
  apply IH in Hr as [Hw' Hp']; [|by eapply tstep_inv|done].
  simpl. split; [lia|]. by rewrite Hp', published_app, Hp, app_nil_r.
Qed.

(** When no goroutine of the Topic and no subscriber can take a step,
    nothing is left in any queue. *)
Lemma stuck_topic_is_empty q σ t :
  topic_inv q σ t → (0 < q)%Z →
  (∀ a s', tinternal a = true → tstep a (σ, t) ≠ Ret s') →
  (∀ ch c, σ !! ch = Some c → buf c = []) ∧
  buf (pubChan t) = [] ∧ bcast t = None.
Proof.
  intros Hti Hq Hstuck.
  assert (Hheap : ∀ ch c, σ !! ch = Some c → buf c = []).
  { intros ch c Hc. destruct (buf c) as [|m b] eqn:Hb; [done|].
    exfalso. eapply (Hstuck (TConsume ch)); [done|]. simpl.
    assert (Hcs : consume σ ch
                  = Ret (m, <[ch := Chan (drop 1 (buf c)) (cap c) (closed c)]> σ)).
    { apply consume_Ret. exists c. by rewrite Hb. }
    rewrite Hcs. done. }
  split; [done|].
  assert (Hb : bcast t = None).
  { destruct (bcast t) as [[msg rest]|] eqn:Hb; [|done]. exfalso.
    destruct (ti_bcast _ _ _ Hti _ _ Hb) as (Hne & _ & Hin).
    destruct rest as [|c0 rest]; [done|].
    destruct (topic_inv_lookup _ _ _ c0 Hti) as (_ & cc & Hcc & Hco & Hcq);
      [apply Hin; set_solver|].
    eapply (Hstuck TDeliver); [done|]. simpl.
    assert (Hrd : run_deliver σ t
                  = Ret (<[c0 := Chan (buf cc ++ [msg]) (cap cc) false]> σ,
                         set_bcast t (pending msg rest))).
    { apply run_deliver_Ret. exists msg, c0, rest, cc. split_and!; try done.
      rewrite (Hheap _ _ Hcc). simpl. lia. }
    rewrite Hrd. done. }
  split; [|done].
  destruct (buf (pubChan t)) as [|m b] eqn:Hbuf; [done|]. exfalso.
  assert (Hrr : ∃ t', run_recv t (elements (sub_dom t)) = Ret t').
  { eexists. apply run_recv_Ret. exists m. split_and!; try done.
    - apply range_order_spec. split; [apply NoDup_elements|].
      apply list_to_set_elements_L.
    - by rewrite Hbuf. }
  destruct Hrr as [t' Hrr].
  eapply (Hstuck (TRecv (elements (sub_dom t)))); [done|]. simpl.
  rewrite Hrr. done.
Qed.

Lemma live_topic_pos q σ t : live_topic q σ t → (0 < q)%Z.
Proof.
  intros [Hr|(h & k & Hr & _ & <-)].
  - remember (σ, t) as s eqn:Hs. clear Hs. by induction Hr.
  - apply (hi_q σ h). by apply reachable_inv.
Qed.


(** * Further properties of the Topic *)

Lemma Topic_Unsub_member q σ t ch :
  topic_inv q σ t → done t = false → bcast t = None → ch ∈ sub_dom t →
  ∃ c m, σ !! ch = Some c ∧ closed c = false ∧ subChans t = Some m ∧
         is_Some (m !! ch) ∧
         Topic_Unsub σ t (Some ch)
         = Ret (<[ch := closed_chan c]> σ,
                set_subChans t (Some (delete ch m)), None).
Proof.
  intros Hi Hd Hb Hin.
  destruct (topic_inv_lookup _ _ _ _ Hi Hin) as (Hl & c & Hc & Ho & _).
  apply elem_of_sub_dom in Hin as (m & v & Hm & Hv).
  exists c, m. repeat split; try done.
  apply Topic_Unsub_Ret. right. repeat split; try done.
  apply Topic_unsub_Ret. exists ch, ch, c, m. repeat split; try done.
  unfold sub_lookup in Hl. rewrite Hm in Hl. done.
Qed.

(** X1.  [Unsub(ch)] of a registered channel, on a Topic that is not
    cancelled and whose lock is free, returns nil, closes [ch] -- what is
    buffered in it stays for the subscriber to receive --, removes it from
    the subscriber set and touches no other channel; [SubLen] goes down by
    one. *)
Theorem Topic_Unsub_closes_and_removes q σ t ch :
  live_topic q σ t → done t = false → bcast t = None → ch ∈ sub_dom t →
  ∃ c σ' t',
    σ !! ch = Some c ∧ closed c = false ∧
    Topic_Unsub σ t (Some ch) = Ret (σ', t', None) ∧
    σ' !! ch = Some (Chan (buf c) (cap c) true) ∧
    (∀ k, k ≠ ch → σ' !! k = σ !! k) ∧
    sub_dom t' = sub_dom t ∖ {[ch]} ∧
    S (Topic_SubLen t') = Topic_SubLen t ∧
    pubChan t' = pubChan t.
Proof.
  intros Hi%live_topic_inv Hd Hb Hin.
  destruct (Topic_Unsub_member _ _ _ _ Hi Hd Hb Hin)
    as (c & m & Hc & Ho & Hm & [v Hv] & Hu).
  assert (Hlt : ch < length σ) by (by eapply lookup_lt_Some).
  exists c, (<[ch := closed_chan c]> σ), (set_subChans t (Some (delete ch m))).
  repeat split; try done.
  - by apply list_lookup_insert_eq.
  - intros k Hk. by apply list_lookup_insert_ne.
  - unfold sub_dom. simpl. rewrite Hm. apply dom_delete_L.
  - unfold Topic_SubLen. simpl. rewrite Hm.
    rewrite <-(insert_delete_id m ch v Hv) at 2.
    rewrite map_size_insert_None by apply lookup_delete_eq. done.
Qed.

(** X2.  [Sub()] followed by [Unsub] of the channel it returned brings the
    Topic back to the state before: the only trace is the channel itself,
    closed and empty, in the heap. *)
Theorem Topic_Sub_Unsub_round_trip q σ t :
  live_topic q σ t → done t = false → bcast t = None →
  ∃ σ1 t1,
    Topic_Sub σ t = Ret (σ1, t1, Some (length σ), None) ∧
    Topic_Unsub σ1 t1 (Some (length σ))
    = Ret (σ ++ [Chan [] q true], t, None).
Proof.
  intros Hi%live_topic_inv Hd Hb.
  assert (∃ m, subChans t = Some m) as [m Hm].
  { destruct (subChans t) eqn:Hs; [by eexists|].
    apply (ti_watch _ _ _ Hi) in Hs. rewrite (ti_done _ _ _ Hi Hd) in Hs. done. }
  assert (Hfresh : m !! length σ = None).
  { destruct (m !! length σ) as [v|] eqn:Hv; [|done].
    assert (length σ ∈ sub_dom t) as Hin by (apply elem_of_sub_dom; eauto).
    apply (topic_inv_lt _ _ _ _ Hi) in Hin. lia. }
  eexists _, _. split.
  - apply Topic_Sub_Ret. right. repeat split; try done.
    + rewrite (ti_cap _ _ _ Hi). apply (ti_q _ _ _ Hi).
    + exists m. repeat split; done.
  - apply Topic_Unsub_Ret. right. repeat split; try done.
    apply Topic_unsub_Ret.
    exists (length σ), (length σ), (Chan [] (cap (pubChan t)) false),
           (<[length σ := length σ]> m).
    repeat split; simpl.
    + by rewrite lookup_insert_eq.
    + by rewrite lookup_app_r, Nat.sub_diag.
    + rewrite (ti_cap _ _ _ Hi).
      rewrite insert_app_r_alt, Nat.sub_diag by done. done.
    + rewrite delete_insert_id by done.
      destruct t; simpl in *. by subst.
Qed.

Lemma run_watch_total q σ t :
  topic_inv q σ t → done t = true → closed (pubChan t) = false →
  bcast t = None → ∃ s', run_watch σ t = Ret s'.
Proof.
  intros Hi Hd Hcl Hb. unfold run_watch, chan_close, Topic_unsubAll.
  rewrite Hd, Hcl. simpl. rewrite ?Hb. simpl. rewrite ?Hb.
  destruct (sub_keys_spec t) as [Hnd Hkeys].
  destruct (unsub_range_total (sub_keys t) σ
              (set_pubChan t (Chan (buf (pubChan t)) (cap (pubChan t)) true)))
    as [[σ1 t1] Hu].
  - done.
  - intros k0 Hk0%Hkeys. by destruct (topic_inv_lookup _ _ _ k0 Hi Hk0).
  - intros k0 Hk0%Hkeys.
    destruct (topic_inv_lookup _ _ _ k0 Hi Hk0) as (_ & c0 & ? & ? & _).
    by exists c0.
  - change (sub_keys (set_pubChan t _)) with (sub_keys t). rewrite Hu.
    by eexists.
Qed.


(** X4.  On a cancelled Topic whose lock is free the watcher runs, and it
    runs once: it closes the intake queue and every subscriber channel --
    the buffers stay --, leaves the nil subscriber map ([SubLen] is 0) and
    touches no other channel; after that it is finished. *)
Theorem watcher_closes_every_subscriber q σ t :
  live_topic q σ t → done t = true → closed (pubChan t) = false →
  bcast t = None →
  ∃ σ' t',
    run_watch σ t = Ret (σ', t') ∧
    closed (pubChan t') = true ∧ buf (pubChan t') = buf (pubChan t) ∧
    subChans t' = None ∧ Topic_SubLen t' = 0 ∧
    length σ' = length σ ∧
    (∀ i, i ∈ sub_dom t → σ' !! i = closed_chan <$> σ !! i) ∧
    (∀ i, i ∉ sub_dom t → σ' !! i = σ !! i) ∧
    run_watch σ' t' = Block.
Proof.
  intros Hl Hd Hc Hb.
  pose proof (live_topic_inv _ _ _ Hl) as Hi.
  destruct (run_watch_total q σ t Hi Hd Hc Hb) as [[σ' t'] Hw].
  destruct (run_watch_Ret _ _ _ _ _ Hi Hw) as (_ & _ & _ & -> & Hlen & Hout & Hin).
  exists σ', (set_subChans (set_pubChan t (closed_chan (pubChan t))) None).
  repeat split; try done.
  unfold run_watch. simpl. by rewrite Hd.
Qed.

Lemma chan_evolves_refl (c : chan) : chan_evolves c c.
Proof. split; [done|]. intros Hc. split; [done|]. by exists []. Qed.

Lemma heap_evolves_refl σ : heap_evolves σ σ.
Proof. intros ch c Hc. exists c. split; [done|apply chan_evolves_refl]. Qed.

Lemma heap_evolves_trans σ1 σ2 σ3 :
  heap_evolves σ1 σ2 → heap_evolves σ2 σ3 → heap_evolves σ1 σ3.
Proof.
  intros H12 H23 ch c Hc.
  destruct (H12 _ _ Hc) as (c2 & Hc2 & Hq2 & Hcl2).
  destruct (H23 _ _ Hc2) as (c3 & Hc3 & Hq3 & Hcl3).
  exists c3. split; [done|]. split; [congruence|].
  intros Hcl. destruct (Hcl2 Hcl) as [Hcl2' [k2 Hs2]].
  destruct (Hcl3 Hcl2') as [Hcl3' [k3 Hs3]]. split; [done|].
  exists (k2 ++ k3). rewrite Hs2, Hs3. by rewrite app_assoc.
Qed.

Lemma heap_evolves_app σ l : heap_evolves σ (σ ++ l).
Proof.
  intros ch c Hc. exists c. split; [|apply chan_evolves_refl].
  rewrite lookup_app_l; [done|]. by eapply lookup_lt_Some.
Qed.

Lemma heap_evolves_insert σ i c c' :
  σ !! i = Some c → chan_evolves c c' → heap_evolves σ (<[i := c']> σ).
Proof.
  intros Hi He ch c0 Hc0. destruct (decide (ch = i)) as [->|Hne].
  - exists c'. rewrite list_lookup_insert_eq by (by eapply lookup_lt_Some).
    split; [done|]. congruence.
  - exists c0. rewrite list_lookup_insert_ne by done.
    split; [done|apply chan_evolves_refl].
Qed.

Lemma Topic_unsub_frame σ t ch σ' t' :
  Topic_unsub σ t ch = Ret (σ', t') →
  heap_evolves σ σ' ∧ length σ' = length σ ∧ pubChan t' = pubChan t ∧
  done t' = done t ∧ bcast t' = bcast t ∧ sub_dom t' ⊆ sub_dom t.
Proof.
  intros (k & v & c & m & -> & Hm & Hk & Hv & Ho & -> & ->)%Topic_unsub_Ret.
  split; [|split; [by rewrite length_insert|]].
  - eapply heap_evolves_insert; [done|]. split; [done|]. congruence.
  - repeat split; try done. unfold sub_dom. simpl. rewrite Hm, dom_delete_L.
    set_solver.
Qed.

Lemma unsub_range_frame ks σ t σ' t' :
  unsub_range ks σ t = Ret (σ', t') →
  heap_evolves σ σ' ∧ length σ' = length σ ∧ pubChan t' = pubChan t ∧
  done t' = done t ∧ bcast t' = bcast t.
Proof.
  revert σ t. induction ks as [|k ks IH]; intros σ t Hr; simpl in Hr.
  { injection Hr as <- <-. split; [apply heap_evolves_refl|done]. }
  apply obind_Ret in Hr as ([σ1 t1] & Hu & Hr).
  apply Topic_unsub_frame in Hu as (He & Hl & Hp & Hd & Hb & _).
  apply IH in Hr as (He' & Hl' & Hp' & Hd' & Hb').
  split; [by eapply heap_evolves_trans|]. repeat split; congruence.
Qed.

Lemma run_watch_frame σ t σ' t' :
  run_watch σ t = Ret (σ', t') →
  heap_evolves σ σ' ∧ length σ' = length σ ∧ done t = true ∧
  done t' = true ∧ subChans t' = None ∧ bcast t' = None ∧
  buf (pubChan t') = buf (pubChan t).
Proof.
  unfold run_watch. destruct (done t) eqn:Hd; [|done].
  destruct (closed (pubChan t)); [done|].
  destruct (bcast t) eqn:Hb; [done|].
  intros (c & (_ & ->)%chan_close_Ret & Hu)%obind_Ret.
  unfold Topic_unsubAll in Hu. simpl in Hu. rewrite Hb in Hu.
  apply obind_Ret in Hu as ([σ1 t1] & Hr & [= <- <-]).
  apply unsub_range_frame in Hr as (He & Hl & Hp & Hd' & Hb').
  simpl in *. repeat split; try done; try congruence. by rewrite Hp.
Qed.

(** X5.  Cancellation of a Topic is permanent, and a cancelled Topic takes
    nothing in: whatever step is taken on it, it stays cancelled, no channel
    is allocated, its intake queue only loses messages from the front, its
    subscriber set does not grow, and the only events are receptions by
    subscribers (no publish, subscribe or unsubscribe succeeds). *)
Theorem cancelled_Topic_takes_nothing_in a σ t σ' t' es :
  done t = true → tstep a (σ, t) = Ret (σ', t', es) →
  done t' = true ∧ length σ' = length σ ∧
  buf (pubChan t') `suffix_of` buf (pubChan t) ∧
  sub_dom t' ⊆ sub_dom t ∧
  Forall (λ e, is_observation e = true) es.
Proof.
  intros Hd Hs. destruct a; simpl in Hs.
  - apply obind_Ret in Hs as ([t1 e] & Hp & [= <- <- <-]).
    apply Topic_Pub_Ret in Hp as [(_ & -> & ->)|(? & _)]; [|congruence].
    split_and!; try done; by exists [].
  - apply obind_Ret in Hs as ([[[σ1 t1] ch] e] & Hp & [= <- <- <-]).
    apply Topic_Sub_Ret in Hp as [(_ & -> & -> & -> & _)|(? & _)]; [|congruence].
    split_and!; try done; by exists [].
  - apply obind_Ret in Hs as ([[σ1 t1] e] & Hp & [= <- <- <-]).
    apply Topic_Unsub_Ret in Hp as [(_ & -> & -> & ->)|(? & _)]; [|congruence].
    split_and!; try done; by exists [].
  - injection Hs as <- <- <-. split_and!; try done; by exists [].
  - apply obind_Ret in Hs as (t1 & Hp & [= <- <- <-]).
    apply run_recv_Ret in Hp as (msg & _ & _ & Hb & ->). simpl.
    split_and!; try done. exists [msg]. by rewrite Hb at 1.
  - apply obind_Ret in Hs as ([σ1 t1] & Hp & [= <- <- <-]).
    apply run_deliver_Ret in Hp as (msg & c0 & rest & c & _ & _ & _ & _ & -> & ->).
    simpl. rewrite length_insert. split_and!; try done; by exists [].
  - apply obind_Ret in Hs as ([σ1 t1] & Hp & [= <- <- <-]).
    apply run_watch_frame in Hp as (_ & Hl & _ & Hd' & Hs' & _ & Hb).
    split_and!.
    + done.
    + done.
    + rewrite Hb. by exists [].
    + unfold sub_dom at 1. rewrite Hs'. set_solver.
    + constructor.
  - apply obind_Ret in Hs as ([m σ1] & Hp & [= <- <- <-]).
    apply consume_Ret in Hp as (c & _ & _ & ->). rewrite length_insert.
    split_and!; try done; try (by exists []). by repeat constructor.
Qed.

(** The sends of one [pub(msg)], when no subscriber queue is full. *)
Lemma deliver_all msg rest σ t log :
  bcast t = pending msg rest → NoDup rest →
  (∀ k, k ∈ rest → ∃ c, σ !! k = Some c ∧ closed c = false ∧
                        (Z.of_nat (length (buf c)) < cap c)%Z) →
  ∃ σ', trun (replicate (length rest) TDeliver) (σ, t) log
        = Ret (σ', set_bcast t None, log) ∧
        length σ' = length σ ∧
        ∀ k, σ' !! k = if decide (k ∈ rest) then pushed msg <$> σ !! k
                       else σ !! k.
Proof.
  revert σ t. induction rest as [|ch rest IH]; intros σ t Hb Hnd Hroom; simpl.
  { exists σ. simpl in Hb. split; [|split; [done|]].
    - destruct t; simpl in *. by subst.
    - intros k. first [done|case_decide; [set_solver|done]]. }
  apply NoDup_cons in Hnd as [Hch Hnd].
  destruct (Hroom ch) as (c & Hc & Ho & Hr); [set_solver|].
  assert (Hlt : ch < length σ) by (by eapply lookup_lt_Some).
  assert (Hd : run_deliver σ t
               = Ret (<[ch := pushed msg c]> σ, set_bcast t (pending msg rest))).
  { apply run_deliver_Ret. exists msg, ch, rest, c. by repeat split. }
  rewrite Hd. simpl.
  destruct (IH (<[ch := pushed msg c]> σ) (set_bcast t (pending msg rest)))
    as (σ' & Hrun & Hlen & Hpt).
  - done.
  - done.
  - intros k Hk. destruct (Hroom k) as (c' & Hc' & ? & ?); [set_solver|].
    exists c'. rewrite list_lookup_insert_ne by set_solver. done.
  - exists σ'. rewrite app_nil_r. split; [exact Hrun|].
    split; [by rewrite Hlen, length_insert|].
    intros k. rewrite Hpt. destruct (decide (k = ch)) as [->|Hne].
    + rewrite list_lookup_insert_eq by done. rewrite Hc.
      repeat case_decide; set_solver.
    + rewrite list_lookup_insert_ne by done.
      repeat case_decide; set_solver.
Qed.

(** X6.  Fan-out.  When no subscriber queue of a Topic is full, one turn of
    the broadcast loop -- [msg := <-t.pubChan] and the sends of [pub(msg)],
    in whatever order the range takes -- removes the oldest message from
    the intake queue and appends it to the queue of every registered
    subscriber, once each, and to no other channel. *)
Theorem broadcast_reaches_every_subscriber q σ t msg rest ks log :
  live_topic q σ t → bcast t = None → buf (pubChan t) = msg :: rest →
  range_order t ks = true →
  (∀ k c, k ∈ sub_dom t → σ !! k = Some c →
          (Z.of_nat (length (buf c)) < q)%Z) →
  ∃ σ' t',
    trun (TRecv ks :: replicate (length ks) TDeliver) (σ, t) log
    = Ret (σ', t', log) ∧
    buf (pubChan t') = rest ∧ bcast t' = None ∧
    subChans t' = subChans t ∧ done t' = done t ∧
    length σ' = length σ ∧
    ∀ k, σ' !! k = if decide (k ∈ sub_dom t) then pushed msg <$> σ !! k
                   else σ !! k.
Proof.
  intros Hi%live_topic_inv Hb Hbuf Ho Hroom.
  pose proof Ho as [Hnd Hks]%range_order_spec.
  set (t1 := set_bcast
               (set_pubChan t (Chan rest (cap (pubChan t)) (closed (pubChan t))))
               (pending msg ks)).
  assert (Hrecv : run_recv t ks = Ret t1).
  { apply run_recv_Ret. exists msg. rewrite Hbuf. simpl. rewrite drop_0.
    repeat split; try done. unfold t1.
    by rewrite (range_values_keys q σ) by (done || set_solver). }
  destruct (deliver_all msg ks σ t1 log) as (σ' & Hrun & Hlen & Hpt).
  - done.
  - done.
  - intros k Hk. assert (Hin : k ∈ sub_dom t) by set_solver.
    destruct (topic_inv_lookup _ _ _ k Hi Hin) as (_ & c & Hc & Hcl & Hq).
    exists c. repeat split; try done. rewrite Hq. by eapply Hroom.
  - exists σ', (set_bcast t1 None). split.
    + simpl. rewrite Hrecv. simpl. rewrite app_nil_r. exact Hrun.
    + repeat split; try done. intros k. rewrite Hpt.
      repeat case_decide; set_solver.
Qed.

(** X7.  Head-of-line blocking.  While [pub(msg)] waits on a subscriber
    whose queue is full, the broadcast loop takes no further message, the
    watcher cannot tear the Topic down, and [Sub] and [Unsub] wait for the
    lock; one reception by that subscriber lets the send go through. *)
Theorem full_subscriber_queue_stalls_the_Topic q σ t msg ch rest c :
  live_topic q σ t → (0 < q)%Z →
  bcast t = Some (msg, ch :: rest) → σ !! ch = Some c →
  Z.of_nat (length (buf c)) = q →
  run_deliver σ t = Block ∧
  (∀ ks, run_recv t ks = Block) ∧
  run_watch σ t = Block ∧
  (done t = false → Topic_Sub σ t = Block ∧ ∀ x, Topic_Unsub σ t x = Block) ∧
  ∃ m σ1, consume σ ch = Ret (m, σ1) ∧
          run_deliver σ1 t
          = Ret (<[ch := pushed msg (Chan (drop 1 (buf c)) (cap c) (closed c))]> σ1,
                 set_bcast t (pending msg rest)).
Proof.
  intros Hi%live_topic_inv Hq Hb Hc Hfull.
  destruct (ti_bcast _ _ _ Hi _ _ Hb) as (_ & _ & Hin).
  destruct (topic_inv_lookup _ _ _ ch Hi) as (_ & c' & Hc' & Ho & Hcap);
    [apply Hin; set_solver|].
  assert (c' = c) as -> by congruence.
  assert (Hlt : ch < length σ) by (by eapply lookup_lt_Some).
  split_and!.
  - unfold run_deliver, heap_send, chan_send. rewrite Hb, Hc, Ho.
    destruct (Z.ltb_spec (Z.of_nat (length (buf c))) (cap c)); [lia|done].
  - intros ks. unfold run_recv. by rewrite Hb.
  - unfold run_watch. rewrite Hb. destruct (done t); [|done].
    by destruct (closed (pubChan t)).
  - intros Hd. unfold Topic_Sub, Topic_Unsub. by rewrite Hd, Hb.
  - destruct (buf c) as [|m b] eqn:Hbuf; [simpl in Hfull; lia|].
    exists m, (<[ch := Chan (drop 1 (buf c)) (cap c) (closed c)]> σ). split.
    + apply consume_Ret. exists c. by rewrite Hbuf.
    + apply run_deliver_Ret.
      exists msg, ch, rest, (Chan (drop 1 (buf c)) (cap c) (closed c)).
      rewrite list_lookup_insert_eq by done. split_and!; try done.
      * simpl. rewrite Hbuf. simpl. rewrite drop_0. simpl in Hfull. lia.
      * unfold pushed. simpl. by rewrite Hbuf.
Qed.

(** ** Channels over the steps of a Hub *)

Lemma Topic_Sub_heap σ t σ' t' ch e :
  Topic_Sub σ t = Ret (σ', t', ch, e) → heap_evolves σ σ'.
Proof.
  intros [(_ & -> & _)|(_ & _ & _ & m & _ & -> & _)]%Topic_Sub_Ret.
  - apply heap_evolves_refl.
  - apply heap_evolves_app.
Qed.

Lemma Topic_Unsub_heap σ t x σ' t' e :
  Topic_Unsub σ t x = Ret (σ', t', e) → heap_evolves σ σ'.
Proof.
  intros [(_ & -> & _)|(_ & _ & _ & Hu)]%Topic_Unsub_Ret.
  - apply heap_evolves_refl.
  - by apply Topic_unsub_frame in Hu as [? _].
Qed.

Lemma hstep_heap_evolves l σ h σ' h' :
  hstep l (σ, h) = Ret (σ', h') → heap_evolves σ σ'.
Proof.
  intros Hs. destruct l as [topic msg|topic|topic ch|p|p ch| |k msg|k ks|k|k|ch];
    simpl in Hs.
  - apply obind_Ret in Hs as ([h1 es] & _ & [= <- <-]). apply heap_evolves_refl.
  - apply obind_Ret in Hs as ([[[σ1 h1] c] es] & Hp & [= <- <-]).
    apply Hub_Sub_Ret in Hp as (t & t' & e & _ & Hp & _).
    by eapply Topic_Sub_heap.
  - apply obind_Ret in Hs as ([[σ1 h1] es] & Hp & [= <- <-]).
    apply Hub_Unsub_Ret in Hp as [(_ & -> & _)|(t & t' & e & _ & Hp & _)].
    + apply heap_evolves_refl.
    + by eapply Topic_Unsub_heap.
  - apply obind_Ret in Hs as ([[[σ1 h1] c] es] & Hp & [= <- <-]).
    apply Hub_PSub_Ret in Hp as (t & t' & e & h0 & _ & Hp & _).
    by eapply Topic_Sub_heap.
  - apply obind_Ret in Hs as ([[σ1 h1] es] & Hp & [= <- <-]).
    apply Hub_PUnsub_Ret in Hp as [(_ & -> & _)|(t & t' & e & _ & Hp & _)].
    + apply heap_evolves_refl.
    + by eapply Topic_Unsub_heap.
  - injection Hs as <- <-. apply heap_evolves_refl.
  - destruct (get_topic h k) as [t|]; [|done].
    apply obind_Ret in Hs as ([t' e] & _ & [= <- <-]). apply heap_evolves_refl.
  - destruct (get_topic h k) as [t|]; [|done].
    apply obind_Ret in Hs as (t' & _ & [= <- <-]). apply heap_evolves_refl.
  - destruct (get_topic h k) as [t|]; [|done].
    apply obind_Ret in Hs as ([σ1 t'] & Hp & [= <- <-]).
    apply run_deliver_Ret in Hp as (msg & c0 & rest & c & _ & Hc & Ho & _ & -> & _).
    eapply heap_evolves_insert; [done|]. split; [done|]. congruence.
  - destruct (get_topic h k) as [t|]; [|done].
    apply obind_Ret in Hs as ([σ1 t'] & Hp & [= <- <-]).
    by apply run_watch_frame in Hp as [? _].
  - apply obind_Ret in Hs as ([m σ1] & Hp & [= <- <-]).
    apply consume_Ret in Hp as (c & Hc & Hb & ->).
    eapply heap_evolves_insert; [done|]. split; [done|].
    intros Hcl. split; [done|]. exists [m]. by rewrite Hb at 1.
Qed.


(** * Further properties of the Hub *)

Lemma Topic_Pub_enqueue t msg t' e :
  Topic_Pub t msg = Ret (t', e) → t' = enqueue msg t.
Proof.
  unfold enqueue.
  intros [(-> & -> & _)|(-> & _ & _ & -> & _)]%Topic_Pub_Ret; done.
Qed.

Lemma Pub_range_frame ps topic msg h h' es :
  Pub_range ps topic msg h = Ret (h', es) →
  queueSize h' = queueSize h ∧ topics h' = topics h ∧
  regexps h' = regexps h ∧ hdone h' = hdone h.
Proof.
  revert h es. induction ps as [|p ps IH]; intros h es Hr; simpl in Hr.
  { by injection Hr as <- _. }
  destruct (ptopics h !! p) as [t|]; [|by eapply IH].
  destruct (regexps h !! p) as [g|]; [|done].
  destruct (Match g topic); [|by eapply IH].
  apply obind_Ret in Hr as ([t' e] & _ & Hr).
  apply obind_Ret in Hr as ([h1 es1] & Hr & [= <- _]).
  by apply IH in Hr.
Qed.

Lemma Hub_Pub_frame h topic msg h' es :
  Hub_Pub h topic msg = Ret (h', es) →
  queueSize h' = queueSize h ∧ regexps h' = regexps h ∧ hdone h' = hdone h.
Proof.
  unfold Hub_Pub. destruct (topics h !! topic) as [t|].
  - intros ([t' e] & _ & Hr)%obind_Ret.
    apply obind_Ret in Hr as ([h1 es1] & Hr & [= <- _]).
    by apply Pub_range_frame in Hr as (? & _ & ? & ?).
  - by intros [= <- _].
Qed.

Lemma Pub_range_spec ps topic msg h h' es :
  NoDup ps → Pub_range ps topic msg h = Ret (h', es) →
  ∀ p, ptopics h' !! p =
       if bool_decide (p ∈ ps) && accepts h p topic
       then enqueue msg <$> ptopics h !! p else ptopics h !! p.
Proof.
  revert h es. induction ps as [|p0 ps IH]; intros h es Hnd Hr p; simpl in Hr.
  { injection Hr as <- _. rewrite bool_decide_eq_false_2; [done|set_solver]. }
  apply NoDup_cons in Hnd as [Hp0 Hnd].
  assert (Hskip : ∀ h1 es1, Pub_range ps topic msg h1 = Ret (h', es1) →
            regexps h1 = regexps h →
            (∀ p', p' ≠ p0 → ptopics h1 !! p' = ptopics h !! p') →
            p ≠ p0 →
            ptopics h' !! p =
            if bool_decide (p ∈ p0 :: ps) && accepts h p topic
            then enqueue msg <$> ptopics h !! p else ptopics h !! p).
  { intros h1 es1 Hr1 Hre Hpt Hne. rewrite (IH _ _ Hnd Hr1 p).
    unfold accepts. rewrite Hre, (Hpt p Hne).
    rewrite (bool_decide_ext (p ∈ ps) (p ∈ p0 :: ps)); [done|set_solver]. }
  assert (Hhead : ∀ h1 es1, Pub_range ps topic msg h1 = Ret (h', es1) →
            ptopics h' !! p0 = ptopics h1 !! p0).
  { intros h1 es1 Hr1. rewrite (IH _ _ Hnd Hr1 p0).
    rewrite bool_decide_eq_false_2; done. }
  destruct (decide (p = p0)) as [->|Hne].
  - rewrite bool_decide_eq_true_2 by set_solver. simpl. unfold accepts.
    destruct (ptopics h !! p0) as [t|] eqn:Ht.
    + destruct (regexps h !! p0) as [g|]; [|done].
      destruct (Match g topic).
      * apply obind_Ret in Hr as ([t' e] & Hpub & Hr).
        apply obind_Ret in Hr as ([h1 es1] & Hr & [= <- _]).
        rewrite (Hhead _ _ Hr). simpl. rewrite lookup_insert_eq.
        by rewrite (Topic_Pub_enqueue _ _ _ _ Hpub).
      * by rewrite (Hhead _ _ Hr).
    + rewrite (Hhead _ _ Hr), Ht. by destruct (regexps h !! p0) as [g|]; [destruct (Match g topic)|].
  - destruct (ptopics h !! p0) as [t|] eqn:Ht; [|by eapply Hskip].
    destruct (regexps h !! p0) as [g|]; [|done].
    destruct (Match g topic); [|by eapply Hskip].
    apply obind_Ret in Hr as ([t' e] & Hpub & Hr).
    apply obind_Ret in Hr as ([h1 es1] & Hr & [= <- _]).
    eapply Hskip; [done|done| |done].
    intros p' Hp'. simpl. by rewrite lookup_insert_ne.
Qed.

(** X9.  Routing.  When [topic] has an exact Topic, a [Pub(topic, msg)]
    that returns has enqueued [msg] on that Topic and on the Topic of every
    pattern whose matcher accepts [topic], once each (a cancelled Topic
    refuses it and stays as it is); every other Topic, the matchers and the
    registered keys are untouched. *)
Theorem Pub_routes_to_exact_and_matching_patterns h topic msg t h' es :
  topics h !! topic = Some t → Hub_Pub h topic msg = Ret (h', es) →
  (∀ s, topics h' !! s =
        if decide (s = topic) then Some (enqueue msg t) else topics h !! s) ∧
  (∀ p, ptopics h' !! p =
        if accepts h p topic then enqueue msg <$> ptopics h !! p
        else ptopics h !! p) ∧
  regexps h' = regexps h ∧ queueSize h' = queueSize h ∧ hdone h' = hdone h.
Proof.
  intros Ht Hp. pose proof (Hub_Pub_frame _ _ _ _ _ Hp) as (Hq & Hre & Hd).
  unfold Hub_Pub in Hp. rewrite Ht in Hp.
  apply obind_Ret in Hp as ([t' e] & Hpub & Hr).
  apply obind_Ret in Hr as ([h1 es1] & Hr & [= <- _]).
  apply Topic_Pub_enqueue in Hpub as ->.
  split; [|split; [|done]].
  - intros s. apply Pub_range_frame in Hr as (_ & -> & _). simpl.
    case_decide as Hs; [subst; apply lookup_insert_eq|by apply lookup_insert_ne].
  - intros p.
    rewrite (Pub_range_spec _ _ _ _ _ _ (NoDup_fst_map_to_list _) Hr p). simpl.
    change (accepts (set_topics h _) p topic) with (accepts h p topic).
    destruct (ptopics h !! p) as [tp|] eqn:Htp.
    + rewrite bool_decide_eq_true_2; [done|].
      apply list_elem_of_fmap. exists (p, tp). split; [done|].
      by apply elem_of_map_to_list.
    + by destruct (_ && _), (accepts h p topic).
Qed.

Lemma Pub_range_returns σ ps topic msg h :
  hub_inv σ h → NoDup ps →
  (∀ p t, p ∈ ps → ptopics h !! p = Some t → accepts h p topic = true →
          has_room t) →
  ∃ r, Pub_range ps topic msg h = Ret r.
Proof.
  revert h. induction ps as [|p ps IH]; intros h Hi Hnd Hroom; simpl.
  { by eexists. }
  apply NoDup_cons in Hnd as [Hp Hnd].
  assert (Hroom' : ∀ p' t0, p' ∈ ps → ptopics h !! p' = Some t0 →
                            accepts h p' topic = true → has_room t0).
  { intros p' t0 Hp' Ht0. apply (Hroom p' t0); [set_solver|done]. }
  destruct (ptopics h !! p) as [t|] eqn:Ht; [|by apply IH].
  destruct (hi_regexps _ _ Hi p) as [g Hg]; [by rewrite Ht|]. rewrite Hg.
  destruct (Match g topic) eqn:Hm; [|by apply IH].
  pose proof (hi_topic _ _ Hi (Pattern p) t Ht) as Hti.
  assert (∃ t' e, Topic_Pub t msg = Ret (t', e)) as (t' & e & Hpub).
  { unfold Topic_Pub, chan_send. destruct (done t) eqn:Hd; [by eexists _, _|].
    rewrite (ti_done _ _ _ Hti Hd).
    assert (Hacc : accepts h p topic = true) by (unfold accepts; by rewrite Hg).
    pose proof (Hroom p t ltac:(set_solver) Ht Hacc Hd) as Hr.
    destruct (Z.ltb_spec (Z.of_nat (length (buf (pubChan t)))) (cap (pubChan t)));
      [|lia]. by eexists _, _. }
  rewrite Hpub. simpl.
  destruct (Topic_Pub_inv _ _ _ _ _ _ Hti Hpub) as (? & ? & ? & _).
  destruct (IH (set_ptopics h (<[p := t']> (ptopics h)))) as [[h' es] ->].
  - by apply (hub_inv_put_same σ h (Pattern p) t).
  - done.
  - intros p' t0 Hp' Ht0. simpl in Ht0.
    rewrite lookup_insert_ne in Ht0 by set_solver.
    by apply (Hroom' p' t0).
  - by eexists.
Qed.

Lemma Pub_range_no_panic σ ps topic msg h :
  hub_inv σ h → Pub_range ps topic msg h ≠ Panic.
Proof.
  revert h. induction ps as [|p ps IH]; intros h Hi; simpl; [done|].
  destruct (ptopics h !! p) as [t|] eqn:Ht; [|by apply IH].
  destruct (hi_regexps _ _ Hi p) as [g Hg]; [by rewrite Ht|]. rewrite Hg.
  destruct (Match g topic); [|by apply IH].
  pose proof (hi_topic _ _ Hi (Pattern p) t Ht) as Hti.
  destruct (Topic_Pub t msg) as [[t' e]| |] eqn:Hpub; simpl; [|done|].
  - destruct (Topic_Pub_inv _ _ _ _ _ _ Hti Hpub) as (? & ? & ? & _).
    pose proof (IH (set_ptopics h (<[p := t']> (ptopics h)))
                  (hub_inv_put_same σ h (Pattern p) t t' Hi Ht
                     ltac:(done) ltac:(done) ltac:(done))) as Hnp.
    destruct (Pub_range ps topic msg _) as [[h' es]| |]; done.
  - unfold Topic_Pub, chan_send in Hpub.
    destruct (done t) eqn:Hd; [done|]. rewrite (ti_done _ _ _ Hti Hd) in Hpub.
    by destruct (Z.of_nat (length (buf (pubChan t))) <? cap (pubChan t))%Z.
Qed.

Lemma Hub_Pub_no_panic σ h topic msg :
  hub_inv σ h → Hub_Pub h topic msg ≠ Panic.
Proof.
  intros Hi. unfold Hub_Pub. destruct (topics h !! topic) as [t|] eqn:Ht; [|done].
  pose proof (hi_topic _ _ Hi (Exact topic) t Ht) as Hti.
  destruct (Topic_Pub t msg) as [[t' e]| |] eqn:Hpub; simpl; [|done|].
  - destruct (Topic_Pub_inv _ _ _ _ _ _ Hti Hpub) as (? & ? & ? & _).
    pose proof (Pub_range_no_panic σ (map_to_list (ptopics h)).*1 topic msg
                  (set_topics h (<[topic := t']> (topics h)))
                  (hub_inv_put_same σ h (Exact topic) t t' Hi Ht
                     ltac:(done) ltac:(done) ltac:(done))) as Hnp.
    destruct (Pub_range _ topic msg _) as [[h' es]| |]; done.
  - unfold Topic_Pub, chan_send in Hpub.
    destruct (done t) eqn:Hd; [done|]. rewrite (ti_done _ _ _ Hti Hd) in Hpub.
    by destruct (Z.of_nat (length (buf (pubChan t))) <? cap (pubChan t))%Z.
Qed.

Lemma Topic_Pub_Ret_room t msg r : Topic_Pub t msg = Ret r → has_room t.
Proof.
  destruct r as [t' e].
  intros [(Hd & _)|(_ & _ & Hroom & _)]%Topic_Pub_Ret Hd'; [congruence|done].
Qed.

Lemma Pub_range_Ret_room ps topic msg h r :
  NoDup ps → Pub_range ps topic msg h = Ret r →
  ∀ p t, p ∈ ps → ptopics h !! p = Some t → accepts h p topic = true →
         has_room t.
Proof.
  revert h r. induction ps as [|p0 ps IH]; intros h r Hnd Hr p t Hp Ht Hacc;
    simpl in Hr.
  { set_solver. }
  apply NoDup_cons in Hnd as [Hp0 Hnd].
  destruct (decide (p = p0)) as [->|Hne].
  - rewrite Ht in Hr. unfold accepts in Hacc.
    destruct (regexps h !! p0) as [g|]; [|done]. rewrite Hacc in Hr.
    apply obind_Ret in Hr as ([t' e] & Hpub & _).
    by eapply Topic_Pub_Ret_room.
  - assert (Hps : p ∈ ps) by set_solver.
    destruct (ptopics h !! p0) as [t0|] eqn:Ht0; [|by eapply IH].
    destruct (regexps h !! p0) as [g|]; [|done].
    destruct (Match g topic); [|by eapply IH].
    apply obind_Ret in Hr as ([t' e] & Hpub & Hr).
    apply obind_Ret in Hr as ([h1 es1] & Hr & _).
    eapply (IH _ _ Hnd Hr p t Hps); [|done].
    simpl. by rewrite lookup_insert_ne.
Qed.

(** X10.  The result of one call of [Pub(topic, msg)] for a topic that has
    an exact Topic, as a function of the state in which the call runs.  The
    call is taken on its own, from its first statement to the point where
    it returns or is suspended: it holds the read lock of the Hub (which
    the model leaves out), and no [Close] comes between the check of the
    context in a [t.Pub] and its send.  Then the call returns when the
    Topics it sends to -- the Topic of [topic] and the Topic of every
    pattern whose matcher accepts [topic] -- are cancelled or have room in
    their intake queue, and otherwise it is suspended on a send to a full
    intake queue; it does not panic, since every registered pattern has a
    matcher and a Topic that is not cancelled has an open intake queue. *)
Theorem Pub_returns_iff_routed_queues_have_room σ h topic msg :
  reachable (σ, h) → is_Some (topics h !! topic) →
  (routed_have_room h topic → ∃ h' es, Hub_Pub h topic msg = Ret (h', es)) ∧
  (¬ routed_have_room h topic → Hub_Pub h topic msg = Block) ∧
  Hub_Pub h topic msg ≠ Panic.
Proof.
  intros Hi%reachable_inv [t Ht]. split; [|split; [|by eapply Hub_Pub_no_panic]].
  - intros [Hex Hpat]. unfold Hub_Pub. rewrite Ht.
    pose proof (hi_topic _ _ Hi (Exact topic) t Ht) as Hti.
    assert (∃ t' e, Topic_Pub t msg = Ret (t', e)) as (t' & e & Hpub).
    { unfold Topic_Pub, chan_send. destruct (done t) eqn:Hd; [by eexists _, _|].
      rewrite (ti_done _ _ _ Hti Hd).
      pose proof (Hex t Ht Hd) as Hr.
      destruct (Z.ltb_spec (Z.of_nat (length (buf (pubChan t)))) (cap (pubChan t)));
        [|lia]. by eexists _, _. }
    rewrite Hpub. simpl.
    destruct (Topic_Pub_inv _ _ _ _ _ _ Hti Hpub) as (? & ? & ? & _).
    destruct (Pub_range_returns σ (map_to_list (ptopics h)).*1 topic msg
                (set_topics h (<[topic := t']> (topics h)))) as [[h' es] ->].
    + by apply (hub_inv_put_same σ h (Exact topic) t).
    + apply NoDup_fst_map_to_list.
    + intros p tp _ Htp Hacc. by apply (Hpat p tp).
    + by eexists _, _.
  - intros Hno. pose proof (Hub_Pub_no_panic σ h topic msg Hi) as Hnp.
    destruct (Hub_Pub h topic msg) as [[h' es]| |] eqn:Hp; [|done|done].
    exfalso. apply Hno. unfold Hub_Pub in Hp. rewrite Ht in Hp.
    apply obind_Ret in Hp as ([t' e] & Hpub & Hr).
    apply obind_Ret in Hr as ([h1 es1] & Hr & _). split.
    + intros t0 Ht0. rewrite Ht in Ht0. injection Ht0 as <-.
      by eapply Topic_Pub_Ret_room.
    + intros p tp Htp Hacc.
      eapply (Pub_range_Ret_room _ _ _ _ _ (NoDup_fst_map_to_list _) Hr p tp);
        [|done|done].
      apply list_elem_of_fmap. exists (p, tp). split; [done|].
      by apply elem_of_map_to_list.
Qed.

Lemma put_topic_frame h k t :
  queueSize (put_topic h k t) = queueSize h ∧
  regexps (put_topic h k t) = regexps h ∧
  hdone (put_topic h k t) = hdone h.
Proof. by destruct k. Qed.

Lemma del_topic_frame h k :
  queueSize (del_topic h k) = queueSize h ∧
  regexps (del_topic h k) = regexps h ∧
  hdone (del_topic h k) = hdone h.
Proof. by destruct k. Qed.

(** What no step changes, and where matchers come from. *)
Lemma hstep_frame l σ h σ' h' :
  hstep l (σ, h) = Ret (σ', h') →
  queueSize h' = queueSize h ∧
  (hdone h = true → hdone h' = true) ∧
  (∀ p g, regexps h' !! p = Some g →
          regexps h !! p = Some g ∨ MustCompile p = Some g).
Proof.
  intros Hs. destruct l as [topic msg|topic|topic ch|p|p ch| |k msg|k ks|k|k|ch];
    simpl in Hs.
  - apply obind_Ret in Hs as ([h1 es] & Hp & [= <- <-]).
    apply Hub_Pub_frame in Hp as (-> & -> & ->). eauto.
  - apply obind_Ret in Hs as ([[[σ1 h1] c] es] & Hp & [= <- <-]).
    apply Hub_Sub_Ret in Hp as (t & t' & e & _ & _ & -> & _).
    destruct (put_topic_frame h (Exact topic) t') as (-> & -> & ->). eauto.
  - apply obind_Ret in Hs as ([[σ1 h1] es] & Hp & [= <- <-]).
    apply Hub_Unsub_Ret in Hp
      as [(_ & _ & -> & _)|(t & t' & e & _ & _ & _ & [[_ ->]|[_ ->]])];
      [eauto| |].
    + destruct (del_topic_frame h (Exact topic)) as (-> & -> & ->). eauto.
    + destruct (put_topic_frame h (Exact topic) t') as (-> & -> & ->). eauto.
  - apply obind_Ret in Hs as ([[[σ1 h1] c] es] & Hp & [= <- <-]).
    apply Hub_PSub_Ret in Hp as (t & t' & e & h0 & Hh0 & _ & -> & _).
    destruct (put_topic_frame h0 (Pattern p) t') as (-> & -> & ->).
    destruct Hh0 as [[_ ->]|(_ & _ & g & Hg & ->)]; [eauto|]. simpl.
    split; [done|]. split; [done|]. intros p' g' Hp'.
    apply lookup_insert_Some in Hp' as [[<- <-]|[_ Hp']]; eauto.
  - apply obind_Ret in Hs as ([[σ1 h1] es] & Hp & [= <- <-]).
    apply Hub_PUnsub_Ret in Hp
      as [(_ & _ & -> & _)|(t & t' & e & _ & _ & _ & [[_ ->]|[_ ->]])];
      [eauto| |].
    + destruct (del_topic_frame h (Pattern p)) as (-> & -> & ->). eauto.
    + destruct (put_topic_frame h (Pattern p) t') as (-> & -> & ->). eauto.
  - injection Hs as <- <-. simpl. eauto.
  - destruct (get_topic h k) as [t|]; [|done].
    apply obind_Ret in Hs as ([t' e] & _ & [= <- <-]).
    destruct (put_topic_frame h k t') as (-> & -> & ->). eauto.
  - destruct (get_topic h k) as [t|]; [|done].
    apply obind_Ret in Hs as (t' & _ & [= <- <-]).
    destruct (put_topic_frame h k t') as (-> & -> & ->). eauto.
  - destruct (get_topic h k) as [t|]; [|done].
    apply obind_Ret in Hs as ([σ1 t'] & _ & [= <- <-]).
    destruct (put_topic_frame h k t') as (-> & -> & ->). eauto.
  - destruct (get_topic h k) as [t|]; [|done].
    apply obind_Ret in Hs as ([σ1 t'] & _ & [= <- <-]).
    destruct (put_topic_frame h k t') as (-> & -> & ->). eauto.
  - apply obind_Ret in Hs as ([m σ1] & _ & [= <- <-]). eauto.
Qed.

Lemma hrun_frame ls σ h σ' h' :
  hrun ls (σ, h) = Ret (σ', h') →
  queueSize h' = queueSize h ∧
  (hdone h = true → hdone h' = true) ∧
  ((∀ p g, regexps h !! p = Some g → MustCompile p = Some g) →
   ∀ p g, regexps h' !! p = Some g → MustCompile p = Some g).
Proof.
  revert σ h. induction ls as [|l ls IH]; intros σ h Hr; simpl in Hr.
  { by injection Hr as <- <-. }
  apply obind_Ret in Hr as ([σ1 h1] & Hs & Hr).
  apply hstep_frame in Hs as (Hq & Hd & Hre).
  apply IH in Hr as (Hq' & Hd' & Hre').
  split; [congruence|]. split; [by auto|].
  intros Hok. apply Hre'. intros p g Hp.
  destruct (Hre p g Hp) as [?|?]; auto.
Qed.

(** X11.  In every reachable state a registered pattern has a matcher, and
    every matcher is the one compiled from the pattern it is stored under:
    [Pub] never calls [Match] on a nil matcher or on the matcher of another
    pattern. *)
Theorem registered_pattern_has_its_matcher σ h p :
  reachable (σ, h) →
  (is_Some (ptopics h !! p) → is_Some (regexps h !! p)) ∧
  (∀ g, regexps h !! p = Some g → MustCompile p = Some g).
Proof.
  intros Hr. split; [apply (hi_regexps _ _ (reachable_inv _ _ Hr))|].
  remember (σ, h) as s eqn:Hs. revert σ h Hs p.
  induction Hr as [q Hq|l [σ0 h0] [σ1 h1] Hr IH Hstep]; intros σ h [= <- <-] p g.
  - simpl. by rewrite lookup_empty.
  - intros Hg. apply hstep_frame in Hstep as (_ & _ & Hre).
    destruct (Hre p g Hg) as [?|?]; [|done]. by eapply IH.
Qed.

(** X12.  [Close] is idempotent and final: closing twice is closing once,
    and whatever is called or scheduled afterwards the context of the Hub
    stays cancelled (and the queue size of a Hub never changes). *)
Theorem Close_is_idempotent_and_final h :
  Hub_Close (Hub_Close h) = Hub_Close h ∧
  ∀ ls σ σ' h', hrun ls (σ, Hub_Close h) = Ret (σ', h') →
                hdone h' = true ∧ queueSize h' = queueSize h.
Proof.
  split.
  - unfold Hub_Close. simpl. f_equal; rewrite <-map_fmap_compose;
      apply map_fmap_ext; by intros ? [].
  - intros ls σ σ' h' (Hq & Hd & _)%hrun_frame. split; [by apply Hd|done].
Qed.

Lemma Topic_Sub_open q σ t :
  topic_inv q σ t → done t = false → bcast t = None →
  Topic_Sub σ t
  = Ret (σ ++ [Chan [] q false], subscribed (length σ) t, Some (length σ), None)
  ∧ (length σ ∉ sub_dom t) ∧
  Topic_SubLen (subscribed (length σ) t) = S (Topic_SubLen t).
Proof.
  intros Hi Hd Hb.
  assert (∃ m, subChans t = Some m) as [m Hm].
  { destruct (subChans t) eqn:Hs; [by eexists|].
    apply (ti_watch _ _ _ Hi) in Hs. rewrite (ti_done _ _ _ Hi Hd) in Hs. done. }
  assert (Hfresh : length σ ∉ sub_dom t).
  { intros Hin%(topic_inv_lt _ _ _ _ Hi). lia. }
  split; [|split; [done|]].
  - apply Topic_Sub_Ret. right. rewrite (ti_cap _ _ _ Hi).
    split_and!; try done; [apply (ti_q _ _ _ Hi)|].
    exists m. unfold subscribed. rewrite Hm. done.
  - unfold subscribed, Topic_SubLen. simpl. rewrite Hm. simpl.
    apply map_size_insert_None. unfold sub_dom in Hfresh. rewrite Hm in Hfresh.
    by apply not_elem_of_dom.
Qed.

Lemma fresh_topic_inv q σ : (0 ≤ q)%Z → topic_inv q σ (fresh_topic q).
Proof. intros Hq. apply (NewTopic_inv false). by apply NewTopic_Ret. Qed.

(** X13.  On a Hub that is not closed, [Sub(topic)] (once it holds the
    lock of the Topic) never returns nil: it returns a new, open, empty
    channel of capacity [queueSize], registered in the Topic of [topic] --
    the existing one, whose other subscribers and queued messages are kept,
    or a fresh one for an unregistered topic --, and discards no error. *)
Theorem Sub_on_open_Hub σ h topic :
  reachable (σ, h) → hdone h = false →
  (∀ t, topics h !! topic = Some t → bcast t = None) →
  let t0 := default (fresh_topic (queueSize h)) (topics h !! topic) in
  Hub_Sub σ h topic =
    Ret (σ ++ [Chan [] (queueSize h) false],
         set_topics h (<[topic := subscribed (length σ) t0]> (topics h)),
         Some (length σ), []) ∧
  (length σ ∉ sub_dom t0) ∧
  Topic_SubLen (subscribed (length σ) t0) = S (Topic_SubLen t0).
Proof.
  intros Hi%reachable_inv Hd Hfree t0. pose proof (hi_q _ _ Hi) as Hq.
  assert (topic_inv (queueSize h) σ t0 ∧ done t0 = false ∧ bcast t0 = None ∧
          (match topics h !! topic with
           | Some t => Ret t
           | None => NewTopic (hdone h) (queueSize h)
           end = Ret t0)) as (Hti & Ht0d & Ht0b & Hget).
  { unfold t0. destruct (topics h !! topic) as [t|] eqn:Ht; simpl.
    - split; [by apply (hi_topic _ _ Hi (Exact topic))|].
      split; [by destruct (hi_open _ _ Hi Hd (Exact topic) t Ht)|].
      split; [by apply Hfree|done].
    - split; [apply fresh_topic_inv; lia|]. split; [done|]. split; [done|].
      rewrite Hd. apply NewTopic_Ret. split; [lia|done]. }
  destruct (Topic_Sub_open _ _ _ Hti Ht0d Ht0b) as (Hs & Hfresh & Hlen).
  split; [|done]. unfold Hub_Sub. rewrite Hget. simpl. rewrite Hs. done.
Qed.

(** X14.  On a Hub that is not closed, [PSub(pattern)] behaves like [Sub]
    on the pattern registry, and compiles the pattern on first use only:
    for a registered pattern the matchers are not touched (and
    [MustCompile] is not called); for a new one the matcher is stored with
    the new Topic, and a pattern that does not compile makes [PSub]
    panic. *)
Theorem PSub_on_open_Hub σ h pattern :
  reachable (σ, h) → hdone h = false →
  (∀ t, ptopics h !! pattern = Some t → bcast t = None) →
  match ptopics h !! pattern, MustCompile pattern with
  | Some t, _ =>
      Hub_PSub σ h pattern =
        Ret (σ ++ [Chan [] (queueSize h) false],
             set_ptopics h (<[pattern := subscribed (length σ) t]> (ptopics h)),
             Some (length σ), [])
  | None, Some g =>
      Hub_PSub σ h pattern =
        Ret (σ ++ [Chan [] (queueSize h) false],
             set_ptopics (set_regexps h (<[pattern := g]> (regexps h)))
               (<[pattern := subscribed (length σ) (fresh_topic (queueSize h))]>
                  (ptopics h)),
             Some (length σ), [])
  | None, None => Hub_PSub σ h pattern = Panic
  end.
Proof.
  intros Hi%reachable_inv Hd Hfree. pose proof (hi_q _ _ Hi) as Hq.
  unfold Hub_PSub. destruct (ptopics h !! pattern) as [t|] eqn:Ht.
  - simpl.
    destruct (Topic_Sub_open _ σ t (hi_topic _ _ Hi (Pattern pattern) t Ht))
      as (-> & _); [by destruct (hi_open _ _ Hi Hd (Pattern pattern) t Ht)|
                    by apply Hfree|]. done.
  - assert (Hn : NewTopic (hdone h) (queueSize h) = Ret (fresh_topic (queueSize h))).
    { rewrite Hd. apply NewTopic_Ret. split; [lia|done]. }
    rewrite Hn. simpl. destruct (MustCompile pattern) as [g|]; [|done]. simpl.
    destruct (Topic_Sub_open (queueSize h) σ (fresh_topic (queueSize h)))
      as (-> & _); [apply fresh_topic_inv; lia|done|done|]. done.
Qed.

Lemma Topic_Unsub_last σ h k t ch :
  hub_inv σ h → hdone h = false → get_topic h k = Some t →
  bcast t = None → ch ∈ sub_dom t →
  ∃ c, σ !! ch = Some c ∧ closed c = false ∧
       Topic_Unsub σ t (Some ch)
       = Ret (<[ch := closed_chan c]> σ,
              set_subChans t (delete ch <$> subChans t), None) ∧
       (Topic_SubLen (set_subChans t (delete ch <$> subChans t)) = 0
        ↔ Topic_SubLen t = 1).
Proof.
  intros Hi Hd Hk Hb Hin.
  pose proof (hi_topic _ _ Hi _ _ Hk) as Hti.
  destruct (hi_open _ _ Hi Hd _ _ Hk) as [Htd _].
  destruct (Topic_Unsub_member _ _ _ _ Hti Htd Hb Hin)
    as (c & m & Hc & Ho & Hm & [v Hv] & Hu).
  exists c. rewrite Hm. simpl. split_and!; try done.
  unfold Topic_SubLen. simpl. rewrite Hm.
  rewrite <-(insert_delete_id m ch v Hv) at 2.
  rewrite map_size_insert_None by apply lookup_delete_eq. lia.
Qed.

(** X15.  On a Hub that is not closed, [Unsub(topic, ch)] of a subscribed
    channel (once it holds the lock of the Topic) closes [ch] and removes
    it from the Topic; when [ch] was the last subscriber the Topic leaves
    the registry, with whatever is still in its intake queue, and otherwise
    it stays with its other subscribers.  [PUnsub] does the same on the
    pattern registry.  No error is discarded. *)
Theorem Unsub_removes_Topic_with_last_subscriber σ h k t ch :
  reachable (σ, h) → hdone h = false → get_topic h k = Some t →
  bcast t = None → ch ∈ sub_dom t →
  ∃ c, σ !! ch = Some c ∧ closed c = false ∧
       match k with
       | Exact topic => Hub_Unsub σ h topic (Some ch)
       | Pattern pattern => Hub_PUnsub σ h pattern (Some ch)
       end = Ret (<[ch := closed_chan c]> σ, unsubscribed h k t ch, []).
Proof.
  intros Hi%reachable_inv Hd Hk Hb Hin.
  destruct (Topic_Unsub_last _ _ _ _ _ Hi Hd Hk Hb Hin) as (c & Hc & Ho & Hu & Hz).
  exists c. split; [done|]. split; [done|].
  unfold unsubscribed. destruct k as [topic|pattern]; simpl in Hk.
  - unfold Hub_Unsub. rewrite Hk, Hu. simpl.
    repeat case_decide; try done; tauto.
  - unfold Hub_PUnsub. rewrite Hk, Hu. simpl.
    repeat case_decide; try done; tauto.
Qed.

(** X16.  On a Hub that is not closed, [Sub] on an unregistered topic
    followed by [Unsub] of the channel it returned gives back the Hub as it
    was: the Topic created for the subscriber is gone from the registry,
    and the only trace is the channel, closed and empty, in the heap. *)
Theorem Hub_Sub_Unsub_round_trip σ h topic :
  reachable (σ, h) → hdone h = false → topics h !! topic = None →
  ∃ σ1 h1,
    Hub_Sub σ h topic = Ret (σ1, h1, Some (length σ), []) ∧
    Hub_Unsub σ1 h1 topic (Some (length σ))
    = Ret (σ ++ [Chan [] (queueSize h) true], h, []).
Proof.
  intros Hi%reachable_inv Hd Ht. pose proof (hi_q _ _ Hi) as Hq.
  set (q := queueSize h) in *. set (n := length σ).
  destruct (Topic_Sub_open q σ (fresh_topic q)) as (Hs & _);
    [apply fresh_topic_inv; lia|done|done|].
  assert (Hu : Topic_Unsub (σ ++ [Chan [] q false]) (subscribed n (fresh_topic q))
                 (Some n)
               = Ret (σ ++ [Chan [] q true], fresh_topic q, None)).
  { apply Topic_Unsub_Ret. right. split_and!; try done.
    apply Topic_unsub_Ret.
    exists n, n, (Chan [] q false), (<[n := n]> ∅). split_and!; try done.
    - by rewrite lookup_insert_eq.
    - unfold n. by rewrite lookup_app_r, Nat.sub_diag.
    - unfold n. by rewrite insert_app_r_alt, Nat.sub_diag.
    - unfold subscribed, fresh_topic, set_subChans. simpl.
      by rewrite delete_insert_id by apply lookup_empty. }
  exists (σ ++ [Chan [] q false]),
    (set_topics h (<[topic := subscribed n (fresh_topic q)]> (topics h))).
  split.
  - unfold Hub_Sub. rewrite Ht, Hd.
    assert (Hn : NewTopic false q = Ret (fresh_topic q))
      by (apply NewTopic_Ret; split; [lia|done]).
    fold q. rewrite Hn. simpl. fold n in Hs. rewrite Hs. done.
  - unfold Hub_Unsub. simpl. rewrite lookup_insert_eq, Hu. simpl.
    rewrite decide_True by done. unfold set_topics. simpl.
    rewrite delete_insert_id by done. by destruct h.
Qed.

(** ** Bounded queues *)

Lemma heap_within_app q σ c :
  heap_within q σ → within_cap c → cap c = q → heap_within q (σ ++ [c]).
Proof.
  intros Hw Hc Hq ch c0 Hch.
  apply lookup_app_Some in Hch as [Hch|[_ Hch]]; [by apply (Hw ch)|].
  apply list_lookup_singleton_Some in Hch as [_ <-]. done.
Qed.

Lemma heap_within_insert q σ i c c' :
  heap_within q σ → σ !! i = Some c → cap c' = cap c →
  length (buf c') ≤ length (buf c) ∨
    (Z.of_nat (length (buf c')) ≤ cap c)%Z →
  heap_within q (<[i := c']> σ).
Proof.
  intros Hw Hi Hq Hlen ch c0 Hch.
  apply list_lookup_insert_Some in Hch as [(<- & <- & _)|[_ Hch]]; [|by apply (Hw ch)].
  destruct (Hw _ _ Hi) as [Hwc Hqc]. unfold within_cap in *.
  split; [|congruence]. rewrite Hq. destruct Hlen; lia.
Qed.

Lemma topics_within_put h k t :
  topics_within h → within_cap (pubChan t) → topics_within (put_topic h k t).
Proof.
  intros Hw Ht k0 t0. rewrite get_put_topic.
  case_decide; [by intros [= <-]|apply Hw].
Qed.

Lemma topics_within_del h k : topics_within h → topics_within (del_topic h k).
Proof.
  intros Hw k0 t0. rewrite get_del_topic. case_decide; [done|apply Hw].
Qed.

Lemma Topic_Pub_within t msg t' e :
  within_cap (pubChan t) → Topic_Pub t msg = Ret (t', e) →
  within_cap (pubChan t').
Proof.
  intros Hw [(_ & -> & _)|(_ & _ & Hroom & -> & _)]%Topic_Pub_Ret; [done|].
  unfold within_cap. simpl. rewrite length_app. simpl. lia.
Qed.

Lemma Pub_range_within ps topic msg h h' es :
  topics_within h → Pub_range ps topic msg h = Ret (h', es) → topics_within h'.
Proof.
  revert h es. induction ps as [|p ps IH]; intros h es Hw Hr; simpl in Hr.
  { by injection Hr as <- _. }
  destruct (ptopics h !! p) as [t|] eqn:Ht; [|by eapply IH].
  destruct (regexps h !! p) as [g|]; [|done].
  destruct (Match g topic); [|by eapply IH].
  apply obind_Ret in Hr as ([t' e] & Hpub & Hr).
  apply obind_Ret in Hr as ([h1 es1] & Hr & [= <- _]).
  eapply IH; [|done]. apply (topics_within_put h (Pattern p)); [done|].
  eapply Topic_Pub_within; [|done]. by apply (Hw (Pattern p)).
Qed.

Lemma Hub_Pub_within h topic msg h' es :
  topics_within h → Hub_Pub h topic msg = Ret (h', es) → topics_within h'.
Proof.
  intros Hw. unfold Hub_Pub. destruct (topics h !! topic) as [t|] eqn:Ht.
  - intros ([t' e] & Hpub & Hr)%obind_Ret.
    apply obind_Ret in Hr as ([h1 es1] & Hr & [= <- _]).
    eapply Pub_range_within; [|done].
    apply (topics_within_put h (Exact topic)); [done|].
    eapply Topic_Pub_within; [|done]. by apply (Hw (Exact topic)).
  - by intros [= <- _].
Qed.

Lemma Sub_step_within σ h k t σ' t' ch e :
  heap_within (queueSize h) σ → topics_within h →
  topic_inv (queueSize h) σ t → within_cap (pubChan t) →
  Topic_Sub σ t = Ret (σ', t', ch, e) →
  heap_within (queueSize h) σ' ∧ topics_within (put_topic h k t').
Proof.
  intros Hh Ht Hti Hw
    [(_ & -> & -> & _)|(_ & _ & Hq & m & _ & -> & -> & _)]%Topic_Sub_Ret.
  - split; [done|by apply topics_within_put].
  - split; [|by apply topics_within_put].
    apply heap_within_app; [done| |apply (ti_cap _ _ _ Hti)].
    unfold within_cap. simpl. lia.
Qed.

Lemma Unsub_step_within σ h k t x σ' t' e h' :
  heap_within (queueSize h) σ → topics_within h →
  get_topic h k = Some t →
  Topic_Unsub σ t x = Ret (σ', t', e) →
  h' = del_topic h k ∨ h' = put_topic h k t' →
  heap_within (queueSize h') σ' ∧ topics_within h'.
Proof.
  intros Hh Ht Hk Hu Hh'.
  assert (heap_within (queueSize h) σ' ∧ pubChan t' = pubChan t) as [Hh1 Hp].
  { apply Topic_Unsub_Ret in Hu as [(_ & -> & -> & _)|(_ & _ & _ & Hu)]; [done|].
    apply Topic_unsub_Ret in Hu as (k0 & v & c & m & _ & _ & _ & Hv & _ & -> & ->).
    split; [|done]. eapply heap_within_insert; [done|done|done|]. by left. }
  destruct Hh' as [-> | ->].
  - destruct (del_topic_frame h k) as (-> & _). split; [done|].
    by apply topics_within_del.
  - destruct (put_topic_frame h k t') as (-> & _). split; [done|].
    apply topics_within_put; [done|]. rewrite Hp. by apply (Ht k).
Qed.

Lemma hstep_within l σ h σ' h' :
  hub_inv σ h → heap_within (queueSize h) σ → topics_within h →
  hstep l (σ, h) = Ret (σ', h') →
  heap_within (queueSize h') σ' ∧ topics_within h'.
Proof.
  intros Hi Hh Ht Hs. pose proof (hi_q _ _ Hi) as Hq.
  destruct l as [topic msg|topic|topic ch|p|p ch| |k msg|k ks|k|k|ch];
    simpl in Hs.
  - apply obind_Ret in Hs as ([h1 es] & Hp & [= <- <-]).
    destruct (Hub_Pub_frame _ _ _ _ _ Hp) as (-> & _).
    split; [done|by eapply Hub_Pub_within].
  - apply obind_Ret in Hs as ([[[σ1 h1] c] es] & Hp & [= <- <-]).
    apply Hub_Sub_Ret in Hp as (t & t' & e & Hsl & Hp & -> & _).
    destruct (put_topic_frame h (Exact topic) t') as (-> & _).
    eapply Sub_step_within; try done.
    + destruct Hsl as [Hk|[_ Hn]]; [by apply (hi_topic _ _ Hi (Exact topic))|].
      by eapply NewTopic_inv.
    + destruct Hsl as [Hk|[_ [_ ->]%NewTopic_Ret]]; [by apply (Ht (Exact topic))|].
      unfold within_cap. simpl. lia.
  - apply obind_Ret in Hs as ([[σ1 h1] es] & Hp & [= <- <-]).
    apply Hub_Unsub_Ret in Hp
      as [(_ & -> & -> & _)|(t & t' & e & Hk & Hu & _ & Hh')]; [done|].
    eapply (Unsub_step_within σ h (Exact topic)); try done. tauto.
  - apply obind_Ret in Hs as ([[[σ1 h1] c] es] & Hp & [= <- <-]).
    apply Hub_PSub_Ret in Hp as (t & t' & e & h0 & Hsl & Hp & -> & _).
    destruct (put_topic_frame h0 (Pattern p) t') as (-> & _).
    assert (queueSize h0 = queueSize h ∧ topics_within h0 ∧
            topic_inv (queueSize h) σ t ∧ within_cap (pubChan t))
      as (Hq0 & Ht0 & Hti & Hw).
    { destruct Hsl as [[Hk ->]|(_ & Hn & g & _ & ->)].
      - split; [done|]. split; [done|].
        split; [by apply (hi_topic _ _ Hi (Pattern p))|by apply (Ht (Pattern p))].
      - split; [done|]. split; [intros k0 t0 Hk0; apply (Ht k0 t0); by destruct k0|].
        split; [by eapply NewTopic_inv|].
        apply NewTopic_Ret in Hn as [_ ->]. unfold within_cap. simpl. lia. }
    rewrite Hq0. rewrite <-Hq0 in Hh, Hti. rewrite <-Hq0.
    by eapply Sub_step_within.
  - apply obind_Ret in Hs as ([[σ1 h1] es] & Hp & [= <- <-]).
    apply Hub_PUnsub_Ret in Hp
      as [(_ & -> & -> & _)|(t & t' & e & Hk & Hu & _ & Hh')]; [done|].
    eapply (Unsub_step_within σ h (Pattern p)); try done. tauto.
  - injection Hs as <- <-. split; [done|]. intros k t.
    rewrite get_topic_Close. intros (t0 & Hk & ->)%fmap_Some. exact (Ht k t0 Hk).
  - destruct (get_topic h k) as [t|] eqn:Hk; [|done].
    apply obind_Ret in Hs as ([t' e] & Hp & [= <- <-]).
    destruct (put_topic_frame h k t') as (-> & _). split; [done|].
    apply topics_within_put; [done|].
    eapply Topic_Pub_within; [|done]. exact (Ht k t Hk).
  - destruct (get_topic h k) as [t|] eqn:Hk; [|done].
    apply obind_Ret in Hs as (t' & Hp & [= <- <-]).
    destruct (put_topic_frame h k t') as (-> & _). split; [done|].
    apply topics_within_put; [done|].
    apply run_recv_Ret in Hp as (msg & _ & _ & Hb & ->).
    pose proof (Ht k t Hk) as Hw. unfold within_cap in *. simpl.
    rewrite length_drop. lia.
  - destruct (get_topic h k) as [t|] eqn:Hk; [|done].
    apply obind_Ret in Hs as ([σ1 t'] & Hp & [= <- <-]).
    destruct (put_topic_frame h k t') as (-> & _).
    apply run_deliver_Ret in Hp as (msg & c0 & rest & c & _ & Hc & _ & Hroom & -> & ->).
    split; [|apply topics_within_put; [done|exact (Ht k t Hk)]].
    eapply heap_within_insert; [done|done|done|]. right. simpl.
    rewrite length_app. simpl. lia.
  - destruct (get_topic h k) as [t|] eqn:Hk; [|done].
    apply obind_Ret in Hs as ([σ1 t'] & Hp & [= <- <-]).
    destruct (put_topic_frame h k t') as (-> & _).
    destruct (run_watch_Ret _ _ _ _ _ (hi_topic _ _ Hi _ _ Hk) Hp)
      as (_ & _ & _ & -> & _ & Hout & Hin).
    split; [|apply topics_within_put; [done|exact (Ht k t Hk)]].
    intros i c Hc. destruct (decide (i ∈ sub_dom t)) as [Hi'|Hi'].
    + rewrite Hin in Hc by done. apply fmap_Some in Hc as (c0 & Hc0 & ->).
      by apply (Hh i c0).
    + rewrite Hout in Hc by done. by apply (Hh i).
  - apply obind_Ret in Hs as ([m σ1] & Hp & [= <- <-]).
    apply consume_Ret in Hp as (c & Hc & Hb & ->). split; [|done].
    eapply heap_within_insert; [done|done|done|]. left. simpl.
    rewrite length_drop. lia.
Qed.

(** X17.  Queues are bounded.  In every reachable state every subscriber
    channel and every intake queue has the capacity [queueSize] given to
    [NewHub] and holds at most that many messages: a sender that finds a
    queue full waits, and nothing is ever dropped or overwritten to make
    room. *)
Theorem queues_never_exceed_queueSize σ h :
  reachable (σ, h) →
  (∀ ch c, σ !! ch = Some c →
     (Z.of_nat (length (buf c)) ≤ queueSize h)%Z ∧ cap c = queueSize h) ∧
  (∀ k t, get_topic h k = Some t →
     (Z.of_nat (length (buf (pubChan t))) ≤ queueSize h)%Z ∧
     cap (pubChan t) = queueSize h).
Proof.
  intros Hr.
  assert (heap_within (queueSize h) σ ∧ topics_within h) as [Hh Ht].
  { remember (σ, h) as s eqn:Hs. revert σ h Hs.
    induction Hr as [q Hq|l [σ0 h0] [σ1 h1] Hr IH Hstep]; intros σ h [= <- <-].
    - split; [by intros ch c Hc; rewrite lookup_nil in Hc|].
      intros [s|p] t; simpl; by rewrite lookup_empty.
    - destruct (IH _ _ eq_refl) as [Hh Ht].
      eapply hstep_within; [by apply reachable_inv|done|done|done]. }
  split.
  - intros ch c Hc. destruct (Hh _ _ Hc) as [Hw Hq]. unfold within_cap in Hw.
    split; [lia|done].
  - intros k t Hk. pose proof (Ht _ _ Hk) as Hw.
    pose proof (ti_cap _ _ _ (hi_topic _ _ (reachable_inv _ _ Hr) _ _ Hk)) as Hq.
    unfold within_cap in Hw. split; [lia|done].
Qed.

(** ** Coming to rest *)

(** When no goroutine and no subscriber can take a step, nothing is left
    in any queue. *)
Lemma stuck_hub_is_empty σ h :
  hub_inv σ h →
  (∀ l s', internal l = true → hstep l (σ, h) ≠ Ret s') →
  (∀ ch c, σ !! ch = Some c → buf c = []) ∧
  (∀ k t, get_topic h k = Some t → buf (pubChan t) = [] ∧ bcast t = None).
Proof.
  intros Hi Hstuck.
  assert (Hheap : ∀ ch c, σ !! ch = Some c → buf c = []).
  { intros ch c Hc. destruct (buf c) as [|m b] eqn:Hb; [done|].
    exfalso. eapply (Hstuck (LConsume ch)); [done|]. simpl.
    assert (Hcs : consume σ ch
                  = Ret (m, <[ch := Chan (drop 1 (buf c)) (cap c) (closed c)]> σ)).
    { apply consume_Ret. exists c. by rewrite Hb. }
    rewrite Hcs. done. }
  split; [done|]. intros k t Hk.
  pose proof (hi_topic _ _ Hi _ _ Hk) as Hti. pose proof (hi_q _ _ Hi) as Hq.
  assert (Hb : bcast t = None).
  { destruct (bcast t) as [[msg rest]|] eqn:Hb; [|done]. exfalso.
    destruct (ti_bcast _ _ _ Hti _ _ Hb) as (Hne & _ & Hin).
    destruct rest as [|c0 rest]; [done|].
    destruct (topic_inv_lookup _ _ _ c0 Hti) as (_ & cc & Hcc & Hco & Hcq);
      [apply Hin; set_solver|].
    eapply (Hstuck (LDeliver k)); [done|]. simpl. rewrite Hk.
    assert (Hrd : run_deliver σ t
                  = Ret (<[c0 := Chan (buf cc ++ [msg]) (cap cc) false]> σ,
                         set_bcast t (pending msg rest))).
    { apply run_deliver_Ret. exists msg, c0, rest, cc. split_and!; try done.
      rewrite (Hheap _ _ Hcc). simpl. lia. }
    rewrite Hrd. done. }
  split; [|done].
  destruct (buf (pubChan t)) as [|m b] eqn:Hbuf; [done|]. exfalso.
  assert (Hrr : ∃ t', run_recv t (elements (sub_dom t)) = Ret t').
  { eexists. apply run_recv_Ret. exists m. split_and!; try done.
    - apply range_order_spec. split; [apply NoDup_elements|].
      apply list_to_set_elements_L.
    - by rewrite Hbuf. }
  destruct Hrr as [t' Hrr].
  eapply (Hstuck (LRecv k (elements (sub_dom t)))); [done|]. simpl.
  rewrite Hk, Hrr. done.
Qed.

(** X18.  Left to themselves -- no further call of a method of the Hub --
    the goroutines and the subscribers take at most [work] steps, and when
    none of them can take a step any more, nothing is left in a queue:
    the intake queue of every registered Topic and every subscriber channel
    is empty, and no broadcast is in flight.  (This says where the messages
    are not: a message taken from the intake queue of a Topic has gone to
    the subscribers registered at that time, if any.) *)
Theorem goroutines_come_to_rest_with_empty_queues σ h ls σ' h' :
  reachable (σ, h) →
  Forall (λ l, internal l = true) ls → hrun ls (σ, h) = Ret (σ', h') →
  (length ls ≤ work (σ, h))%nat ∧
  ((∀ l s'', internal l = true → hstep l (σ', h') ≠ Ret s'') →
   (∀ ch c, σ' !! ch = Some c → buf c = []) ∧
   (∀ k t, get_topic h' k = Some t → buf (pubChan t) = [] ∧ bcast t = None)).
Proof.
  intros Hi%reachable_inv Hls Hr. split.
  - destruct (internal_run_work _ _ _ _ _ Hi Hls Hr) as [Hw _]. lia.
  - apply stuck_hub_is_empty. by eapply hrun_inv.
Qed.

(** ** Ownership of the subscriber channels *)

(** X19.  In every reachable state a channel that is registered in a Topic
    is allocated and open, and it is registered in that Topic only: a
    message published to one Topic is never sent on a channel of another,
    and never on a closed channel. *)
Theorem subscriber_channel_has_one_owner σ h k t ch :
  reachable (σ, h) → get_topic h k = Some t → ch ∈ sub_dom t →
  (∃ c, σ !! ch = Some c ∧ closed c = false) ∧
  (∀ k' t', get_topic h k' = Some t' → ch ∈ sub_dom t' → k' = k) ∧
  (∀ msg rest, bcast t = Some (msg, rest) → rest ⊆ elements (sub_dom t)).
Proof.
  intros Hi%reachable_inv Hk Hin.
  pose proof (hi_topic _ _ Hi _ _ Hk) as Hti. split_and!.
  - destruct (topic_inv_lookup _ _ _ _ Hti Hin) as (_ & c & Hc & Ho & _).
    by exists c.
  - intros k' t' Hk' Hin'. by eapply (hi_disj _ _ Hi k' k).
  - intros msg rest Hb x Hx. apply elem_of_elements.
    by apply (ti_bcast _ _ _ Hti _ _ Hb).
Qed.

(** ** Unsub twice *)

(** X20.  A second [Unsub] of the same channel.  After [Unsub(topic, ch)]
    of a subscribed channel on a Hub that is not closed, the same call
    again is a no-op when [ch] was the last subscriber (the Topic is gone),
    and panics when the Topic still has subscribers: [ch] is no longer in
    [subChans], and [unsub] closes the nil channel it finds there. *)
Theorem Unsub_twice σ h topic t ch :
  reachable (σ, h) → hdone h = false → topics h !! topic = Some t →
  bcast t = None → ch ∈ sub_dom t →
  ∃ σ1 h1,
    Hub_Unsub σ h topic (Some ch) = Ret (σ1, h1, []) ∧
    Hub_Unsub σ1 h1 topic (Some ch)
    = if decide (Topic_SubLen t = 1) then Ret (σ1, h1, []) else Panic.
Proof.
  intros Hi%reachable_inv Hd Hk Hb Hin.
  destruct (Topic_Unsub_last σ h (Exact topic) t ch Hi Hd Hk Hb Hin)
    as (c & Hc & Ho & Hu & Hz).
  destruct (hi_open _ _ Hi Hd (Exact topic) t Hk) as [Htd _].
  set (t' := set_subChans t (delete ch <$> subChans t)) in *.
  case_decide as H1.
  - exists (<[ch := closed_chan c]> σ), (set_topics h (delete topic (topics h))).
    unfold Hub_Unsub. rewrite Hk, Hu. simpl.
    rewrite decide_True by (by apply Hz). split; [done|].
    by rewrite lookup_delete_eq.
  - exists (<[ch := closed_chan c]> σ),
           (set_topics h (<[topic := t']> (topics h))).
    unfold Hub_Unsub. rewrite Hk, Hu. simpl.
    rewrite decide_False by (by rewrite Hz). split; [done|].
    rewrite lookup_insert_eq.
    rewrite Topic_Unsub_absent_panics; [done|done|done|].
    unfold sub_lookup, t'. simpl. destruct (subChans t) as [m|]; [|done].
    simpl. apply lookup_delete_eq.
Qed.

End Broker.

(** * The Hub on concrete inputs

    Messages and compiled matchers are strings, as in the example program of
    the repository. *)

Section Examples.

Local Open Scope string_scope.

(** The run of the example program of the repository, with the goroutines
    scheduled after the six calls of [Pub]: the four subscriber channels
    hold what the transcript in the README shows, and the messages 3 and 6,
    published to [/some/topic/3], have reached no one. *)
Example README_run :
  let t1 := "/some/topic/1" in
  let t2 := "/some/topic/2" in
  let t3 := "/some/topic/3" in
  let p := "/some/topic/*" in
  match
    hrun [LSub t1; LSub t1; LSub t2; LPSub p;
          LPub t1 "message 1 !"; LPub t2 "message 2 !"; LPub t3 "message 3 !";
          LPub t1 "message 4 !"; LPub t2 "message 5 !"; LPub t3 "message 6 !";
          LRecv (Exact t1) [0; 1]; LDeliver (Exact t1); LDeliver (Exact t1);
          LRecv (Exact t1) [1; 0]; LDeliver (Exact t1); LDeliver (Exact t1);
          LRecv (Exact t2) [2]; LDeliver (Exact t2);
          LRecv (Exact t2) [2]; LDeliver (Exact t2);
          LRecv (Pattern p) [3]; LDeliver (Pattern p);
          LRecv (Pattern p) [3]; LDeliver (Pattern p);
          LRecv (Pattern p) [3]; LDeliver (Pattern p);
          LRecv (Pattern p) [3]; LDeliver (Pattern p)]
         ([], NewHub (Msg:=string) (Glob:=string) 32)
  with
  | Ret (σ, _) =>
      σ = [Chan ["message 1 !"; "message 4 !"] 32 false;
           Chan ["message 1 !"; "message 4 !"] 32 false;
           Chan ["message 2 !"; "message 5 !"] 32 false;
           Chan ["message 1 !"; "message 2 !"; "message 4 !"; "message 5 !"]
                32 false]
  | _ => False
  end.
Proof. vm_compute. reflexivity. Qed.

(** C1 (the code differs).  With the only subscriber of the Hub on the
    pattern [/a/*], whose matcher accepts [/a/1], [Pub("/a/1", "m1")] takes
    the early return of the exact-topic lookup: the Hub is unchanged and the
    intake queue of the pattern Topic stays empty.  With a subscriber on
    [/a/1] as well, the same call reaches the pattern Topic. *)
Theorem Pub_without_exact_Topic_skips_patterns :
  (∃ (σ : list (chan (Msg:=string))) (h : hub (Msg:=string) (Glob:=string)) t g,
     hrun [LPSub "/a/*"] ([], NewHub 2) = Ret (σ, h) ∧
     ptopics h !! "/a/*" = Some t ∧ done t = false ∧ Topic_SubLen t = 1%nat ∧
     buf (pubChan t) = [] ∧
     regexps h !! "/a/*" = Some g ∧ Match g "/a/1" = true ∧
     topics h !! "/a/1" = None ∧
     Hub_Pub h "/a/1" "m1" = Ret (h, [])) ∧
  (∃ (σ : list (chan (Msg:=string))) (h h' : hub (Msg:=string) (Glob:=string)) t,
     hrun [LPSub "/a/*"; LSub "/a/1"] ([], NewHub 2) = Ret (σ, h) ∧
     Hub_Pub h "/a/1" "m1" = Ret (h', []) ∧
     ptopics h' !! "/a/*" = Some t ∧ buf (pubChan t) = ["m1"]).
Proof.
  split.
  - eexists _, _, _, _. split; [reflexivity|].
    split; [vm_compute; reflexivity|].
    repeat split; vm_compute; reflexivity.
  - eexists _, _, _, _. split; [reflexivity|].
    split; [vm_compute; reflexivity|].
    split; vm_compute; reflexivity.
Qed.

(** C2 (the code differs).  [Topic.Unsub] of a channel that is not
    registered -- never subscribed, nil, or unsubscribed before -- closes
    the nil channel that the map lookup yields, and panics: on a fresh
    Topic, on a Topic with two subscribers when the first unsubscribes
    twice, and through [Hub.Unsub] called twice with the same channel. *)
Theorem Unsub_of_unknown_channel_panics :
  (∀ t : topic (Msg:=string), NewTopic false 2 = Ret t →
     Topic_Unsub [] t (Some 0) = Panic ∧ Topic_Unsub [] t None = Panic ∧
     ∃ s log, trun [TSub; TSub; TUnsub (Some 0)] ([], t) [] = Ret (s, log) ∧
              tstep (TUnsub (Some 0)) s = Panic) ∧
  ∃ s : list (chan (Msg:=string)) * hub (Msg:=string) (Glob:=string),
    hrun [LSub "/x"; LSub "/x"; LUnsub "/x" (Some 0)] ([], NewHub 2) = Ret s ∧
    hstep (LUnsub "/x" (Some 0)) s = Panic.
Proof.
  split.
  - intros t [= <-]. split; [reflexivity|]. split; [reflexivity|].
    eexists _, _. split; [reflexivity|]. vm_compute. reflexivity.
  - eexists. split; [reflexivity|]. vm_compute. reflexivity.
Qed.

(** C4 (the code differs).  [PUnsub] of the last subscriber of a pattern
    deletes the Topic of the pattern and keeps its compiled matcher: the
    pattern registry is empty and the matcher map is not. *)
Theorem PUnsub_leaves_the_matcher :
  ∃ (σ : list (chan (Msg:=string))) (h : hub (Msg:=string) (Glob:=string)),
    hrun [LPSub "/a/*"; LPUnsub "/a/*" (Some 0)] ([], NewHub 2) = Ret (σ, h) ∧
    dom (ptopics h) = ∅ ∧ dom (regexps h) = {["/a/*"]}.
Proof.
  eexists _, _. split; [reflexivity|]. split; vm_compute; reflexivity.
Qed.


(** C5 (counterexample).  On a closed Hub, [Sub("/x")] returns to its
    caller a nil channel and no error; the [ErrTopicAlreadyClosed] of
    [Topic.Sub] has gone to the blank identifier. *)
Lemma Sub_discards_AlreadyClosed :
  ∃ (σ : list (chan (Msg:=string))) (h : hub (Msg:=string) (Glob:=string)) σ' h',
    reachable (σ, h) ∧
    Hub_Sub σ h "/x" = Ret (σ', h', None, [ErrTopicAlreadyClosed]).
Proof.
  eexists _, _, _, _. split.
  - apply (hrun_reachable [LClose] ([], NewHub 2)).
    + by apply reachable_new.
    + reflexivity.
  - reflexivity.
Qed.


(** ** The general theorems at concrete inputs *)

(** C6 on a new Topic with room in its intake queue. *)
Lemma Topic_Pub_closed_iff_cancelled_witness :
  let t := Topic (Chan [] 2 false) (Some ∅) false None in
  live_topic (Msg:=string) (Glob:=string) 2 [] t ∧
  Topic_Pub t "m" = Ret (Topic (Chan ["m"] 2 false) (Some ∅) false None, None).
Proof.
  intros t.
  assert (Hl : live_topic (Msg:=string) (Glob:=string) 2 [] t).
  { left. apply (treachable_new 2 false); [lia|reflexivity]. }
  split; [exact Hl|].
  exact (proj1 (Topic_Pub_closed_iff_cancelled 2 [] t "m" Hl)).
Defined.

(** C8 on a new Topic: the first subscriber gets the channel 0. *)
Lemma Topic_Sub_allocates_queue_witness :
  let t := Topic (Chan [] 2 false) (Some ∅) false None in
  live_topic (Msg:=string) (Glob:=string) 2 [] t ∧
  Topic_Sub [] t =
    Ret ([Chan [] 2 false],
         Topic (Chan [] 2 false) (Some (<[0 := 0]> ∅)) false None, Some 0, None).
Proof.
  intros t.
  assert (Hl : live_topic (Msg:=string) (Glob:=string) 2 [] t).
  { left. apply (treachable_new 2 false); [lia|reflexivity]. }
  split; [exact Hl|].
  exact (proj1 (proj2 (Topic_Sub_allocates_queue 2 [] t Hl))).
Defined.

(** C10 on a Hub that is closed right after [NewHub(2)]. *)
Lemma Sub_on_closed_Hub_registers_dead_Topic_witness :
  let h : hub (Msg:=string) (Glob:=string) := Hub_Close (NewHub 2) in
  let dead : topic (Msg:=string) := Topic (Chan [] 2 false) (Some ∅) true None in
  hdone h = true ∧ topics h !! "/x" = None ∧ ptopics h !! "/a/*" = None ∧
  (∃ h', Hub_Sub [] h "/x" = Ret ([], h', None, [ErrTopicAlreadyClosed]) ∧
         topics h' !! "/x" = Some dead ∧ dom (topics h') = {["/x"]} ∪ ∅) ∧
  (∃ h', Hub_PSub [] h "/a/*" = Ret ([], h', None, [ErrTopicAlreadyClosed]) ∧
         ptopics h' !! "/a/*" = Some dead ∧ regexps h' !! "/a/*" = Some "/a/*" ∧
         dom (ptopics h') = {["/a/*"]} ∪ ∅).
Proof.
  intros h dead. split; [reflexivity|]. split; [reflexivity|].
  split; [reflexivity|].
  assert (Hq : (0 ≤ queueSize h)%Z) by (simpl; lia).
  assert (Hg0 : MustCompile "/a/*" = Some "/a/*") by reflexivity.
  destruct (Sub_on_closed_Hub_registers_dead_Topic [] h "/x" "/a/*" "/a/*"
              eq_refl Hq eq_refl eq_refl Hg0)
    as (_ & (h1 & Hs & Hl & Hdom & _) & (h2 & Hps & Hpl & Hg & Hpdom & _)).
  split.
  - exists h1. split; [exact Hs|]. split; [exact Hl|].
    rewrite Hdom. simpl. by rewrite !fmap_empty, dom_empty_L.
  - exists h2. split; [exact Hps|]. split; [exact Hpl|]. split; [exact Hg|].
    rewrite Hpdom. simpl. by rewrite !fmap_empty, dom_empty_L.
Defined.


(** C5 on a Hub that is closed right after [NewHub(2)]. *)
Lemma Hub_discards_Topic_errors_witness :
  let h : hub (Msg:=string) (Glob:=string) := Hub_Close (NewHub 2) in
  reachable ([], h) ∧
  ∀ topic σ' h' ch es, Hub_Sub [] h topic = Ret (σ', h', ch, es) →
    (ch = None ↔ es ≠ []) ∧ (es ≠ [] → hdone h = true).
Proof.
  intros h.
  assert (Hr : reachable ([], h)).
  { apply (hrun_reachable [LClose] ([], NewHub 2)).
    - apply reachable_new. lia.
    - reflexivity. }
  split; [exact Hr|].
  exact (proj1 (Hub_discards_Topic_errors [] h Hr)).
Defined.



(** ** The further properties at concrete inputs *)

(** [Unsub] of the only subscriber of a Topic registered under [/x]. *)
Lemma Topic_Unsub_closes_and_removes_witness :
  let σ : list (chan (Msg:=string)) := [Chan [] 2 false] in
  let t : topic (Msg:=string) :=
    Topic (Chan [] 2 false) (Some {[0 := 0]}) false None in
  live_topic (Glob:=string) 2 σ t ∧ 0 ∈ sub_dom t ∧
  ∃ σ' t', Topic_Unsub σ t (Some 0) = Ret (σ', t', None) ∧
           sub_dom t' = sub_dom t ∖ {[0]}.
Proof.
  intros σ t.
  assert (Hl : live_topic (Glob:=string) 2 σ t).
  { right. exists (Hub 2 {["/x" := t]} ∅ ∅ false), (Exact "/x").
    split; [|split; reflexivity].
    apply (hrun_reachable [LSub "/x"] ([], NewHub 2)).
    - apply reachable_new. lia.
    - vm_compute. reflexivity. }
  assert (Hin : 0 ∈ sub_dom t).
  { apply elem_of_sub_dom. exists {[0 := 0]}, 0. split; reflexivity. }
  split; [exact Hl|]. split; [exact Hin|].
  destruct (Topic_Unsub_closes_and_removes 2 σ t 0 Hl eq_refl eq_refl Hin)
    as (c & σ' & t' & _ & _ & Hu & _ & _ & Hd & _).
  exists σ', t'. split; [exact Hu|exact Hd].
Defined.

(** [Sub] and [Unsub] on a new Topic. *)
Lemma Topic_Sub_Unsub_round_trip_witness :
  let t : topic (Msg:=string) := Topic (Chan [] 2 false) (Some ∅) false None in
  live_topic (Glob:=string) 2 [] t ∧
  ∃ σ1 t1,
    Topic_Sub [] t = Ret (σ1, t1, Some 0, None) ∧
    Topic_Unsub σ1 t1 (Some 0) = Ret ([Chan [] 2 true], t, None).
Proof.
  intros t.
  assert (Hl : live_topic (Msg:=string) (Glob:=string) 2 [] t).
  { left. apply (treachable_new 2 false); [lia|reflexivity]. }
  split; [exact Hl|].
  exact (Topic_Sub_Unsub_round_trip 2 [] t Hl eq_refl eq_refl).
Defined.


(** The watcher of the Topic of [/x] after [Sub("/x")] and [Close()]. *)
Lemma watcher_closes_every_subscriber_witness :
  let σ : list (chan (Msg:=string)) := [Chan [] 2 false] in
  let t : topic (Msg:=string) :=
    Topic (Chan [] 2 false) (Some {[0 := 0]}) true None in
  live_topic (Glob:=string) 2 σ t ∧
  ∃ σ' t', run_watch σ t = Ret (σ', t') ∧ closed (pubChan t') = true ∧
           subChans t' = None ∧ run_watch σ' t' = Block.
Proof.
  intros σ t.
  assert (Hl : live_topic (Glob:=string) 2 σ t).
  { right. exists (Hub 2 {["/x" := t]} ∅ ∅ true), (Exact "/x").
    split; [|split; reflexivity].
    apply (hrun_reachable [LSub "/x"; LClose] ([], NewHub 2)).
    - apply reachable_new. lia.
    - vm_compute. reflexivity. }
  split; [exact Hl|].
  destruct (watcher_closes_every_subscriber 2 σ t Hl eq_refl eq_refl eq_refl)
    as (σ' & t' & Hw & Hc & _ & Hs & _ & _ & _ & _ & Hb).
  exists σ', t'. split; [exact Hw|]. split; [exact Hc|]. split; [exact Hs|exact Hb].
Defined.

(** [Pub] on a cancelled Topic. *)
Lemma cancelled_Topic_takes_nothing_in_witness :
  let t : topic (Msg:=string) := Topic (Chan [] 2 false) (Some ∅) true None in
  tstep (TPub "m") ([], t) = Ret ([], t, []) ∧
  done t = true ∧ length ([] : list (chan (Msg:=string))) = 0 ∧
  buf (pubChan t) `suffix_of` buf (pubChan t) ∧
  sub_dom t ⊆ sub_dom t ∧
  Forall (λ e : event (Msg:=string), is_observation e = true) [].
Proof.
  intros t. split; [reflexivity|].
  exact (cancelled_Topic_takes_nothing_in (TPub "m") [] t [] t [] eq_refl eq_refl).
Defined.

(** One message, one subscriber with an empty queue. *)
Lemma broadcast_reaches_every_subscriber_witness :
  let σ : list (chan (Msg:=string)) := [Chan [] 2 false] in
  let t : topic (Msg:=string) :=
    Topic (Chan ["m"] 2 false) (Some {[0 := 0]}) false None in
  live_topic (Glob:=string) 2 σ t ∧ range_order t [0] = true ∧
  ∃ σ' t', trun [TRecv [0]; TDeliver] (σ, t) [] = Ret (σ', t', []) ∧
           buf (pubChan t') = [] ∧
           σ' !! 0 = Some (Chan ["m"] 2 false).
Proof.
  intros σ t.
  assert (Hl : live_topic (Glob:=string) 2 σ t).
  { right. exists (Hub 2 {["/x" := t]} ∅ ∅ false), (Exact "/x").
    split; [|split; reflexivity].
    apply (hrun_reachable [LSub "/x"; LPub "/x" "m"] ([], NewHub 2)).
    - apply reachable_new. lia.
    - vm_compute. reflexivity. }
  assert (Ho : range_order t [0] = true) by (vm_compute; reflexivity).
  assert (Hroom : ∀ k c, k ∈ sub_dom t → σ !! k = Some c →
                         (Z.of_nat (length (buf c)) < 2)%Z).
  { intros [|k] c _ Hc; simpl in Hc.
    - injection Hc as <-. simpl. lia.
    - destruct k; discriminate Hc. }
  split; [exact Hl|]. split; [exact Ho|].
  destruct (broadcast_reaches_every_subscriber 2 σ t "m" [] [0] []
              Hl eq_refl eq_refl Ho Hroom)
    as (σ' & t' & Hr & Hb & _ & _ & _ & _ & Hk).
  exists σ', t'. split; [exact Hr|]. split; [exact Hb|].
  rewrite (Hk 0). reflexivity.
Defined.

(** A Topic of queue size 1 whose subscriber has not received the first
    message when the second is broadcast. *)
Lemma full_subscriber_queue_stalls_the_Topic_witness :
  let σ : list (chan (Msg:=string)) := [Chan ["a"] 1 false] in
  let t : topic (Msg:=string) :=
    Topic (Chan [] 1 false) (Some {[0 := 0]}) false (Some ("b", [0])) in
  live_topic (Glob:=string) 1 σ t ∧
  run_deliver σ t = Block ∧
  (∀ ks, run_recv t ks = Block) ∧
  run_watch σ t = Block ∧
  Topic_Sub σ t = Block.
Proof.
  intros σ t.
  assert (Hl : live_topic (Glob:=string) 1 σ t).
  { right. exists (Hub 1 {["/x" := t]} ∅ ∅ false), (Exact "/x").
    split; [|split; reflexivity].
    apply (hrun_reachable
             [LSub "/x"; LPub "/x" "a"; LRecv (Exact "/x") [0];
              LDeliver (Exact "/x"); LPub "/x" "b"; LRecv (Exact "/x") [0]]
             ([], NewHub 1)).
    - apply reachable_new. lia.
    - vm_compute. reflexivity. }
  split; [exact Hl|].
  destruct (full_subscriber_queue_stalls_the_Topic 1 σ t "b" 0 []
              (Chan ["a"] 1 false) Hl ltac:(lia) eq_refl eq_refl eq_refl)
    as (Hd & Hr & Hw & Hs & _).
  split; [exact Hd|]. split; [exact Hr|]. split; [exact Hw|].
  exact (proj1 (Hs eq_refl)).
Defined.


(** A message for [/a/x] with a subscriber of [/a/x], one of the pattern
    [/a/*] and one of the pattern [/b/*]. *)
Lemma Pub_routes_to_exact_and_matching_patterns_witness :
  let t : nat → topic (Msg:=string) :=
    λ n, Topic (Chan [] 2 false) (Some {[n := n]}) false None in
  let h : hub (Msg:=string) (Glob:=string) :=
    Hub 2 {["/a/x" := t 0]} {["/a/*" := t 1; "/b/*" := t 2]}
        {["/a/*" := "/a/*"; "/b/*" := "/b/*"]} false in
  topics h !! "/a/x" = Some (t 0) ∧
  ∃ h', Hub_Pub h "/a/x" "m" = Ret (h', []) ∧
        topics h' !! "/a/x" = Some (enqueue "m" (t 0)) ∧
        ptopics h' !! "/a/*" = Some (enqueue "m" (t 1)) ∧
        ptopics h' !! "/b/*" = Some (t 2).
Proof.
  intros t h.
  assert (Ht : topics h !! "/a/x" = Some (t 0)) by (vm_compute; reflexivity).
  split; [exact Ht|].
  assert (Hp : ∃ h', Hub_Pub h "/a/x" "m" = Ret (h', [])).
  { eexists. vm_compute. reflexivity. }
  destruct Hp as [h' Hp]. exists h'. split; [exact Hp|].
  destruct (Pub_routes_to_exact_and_matching_patterns h "/a/x" "m" (t 0) h' []
              Ht Hp) as (Hs & Hps & _).
  split; [|split].
  - rewrite (Hs "/a/x"). vm_compute. reflexivity.
  - rewrite (Hps "/a/*"). vm_compute. reflexivity.
  - rewrite (Hps "/b/*"). vm_compute. reflexivity.
Defined.

(** [Pub("/a/x", _)] on a Hub with a subscriber of [/a/x], whose intake
    queue is full, and one of the pattern [/b/*], which does not match: the
    call is suspended; with room in the queue of [/a/x] it returns. *)
Lemma Pub_returns_iff_routed_queues_have_room_witness :
  let σ : list (chan (Msg:=string)) := [Chan [] 1 false; Chan [] 1 false] in
  let t : list string → nat → topic (Msg:=string) :=
    λ b n, Topic (Chan b 1 false) (Some {[n := n]}) false None in
  let h : list string → hub (Msg:=string) (Glob:=string) :=
    λ b, Hub 1 {["/a/x" := t b 0]} {["/b/*" := t ["m"] 1]}
             {["/b/*" := "/b/*"]} false in
  reachable (σ, h ["m"]) ∧ reachable (σ, h []) ∧
  Hub_Pub (h ["m"]) "/a/x" "n" = Block ∧
  ∃ h' es, Hub_Pub (h []) "/a/x" "n" = Ret (h', es).
Proof.
  intros σ t h.
  assert (Hr1 : reachable (σ, h ["m"])).
  { apply (hrun_reachable
             [LSub "/a/x"; LPSub "/b/*"; LPub "/a/x" "m";
              LPubPart (Pattern "/b/*") "m"] ([], NewHub 1)).
    - apply reachable_new. lia.
    - vm_compute. reflexivity. }
  assert (Hr0 : reachable (σ, h [])).
  { apply (hrun_reachable
             [LSub "/a/x"; LPSub "/b/*"; LPubPart (Pattern "/b/*") "m"]
             ([], NewHub 1)).
    - apply reachable_new. lia.
    - vm_compute. reflexivity. }
  assert (Hs1 : is_Some (topics (h ["m"]) !! "/a/x")) by (by eexists).
  assert (Hs0 : is_Some (topics (h []) !! "/a/x")) by (by eexists).
  split; [exact Hr1|]. split; [exact Hr0|]. split.
  - apply (proj1 (proj2 (Pub_returns_iff_routed_queues_have_room
                           σ (h ["m"]) "/a/x" "n" Hr1 Hs1))).
    intros [Hex _]. specialize (Hex (t ["m"] 0) eq_refl eq_refl).
    simpl in Hex. lia.
  - apply (proj1 (Pub_returns_iff_routed_queues_have_room
                    σ (h []) "/a/x" "n" Hr0 Hs0)).
    split.
    + intros t0 Ht0 _. vm_compute in Ht0. injection Ht0 as <-. simpl. lia.
    + intros p t0 Ht0 Hacc. exfalso.
      destruct (decide (p = "/b/*")) as [->|Hne].
      * vm_compute in Hacc. discriminate Hacc.
      * unfold h in Ht0. simpl in Ht0.
        rewrite lookup_singleton_ne in Ht0 by done. discriminate Ht0.
Defined.

(** The matcher of [/a/*] on the Hub after [PSub("/a/*")]. *)
Lemma registered_pattern_has_its_matcher_witness :
  let σ : list (chan (Msg:=string)) := [Chan [] 2 false] in
  let h : hub (Msg:=string) (Glob:=string) :=
    Hub 2 ∅ {["/a/*" := Topic (Chan [] 2 false) (Some {[0 := 0]}) false None]}
        {["/a/*" := "/a/*"]} false in
  reachable (σ, h) ∧
  (is_Some (ptopics h !! "/a/*") → is_Some (regexps h !! "/a/*")) ∧
  (∀ g, regexps h !! "/a/*" = Some g → MustCompile "/a/*" = Some g).
Proof.
  intros σ h.
  assert (Hr : reachable (σ, h)).
  { apply (hrun_reachable [LPSub "/a/*"] ([], NewHub 2)).
    - apply reachable_new. lia.
    - vm_compute. reflexivity. }
  split; [exact Hr|].
  exact (registered_pattern_has_its_matcher σ h "/a/*" Hr).
Defined.

(** [Sub] after [Close] on a new Hub: the Hub stays closed. *)
Lemma Close_is_idempotent_and_final_witness :
  let h : hub (Msg:=string) (Glob:=string) := NewHub 2 in
  Hub_Close (Hub_Close h) = Hub_Close h ∧
  ∃ σ' h', hrun [LSub "/x"; LClose] ([], Hub_Close h) = Ret (σ', h') ∧
           hdone h' = true ∧ queueSize h' = 2%Z.
Proof.
  intros h.
  destruct (Close_is_idempotent_and_final h) as [Hc Hf].
  split; [exact Hc|].
  assert (Hr : ∃ σ' h', hrun [LSub "/x"; LClose] ([], Hub_Close h) = Ret (σ', h')).
  { eexists _, _. vm_compute. reflexivity. }
  destruct Hr as (σ' & h' & Hr). exists σ', h'. split; [exact Hr|].
  exact (Hf _ _ _ _ Hr).
Defined.

(** A second [Sub("/x")]. *)
Lemma Sub_on_open_Hub_witness :
  let σ : list (chan (Msg:=string)) := [Chan [] 2 false] in
  let t : topic (Msg:=string) :=
    Topic (Chan [] 2 false) (Some {[0 := 0]}) false None in
  let h : hub (Msg:=string) (Glob:=string) := Hub 2 {["/x" := t]} ∅ ∅ false in
  reachable (σ, h) ∧
  ∃ h', Hub_Sub σ h "/x"
        = Ret ([Chan [] 2 false; Chan [] 2 false], h', Some 1, []).
Proof.
  intros σ t h.
  assert (Hr : reachable (σ, h)).
  { apply (hrun_reachable [LSub "/x"] ([], NewHub 2)).
    - apply reachable_new. lia.
    - vm_compute. reflexivity. }
  assert (Hl : ∀ t0, topics h !! "/x" = Some t0 → bcast t0 = None).
  { intros t0 Ht0. vm_compute in Ht0. injection Ht0 as <-. reflexivity. }
  split; [exact Hr|].
  pose proof (Sub_on_open_Hub σ h "/x" Hr eq_refl Hl) as Hs.
  cbv zeta in Hs. destruct Hs as [Hs _]. eexists. exact Hs.
Defined.

(** The first [PSub("/a/*")] on a new Hub. *)
Lemma PSub_on_open_Hub_witness :
  let h : hub (Msg:=string) (Glob:=string) := NewHub 2 in
  reachable ([], h) ∧
  Hub_PSub [] h "/a/*"
  = Ret ([Chan [] 2 false],
         set_ptopics (set_regexps h (<["/a/*" := "/a/*"]> (regexps h)))
           (<["/a/*" := subscribed 0 (fresh_topic 2)]> (ptopics h)),
         Some 0, []).
Proof.
  intros h.
  assert (Hr : reachable ([], h)) by (apply reachable_new; lia).
  assert (Hl : ∀ t0, ptopics h !! "/a/*" = Some t0 → bcast t0 = None).
  { intros t0 Ht0. vm_compute in Ht0. discriminate Ht0. }
  split; [exact Hr|].
  exact (PSub_on_open_Hub [] h "/a/*" Hr eq_refl Hl).
Defined.

(** [Unsub] of the only subscriber of [/x]. *)
Lemma Unsub_removes_Topic_with_last_subscriber_witness :
  let σ : list (chan (Msg:=string)) := [Chan [] 2 false] in
  let t : topic (Msg:=string) :=
    Topic (Chan [] 2 false) (Some {[0 := 0]}) false None in
  let h : hub (Msg:=string) (Glob:=string) := Hub 2 {["/x" := t]} ∅ ∅ false in
  reachable (σ, h) ∧ 0 ∈ sub_dom t ∧
  ∃ c, σ !! 0 = Some c ∧ closed c = false ∧
       Hub_Unsub σ h "/x" (Some 0)
       = Ret (<[0 := closed_chan c]> σ, unsubscribed h (Exact "/x") t 0, []).
Proof.
  intros σ t h.
  assert (Hr : reachable (σ, h)).
  { apply (hrun_reachable [LSub "/x"] ([], NewHub 2)).
    - apply reachable_new. lia.
    - vm_compute. reflexivity. }
  assert (Hin : 0 ∈ sub_dom t).
  { apply elem_of_sub_dom. exists {[0 := 0]}, 0. split; reflexivity. }
  split; [exact Hr|]. split; [exact Hin|].
  assert (Hk : get_topic h (Exact "/x") = Some t) by (vm_compute; reflexivity).
  exact (Unsub_removes_Topic_with_last_subscriber σ h (Exact "/x") t 0
           Hr eq_refl Hk eq_refl Hin).
Defined.

(** [Sub("/x")] and [Unsub] on a new Hub. *)
Lemma Hub_Sub_Unsub_round_trip_witness :
  let h : hub (Msg:=string) (Glob:=string) := NewHub 2 in
  reachable ([], h) ∧
  ∃ σ1 h1,
    Hub_Sub [] h "/x" = Ret (σ1, h1, Some 0, []) ∧
    Hub_Unsub σ1 h1 "/x" (Some 0) = Ret ([Chan [] 2 true], h, []).
Proof.
  intros h.
  assert (Hr : reachable ([], h)) by (apply reachable_new; lia).
  split; [exact Hr|].
  exact (Hub_Sub_Unsub_round_trip [] h "/x" Hr eq_refl eq_refl).
Defined.

(** The queues of the Hub after [Sub("/x")] and [Pub("/x", "m")]. *)
Lemma queues_never_exceed_queueSize_witness :
  let σ : list (chan (Msg:=string)) := [Chan [] 2 false] in
  let h : hub (Msg:=string) (Glob:=string) :=
    Hub 2 {["/x" := Topic (Chan ["m"] 2 false) (Some {[0 := 0]}) false None]}
        ∅ ∅ false in
  reachable (σ, h) ∧
  (∀ ch c, σ !! ch = Some c →
     (Z.of_nat (length (buf c)) ≤ 2)%Z ∧ cap c = 2%Z) ∧
  (∀ k t, get_topic h k = Some t →
     (Z.of_nat (length (buf (pubChan t))) ≤ 2)%Z ∧ cap (pubChan t) = 2%Z).
Proof.
  intros σ h.
  assert (Hr : reachable (σ, h)).
  { apply (hrun_reachable [LSub "/x"; LPub "/x" "m"] ([], NewHub 2)).
    - apply reachable_new. lia.
    - vm_compute. reflexivity. }
  split; [exact Hr|].
  exact (queues_never_exceed_queueSize σ h Hr).
Defined.



(** A Hub with one message queued for one subscriber. *)
Lemma goroutines_come_to_rest_with_empty_queues_witness :
  let σ : list (chan (Msg:=string)) := [Chan [] 2 false] in
  let h : hub (Msg:=string) (Glob:=string) :=
    Hub 2 {["/x" := Topic (Chan ["m"] 2 false) (Some {[0 := 0]}) false None]}
        ∅ ∅ false in
  let ls := [LRecv (Exact "/x") [0]; LDeliver (Exact "/x"); LConsume 0] in
  reachable (σ, h) ∧ work (σ, h) = 4 ∧
  ∃ σ' h', hrun ls (σ, h) = Ret (σ', h') ∧
    (length ls ≤ work (σ, h))%nat ∧
    ((∀ l s'', internal l = true → hstep l (σ', h') ≠ Ret s'') →
     (∀ ch c, σ' !! ch = Some c → buf c = []) ∧
     (∀ k t, get_topic h' k = Some t → buf (pubChan t) = [] ∧ bcast t = None)).
Proof.
  intros σ h ls.
  assert (Hr : reachable (σ, h)).
  { apply (hrun_reachable [LSub "/x"; LPub "/x" "m"] ([], NewHub 2)).
    - apply reachable_new. lia.
    - vm_compute. reflexivity. }
  split; [exact Hr|]. split; [vm_compute; reflexivity|].
  assert (Hrun : ∃ σ' h', hrun ls (σ, h) = Ret (σ', h')).
  { eexists _, _. vm_compute. reflexivity. }
  destruct Hrun as (σ' & h' & Hrun). exists σ', h'. split; [exact Hrun|].
  refine (goroutines_come_to_rest_with_empty_queues σ h ls σ' h' Hr _ Hrun).
  repeat constructor.
Defined.

(** The channel of the subscriber of [/x], beside a subscriber of [/y]. *)
Lemma subscriber_channel_has_one_owner_witness :
  let σ : list (chan (Msg:=string)) := [Chan [] 2 false; Chan [] 2 false] in
  let t : nat → topic (Msg:=string) :=
    λ n, Topic (Chan [] 2 false) (Some {[n := n]}) false None in
  let h : hub (Msg:=string) (Glob:=string) :=
    Hub 2 {["/x" := t 0; "/y" := t 1]} ∅ ∅ false in
  reachable (σ, h) ∧ 0 ∈ sub_dom (t 0) ∧
  (∃ c, σ !! 0 = Some c ∧ closed c = false) ∧
  (∀ k' t', get_topic h k' = Some t' → 0 ∈ sub_dom t' → k' = Exact "/x") ∧
  (∀ msg rest, bcast (t 0) = Some (msg, rest) → rest ⊆ elements (sub_dom (t 0))).
Proof.
  intros σ t h.
  assert (Hr : reachable (σ, h)).
  { apply (hrun_reachable [LSub "/x"; LSub "/y"] ([], NewHub 2)).
    - apply reachable_new. lia.
    - vm_compute. reflexivity. }
  assert (Hin : 0 ∈ sub_dom (t 0)).
  { apply elem_of_sub_dom. exists {[0 := 0]}, 0. split; reflexivity. }
  assert (Hk : get_topic h (Exact "/x") = Some (t 0)) by (vm_compute; reflexivity).
  split; [exact Hr|]. split; [exact Hin|].
  exact (subscriber_channel_has_one_owner σ h (Exact "/x") (t 0) 0 Hr Hk Hin).
Defined.

(** Two subscribers of [/x]: the second [Unsub] of the first one panics. *)
Lemma Unsub_twice_witness :
  let σ : list (chan (Msg:=string)) := [Chan [] 2 false; Chan [] 2 false] in
  let t : topic (Msg:=string) :=
    Topic (Chan [] 2 false) (Some {[0 := 0; 1 := 1]}) false None in
  let h : hub (Msg:=string) (Glob:=string) := Hub 2 {["/x" := t]} ∅ ∅ false in
  reachable (σ, h) ∧ 0 ∈ sub_dom t ∧
  ∃ σ1 h1, Hub_Unsub σ h "/x" (Some 0) = Ret (σ1, h1, []) ∧
           Hub_Unsub σ1 h1 "/x" (Some 0) = Panic.
Proof.
  intros σ t h.
  assert (Hr : reachable (σ, h)).
  { apply (hrun_reachable [LSub "/x"; LSub "/x"] ([], NewHub 2)).
    - apply reachable_new. lia.
    - vm_compute. reflexivity. }
  assert (Hin : 0 ∈ sub_dom t).
  { apply elem_of_sub_dom. exists {[0 := 0; 1 := 1]}, 0. split; reflexivity. }
  assert (Hk : topics h !! "/x" = Some t) by (vm_compute; reflexivity).
  split; [exact Hr|]. split; [exact Hin|].
  destruct (Unsub_twice σ h "/x" t 0 Hr eq_refl Hk eq_refl Hin)
    as (σ1 & h1 & H1 & H2).
  exists σ1, h1. split; [exact H1|]. exact H2.
Defined.

End Examples.
